(** * Redundant-check elimination of the ASan-- instrumentation pass

    A shallow embedding of the check-elimination engine of
    [llvm/lib/Transforms/Instrumentation/AddressSanitizer.cpp]:
    the two recurring-check passes, the neighbor-check passes, the loop
    passes, the safe-access test applied at emission, and the guards that
    the pass inserts.

    IR objects (instructions, values, basic blocks) are identified by
    their address, an integer: the [std::set] and [std::map] containers of
    the source are ordered by it.  The analyses the pass consults
    (dominator trees, alias analysis, scalar evolution, loop info, object
    sizes) belong to LLVM and are taken as functions. *)

From stdpp Require Import base list gmap sorting.

Open Scope Z_scope.

(** ** Constants of the pass *)

Definition RZ_SIZE : Z := 16.
Definition CHECK_RANGE : Z := 64.
Definition CHECK_RANGE_LOOP : Z := 32.
Definition MAX_STEP_SIZE : Z := 8.
Definition kDefaultShadowScale : Z := 3.

(** ** Fixed-width integers *)

(** Conversion of an integer to [int] (32 bits, two's complement). *)
Definition to_int (z : Z) : Z := (z + 2 ^ 31) mod 2 ^ 32 - 2 ^ 31.

(** [APInt::getZExtValue] and [APInt::getSExtValue] of a 64-bit value, and
    the cast [uint64_t(x)]. *)
Definition to_uint64 (z : Z) : Z := z mod 2 ^ 64.
Definition to_int64 (z : Z) : Z := (z + 2 ^ 63) mod 2 ^ 64 - 2 ^ 63.

(** ** Containers ordered by address *)

(** Iteration over a [std::set] of instructions: ascending addresses. *)
Definition set_iter (s : gset Z) : list Z := merge_sort Z.le (elements s).

(** Iteration over a [std::map] keyed by values: ascending keys. *)
Definition key_le {V : Type} (a b : Z * V) : Prop := a.1 ≤ b.1.

Global Instance key_le_dec {V : Type} (a b : Z * V) : Decision (key_le a b).
Proof. unfold key_le. apply _. Defined.

Definition map_iter {V : Type} (m : gmap Z V) : list (Z * V) :=
  merge_sort key_le (map_to_list m).

(** Lexicographic order of [std::pair] of an offset and an instruction. *)
Definition pair_le (a b : Z * Z) : Prop :=
  a.1 < b.1 ∨ (a.1 = b.1 ∧ a.2 ≤ b.2).

Global Instance pair_le_dec a b : Decision (pair_le a b).
Proof. unfold pair_le. apply _. Defined.

(** Iteration over a [std::set] of such pairs. *)
Definition pset_iter (s : gset (Z * Z)) : list (Z * Z) :=
  merge_sort pair_le (elements s).

(** ** Access sites *)

(** What [isInterestingMemoryAccess] reports for an instruction it
    accepts: the pointer operand and the out-parameters. *)
Record MemAccess : Type := mkMemAccess {
  Addr : Z;
  IsWrite : bool;
  TypeSize : Z;
  Alignment : Z;
  MaybeMask : option Z
}.

(** An index operand of a [GetElementPtrInst]: the value, and its
    [getSExtValue] when it is a [ConstantInt]. *)
Record Index : Type := mkIndex {
  IndexValue : Z;
  IndexConstant : option Z
}.

(** A [GetElementPtrInst]: [getPointerOperand], the element count of the
    pointee of [getPointerOperandType] when that pointee is an
    [ArrayType], and the operands from [idx_begin] to [idx_end]. *)
Record GEP : Type := mkGEP {
  PointerOperand : Z;
  ArrayNumElements : option Z;
  Indices : list Index
}.

(** The shape of an address value, as far as the pass inspects it. *)
Inductive AddrExpr : Type :=
| CastInst (Operand0 : AddrExpr)
| GetElementPtrInst (Gep_Inst : GEP)
| OtherValue.

(** An operand of a comparison: the value, and whether it is a
    [ConstantInt] (with its [getSExtValue]), some other [ConstantData],
    or no constant data. *)
Inductive ConstantKind : Type :=
| ConstantInt (SExtValue : Z)
| OtherConstantData
| NotConstantData.

Record CmpOperand : Type := mkCmpOperand {
  OperandValue : Z;
  OperandConstant : ConstantKind
}.

(** Modelled from the spec: the header [SlimasanProject.h], which declares
    the enumerations [addrType] and [SCEVType], is missing.  The class of
    an address inside a loop is invariant in bounds ([IBIO]), unknown, or
    something else; the pass tests it against [IBIO] only.  The
    constructors of [SCEVType] are those the pass names. *)
Inductive addrType : Type := IBIO | UNKNOWN | OtherAddrType.

Inductive SCEVType : Type :=
| SEConstant | SEIncrease | SEDecrease | SELoopInvariant | SEUnknown.

Global Instance SCEVType_eq_dec : EqDecision SCEVType.
Proof. solve_decision. Defined.

Global Instance addrType_eq_dec : EqDecision addrType.
Proof. solve_decision. Defined.

#[local] Unset Elimination Schemes.

(** Scalar-evolution expressions, as far as [getInitValueFromSCEV]
    inspects them.  A constant carries its value and [getSExtValue];
    of a signed or unsigned maximum only the operands 0 and 1 are read. *)
Inductive SCEV : Type :=
| SCEVConstant (value : Z) (SExtValue : Z)
| SCEVAddRecExpr (Start Step : SCEV)
| SCEVUnknown (value : Z)
| SCEVAddExpr (operands : list SCEV)
| SCEVMulExpr (operands : list SCEV)
| SCEVUDivExpr (LHS RHS : SCEV)
| SCEVSMaxExpr (operand0 operand1 : SCEV)
| SCEVUMaxExpr (operand0 operand1 : SCEV)
| SCEVTruncateExpr (operand : SCEV)
| SCEVZeroExtendExpr (operand : SCEV)
| SCEVSignExtendExpr (operand : SCEV)
| SCEVCouldNotCompute.

#[local] Set Elimination Schemes.

(** [GetUnderlyingObject]: a global variable (with the answer of
    [GlobalIsLinkerInitialized]), an alloca, or something else. *)
Inductive UnderlyingObject : Type :=
| GlobalVariable (GlobalIsLinkerInitialized : bool)
| AllocaInst
| OtherObject.

(** The analyses of one function. *)
Record Analyses : Type := mkAnalyses {
  (** [isInterestingMemoryAccess(I, ...)]; [None] is the null result. *)
  isInterestingMemoryAccess : Z → option MemAccess;
  (** [I->getParent()]. *)
  getParent : Z → Z;
  (** [DominatorTree::dominates] on two instructions. *)
  DT_dominates : Z → Z → bool;
  (** [PostDominatorTree::dominates] on two basic blocks. *)
  PDT_dominates : Z → Z → bool;
  (** [AliasAnalysis::isMustAlias] on two values. *)
  isMustAlias : Z → Z → bool;
  (** [isPotentiallyReachable] on two instructions. *)
  isPotentiallyReachable : Z → Z → bool;
  (** The expression a pointer operand is defined by. *)
  addrExpr : Z → AddrExpr;
  (** [V->users()] restricted to the [CmpInst] users: each comparison
      with its operands 0 and 1. *)
  cmpUsers : Z → list (Z * (CmpOperand * CmpOperand));
  (** [DominatorTree::dominates] on an instruction and a basic block. *)
  DT_dominatesBlock : Z → Z → bool;
  (** [LoopInfo::getLoopFor] of a basic block. *)
  getLoopFor : Z → option Z;
  (** [Loop::getExitBlock] and [Loop::getParentLoop]. *)
  getExitBlock : Z → option Z;
  getParentLoop : Z → option Z;
  (** [BasicBlock::getFirstNonPHI], and that of the entry block. *)
  getFirstNonPHI : Z → Z;
  entryFirstNonPHI : Z;
  (** [ScalarEvolution::getSCEV]. *)
  getSCEV : Z → SCEV;
  (** [btraceInLoop] and [checkAddrType] of the header of the pass: the
      values traced back inside the loop, and the class of an address
      given those, for a loop. *)
  btraceInLoop : Z → Z → list Z;
  checkAddrType : Z → list Z → Z → addrType;
  (** [GetUnderlyingObject] of an address. *)
  GetUnderlyingObject : Z → UnderlyingObject;
  (** [ObjectSizeOffsetVisitor::compute]: the size and the offset as
      64-bit patterns when both are known. *)
  ObjSizeVis_compute : Z → option (Z * Z)
}.

(** The command-line options and the shadow mapping. *)
Record Config : Type := mkConfig {
  CompileKernel : bool;
  ClInstrumentationWithCallsThreshold : Z;
  ClOpt : bool;
  ClOptGlobals : bool;
  ClOptStack : bool;
  ClInitializers : bool;
  ClDebugMin : Z;
  ClDebugMax : Z;
  ClAlwaysSlowPath : bool;
  MappingScale : Z;
  MappingOffset : Z;
  MappingOrShadowOffset : bool
}.

Definition kSmallX86_64ShadowOffset : Z := 0x7FFF8000.

(** The values the options are initialised with, and the shadow mapping
    of Linux on x86-64. *)
Definition defaultConfig : Config :=
  {| CompileKernel := false;
     ClInstrumentationWithCallsThreshold := 7000;
     ClOpt := true;
     ClOptGlobals := true;
     ClOptStack := true;
     ClInitializers := false;
     ClDebugMin := -1;
     ClDebugMax := -1;
     ClAlwaysSlowPath := false;
     MappingScale := kDefaultShadowScale;
     MappingOffset := kSmallX86_64ShadowOffset;
     MappingOrShadowOffset := false |}.

(** ** Removing recurring checks (sequential execution) *)

Section Recurring.
Variable F : Analyses.

(** One round of the pre-processing loop: the instruction joins the slot
    of its address, else the slot of the first key that must-aliases
    it, else a new slot. *)
Definition groupStep (M : gmap Z (gset Z)) (Inst : Z) : gmap Z (gset Z) :=
  match isInterestingMemoryAccess F Inst with
  | None => M
  | Some acc =>
      match M !! Addr acc with
      | Some s => <[Addr acc := {[Inst]} ∪ s]> M
      | None =>
          match List.find (λ item, isMustAlias F item.1 (Addr acc))
                          (map_iter M) with
          | Some (k, s) => <[k := {[Inst]} ∪ s]> M
          | None => <[Addr acc := {[Inst]}]> M
          end
      end
  end.

Definition AddrToInstructions (ToInstrument : list Z) : gmap Z (gset Z) :=
  foldl groupStep ∅ ToInstrument.

(** The inner loop over [inst2], for a fixed [inst1]. *)
Definition deleteCovered (covers : Z → Z → bool) (inst1 : Z)
    (group : list Z) (deleted : gset Z) : gset Z :=
  foldl (λ del inst2,
           if decide (inst1 = inst2 ∨ inst2 ∈ del) then del
           else if covers inst1 inst2 then {[inst2]} ∪ del else del)
        deleted group.

(** The loop over [inst1] of one slot. *)
Definition deleteInGroup (covers : Z → Z → bool) (group : list Z)
    (deleted : gset Z) : gset Z :=
  foldl (λ del inst1,
           if decide (inst1 ∈ del) then del
           else deleteCovered covers inst1 group del)
        deleted group.

(** The loop over the slots of the map. *)
Definition deleteRecurring (covers : Z → Z → bool)
    (M : gmap Z (gset Z)) : gset Z :=
  foldl (λ del item, deleteInGroup covers (set_iter item.2) del)
        ∅ (map_iter M).

(** "Let's only keep the non-deleted ones". *)
Definition keepNonDeleted (deleted : gset Z) (ToInstrument : list Z)
    : list Z :=
  filter (λ item, item ∉ deleted) ToInstrument.

Definition postDominates (inst1 inst2 : Z) : bool :=
  PDT_dominates F (getParent F inst1) (getParent F inst2).

Definition sequentialExecuteOptimizationPostDom (ToInstrument : list Z)
    : list Z :=
  let deleted :=
    deleteRecurring postDominates (AddrToInstructions ToInstrument) in
  keepNonDeleted deleted ToInstrument.

Definition sequentialExecuteOptimization (ToInstrument : list Z) : list Z :=
  let deleted :=
    deleteRecurring (DT_dominates F) (AddrToInstructions ToInstrument) in
  keepNonDeleted deleted ToInstrument.

(** *** The conservative call and intrinsic check *)

(** [isPostDominatWrapper]: [blockOf StartBB] lists the instructions of
    the block in order. *)
Fixpoint scanBlock (insts : list Z) (InstStart TargetInst : Z)
    : option bool :=
  match insts with
  | [] => None
  | itrInst :: rest =>
      if decide (itrInst = InstStart) then Some false
      else if decide (itrInst = TargetInst) then Some true
      else scanBlock rest InstStart TargetInst
  end.

Definition isPostDominatWrapper (blockOf : Z → list Z)
    (InstStart TargetInst : Z) : bool :=
  let StartBB := getParent F InstStart in
  let TargetBB := getParent F TargetInst in
  let fallthrough := PDT_dominates F StartBB TargetBB in
  if decide (StartBB = TargetBB) then
    match scanBlock (blockOf StartBB) InstStart TargetInst with
    | Some b => b
    | None => fallthrough
    end
  else fallthrough.

Definition ConservativeCallIntrinsicCheck (blockOf : Z → list Z)
    (InstStart InstEnd : Z) (callIntrinsicSet : gset Z) : bool :=
  negb (existsb
          (λ TargetInst,
             isPotentiallyReachable F InstStart TargetInst
             && isPotentiallyReachable F TargetInst InstEnd
             && negb (isPostDominatWrapper blockOf InstStart TargetInst))
          (set_iter callIntrinsicSet)).
End Recurring.

(** ** Optimizing neighbor checks *)

(** The key of [baseAddrOffsetMap_multi]: the base pointer and the
    [std::string] that collects the leading constant indices, each one
    converted to [char]. *)
Definition BaseKey : Type := Z * list Z.

Definition to_char (z : Z) : Z := z mod 256.

Fixpoint string_leb (a b : list Z) : bool :=
  match a, b with
  | [], _ => true
  | _ :: _, [] => false
  | x :: a', y :: b' => (x <? y) || ((x =? y) && string_leb a' b')
  end.

Definition basekey_le {V : Type} (a b : BaseKey * V) : Prop :=
  a.1.1 < b.1.1 ∨ (a.1.1 = b.1.1 ∧ string_leb a.1.2 b.1.2 = true).

Global Instance basekey_le_dec {V : Type} (a b : BaseKey * V)
  : Decision (basekey_le a b).
Proof. unfold basekey_le. apply _. Defined.

Definition basemap_iter {V : Type} (m : gmap BaseKey V)
    : list (BaseKey * V) :=
  merge_sort basekey_le (map_to_list m).

(** [m[key].insert(value)], creating the slot when it is missing. *)
Definition slotInsert `{Countable K} `{Countable T}
    (key : K) (value : T) (m : gmap K (gset T)) : gmap K (gset T) :=
  <[key := {[value]} ∪ default ∅ (m !! key)]> m.

Section Neighbor.
Variable F : Analyses.

Definition OffsetMap : Type := gmap BaseKey (gset (Z * Z)).

Definition singleIndexCaseHandler (m : OffsetMap) (Gep_Inst : GEP)
    (Inst : Z) : OffsetMap :=
  match Indices Gep_Inst with
  | idx :: _ =>
      match IndexConstant idx with
      | Some intLastOffset =>
          slotInsert (PointerOperand Gep_Inst, []) (intLastOffset, Inst) m
      | None => m
      end
  | [] => m
  end.

(** The loop that collects the indices from [idx_begin] to
    [idx_end - 1]; [None] when one of them is not a [ConstantInt]. *)
Fixpoint leadingOffsets (leading : list Index) : option (list Z) :=
  match leading with
  | [] => Some []
  | idx :: rest =>
      match IndexConstant idx with
      | Some intOffset =>
          match leadingOffsets rest with
          | Some offsets => Some (to_char intOffset :: offsets)
          | None => None
          end
      | None => None
      end
  end.

Definition multiIndexCaseHandler (m : OffsetMap) (Gep_Inst : GEP)
    (Inst : Z) : OffsetMap :=
  let n := length (Indices Gep_Inst) in
  match leadingOffsets (take (n - 1)%nat (Indices Gep_Inst)) with
  | None => m
  | Some offsets =>
      match last (Indices Gep_Inst) with
      | Some idx =>
          match IndexConstant idx with
          | Some intLastOffset =>
              slotInsert (PointerOperand Gep_Inst, offsets)
                         (intLastOffset, Inst) m
          | None => m
          end
      | None => m
      end
  end.

(** [while (CastInst) addr = Cast_Inst->getOperand(0)]. *)
Fixpoint stripCasts (addr : AddrExpr) : AddrExpr :=
  match addr with
  | CastInst op => stripCasts op
  | _ => addr
  end.

Definition baseAddrOffsetMapPreprocessing (ToInstrument : list Z)
    : OffsetMap :=
  foldl (λ m Inst,
           match isInterestingMemoryAccess F Inst with
           | None => m
           | Some acc =>
               match stripCasts (addrExpr F (Addr acc)) with
               | GetElementPtrInst Gep_Inst =>
                   if decide (length (Indices Gep_Inst) = 1%nat)
                   then singleIndexCaseHandler m Gep_Inst Inst
                   else multiIndexCaseHandler m Gep_Inst Inst
               | _ => m
               end
           end)
        ∅ ToInstrument.

(** *** Removing neighbor checks *)

Definition PairMap : Type := gmap Z (gset (Z * Z)).

(** The condition under which the check on B is removable, with A and
    C as the pair that ensures it. *)
Definition removableTriple (A B C : Z * Z) : bool :=
  (DT_dominates F A.2 B.2
   || PDT_dominates F (getParent F A.2) (getParent F B.2))
  && ((C.1 >? B.1) && (B.1 >? A.1) && (C.1 - A.1 <? RZ_SIZE)).

Definition preprocessPotentialRemoveInsts (baseAddrOffsetSet : gset (Z * Z))
    : PairMap :=
  let nodes := pset_iter baseAddrOffsetSet in
  foldl (λ m offsetInstA,
    foldl (λ m offsetInstB,
      if decide (offsetInstA = offsetInstB) then m else
      foldl (λ m offsetInstC,
        if decide (offsetInstA = offsetInstC ∨ offsetInstB = offsetInstC)
        then m
        else if removableTriple offsetInstA offsetInstB offsetInstC
        then slotInsert offsetInstB.2 (offsetInstA.2, offsetInstC.2) m
        else m) m nodes) m nodes) ∅ nodes.

(** The number [countInst] computed for the entry [instVectorMap]: the
    pairs of every other entry [instVector] are tested against the key
    of [instVector]. *)
Definition countInst (potentialRemoveInsts : PairMap)
    (instVectorMap : Z * gset (Z * Z)) : Z :=
  foldl (λ count instVector,
    if decide (instVector.1 = instVectorMap.1) then count else
    foldl (λ count instPair,
      if decide (instVector.1 = instPair.1 ∨ instVector.1 = instPair.2)
      then count + 1 else count) count (pset_iter instVector.2))
    0 (map_iter potentialRemoveInsts).

Definition rankRemovableInsts (potentialRemoveInsts : PairMap)
    : list (Z * Z) :=
  map (λ instVectorMap,
         (countInst potentialRemoveInsts instVectorMap, instVectorMap.1))
      (map_iter potentialRemoveInsts).

(** The flag [removeInst] after the loop over [deleted]. *)
Definition removeInst (pairs : gset (Z * Z)) (deleted : gset Z) : bool :=
  forallb (λ elem,
    existsb (λ instPair,
      bool_decide (instPair.1 ≠ elem ∧ instPair.2 ≠ elem))
      (pset_iter pairs))
    (set_iter deleted).

(** "remove all pairs that contain current key instruction". *)
Definition erasePairs (key : Z) (potentialRemoveInsts : PairMap)
    : PairMap :=
  (λ pairs : gset (Z * Z),
     filter (λ instPair, ¬ (key = instPair.1 ∨ key = instPair.2)) pairs)
  <$> potentialRemoveInsts.

(** The body of the loop over the ranked list: the candidate is removed
    when [removeInst] holds, and the pairs that contain it are erased
    from the map. *)
Definition removeCandidate (st : PairMap * gset Z) (countInst : Z * Z)
    : PairMap * gset Z :=
  let '(m, deleted) := st in
  if removeInst (default ∅ (m !! countInst.2)) deleted
  then (erasePairs countInst.2 m, {[countInst.2]} ∪ deleted)
  else st.

Definition removeInstructionFunc (potentialRemoveInsts : PairMap)
    (deleted : gset Z) : PairMap * gset Z :=
  let rankPotentialRemoveInsts :=
    merge_sort pair_le (rankRemovableInsts potentialRemoveInsts) in
  foldl removeCandidate (potentialRemoveInsts, deleted)
        rankPotentialRemoveInsts.

Definition rmNeighborChks (baseAddrOffsetMap_multi : OffsetMap)
    (deleted : gset Z) : gset Z :=
  foldl (λ deleted baseAddrOffsetSet,
    if decide (3 ≤ size baseAddrOffsetSet.2)%nat
    then (removeInstructionFunc
            (preprocessPotentialRemoveInsts baseAddrOffsetSet.2)
            deleted).2
    else deleted)
    deleted (basemap_iter baseAddrOffsetMap_multi).

Definition updateBaseAddrOffsetMap (baseAddrOffsetMap_multi : OffsetMap)
    (deleted : gset Z) : OffsetMap :=
  (λ offsets : gset (Z * Z),
     filter (λ offsetInst, offsetInst.2 ∉ deleted) offsets)
  <$> baseAddrOffsetMap_multi.
End Neighbor.

(** ** The checks the pass inserts *)

(** The address a check validates: a pointer operand of the function, or
    the content of the tracer variable created for an instruction. *)
Inductive AddrOperand : Type :=
| OfValue (Addr : Z)
| OfTracer (Inst : Z).

(** A full check: [instrumentAddress] or
    [instrumentUnusualSizeOrAlignment] with their arguments. *)
Inductive Check : Type :=
| instrumentAddress (Addr : AddrOperand) (TypeSize : Z) (IsWrite : bool)
    (UseCalls : bool)
| instrumentUnusualSizeOrAlignment (Addr : AddrOperand) (TypeSize : Z)
    (IsWrite : bool) (UseCalls : bool).

(** The condition of a [SplitBlockAndInsertIfThen]. *)
Inductive Cond : Type :=
| ShadowNonZero (Addr : Z) (ShadowTyBits : Z)
| URemULT (Addr : Z) (RHS : Z) (StepSizeLong : Z)
| TracerNonZero (Inst : Z)
| InitValueNE (initValue : Z) (Addr : Z).

(** What the pass does to the function. *)
Inductive IREdit : Type :=
| CloneBasicBlock (BB : Z)
| InsertCheck (InsertBefore : Z) (c : Check)
| InsertMaskedChecks (InsertBefore : Z) (Addr : Z) (Mask : Z)
    (TypeSize : Z) (IsWrite : bool)
| InsertIfThen (InsertBefore : Z) (Cmp : Cond) (body : list Check)
| CreateTracer (InsertBefore : Z) (Inst : Z)
| StoreTracer (InsertBefore : Z) (Inst : Z) (value : option Z)
| InstrumentMemIntrinsic (Inst : Z)
| CallAsanInit.

(** The test of [doInstrumentAddress], repeated in the handlers: a 1-,
    2-, 4-, 8- or 16-byte access that is properly aligned takes one
    check. *)
Definition usualSizeAndAlignment (Granularity TypeSize Alignment : Z) : bool :=
  (bool_decide (TypeSize = 8) || bool_decide (TypeSize = 16)
   || bool_decide (TypeSize = 32) || bool_decide (TypeSize = 64)
   || bool_decide (TypeSize = 128))
  && ((Alignment >=? Granularity) || (Alignment =? 0)
      || (Alignment >=? TypeSize / 8)).

Definition to_uint32 (z : Z) : Z := z mod 2 ^ 32.

(** The full check on [Addr] that the handlers emit from the results of
    [isInterestingMemoryAccess]. *)
Definition fullCheck (Scale : Z) (Addr : AddrOperand) (acc : MemAccess)
    (UseCalls : bool) : Check :=
  if usualSizeAndAlignment (2 ^ Scale) (TypeSize acc) (Alignment acc)
  then instrumentAddress Addr (to_uint32 (TypeSize acc)) (IsWrite acc) UseCalls
  else instrumentUnusualSizeOrAlignment Addr (to_uint32 (TypeSize acc))
         (IsWrite acc) UseCalls.

(** ** Merging neighbor checks *)

Section Merging.
Variable F : Analyses.
Variable Scale : Z.

Definition checkConditionPairwisedNodes (A B : Z) : bool :=
  DT_dominates F A B
  && (bool_decide (getParent F A = getParent F B)
      || PDT_dominates F (getParent F B) (getParent F A)).

(** "(A dominate B OR B post-dominte A) AND distance between A and B
    is less than 64". *)
Definition mergeable (offsetInstA offsetInstB : Z * Z) : bool :=
  (offsetInstA.1 - offsetInstB.1 <? CHECK_RANGE)
  && (offsetInstB.1 - offsetInstA.1 <? CHECK_RANGE)
  && (checkConditionPairwisedNodes offsetInstA.2 offsetInstB.2
      || checkConditionPairwisedNodes offsetInstB.2 offsetInstA.2).

(** The inner loop for node A: the nodes B are pushed in order until
    the first one that fails the condition ([break]); A is skipped. *)
Fixpoint mergeCandidates (offsetInstA : Z * Z) (nodes : list (Z * Z))
    : list (Z * Z) :=
  match nodes with
  | [] => []
  | offsetInstB :: rest =>
      if decide (offsetInstA = offsetInstB)
      then mergeCandidates offsetInstA rest
      else if mergeable offsetInstA offsetInstB
      then offsetInstB :: mergeCandidates offsetInstA rest
      else []
  end.

Definition InstructionsMap : Type := gmap (Z * Z) (list (Z * Z)).

Definition preprocessInstructionsMap (baseAddrOffsetSet : gset (Z * Z))
    : InstructionsMap :=
  let nodes := pset_iter baseAddrOffsetSet in
  foldl (λ m offsetInstA,
           match mergeCandidates offsetInstA nodes with
           | [] => m
           | candidates => <[offsetInstA := candidates]> m
           end)
        ∅ nodes.

(** An element of [rankPotentialRemoveInsts]: the size of the vector,
    the node and its vector. *)
Definition RankedEntry : Type := Z * ((Z * Z) * list (Z * Z)).

Definition ranked_le (a b : RankedEntry) : Prop :=
  a.1 < b.1 ∨ (a.1 = b.1 ∧ pair_le a.2.1 b.2.1).

Global Instance ranked_le_dec a b : Decision (ranked_le a b).
Proof. unfold ranked_le. apply _. Defined.

Definition prioritiseRemovableInst (instructionsMap : InstructionsMap)
    : list RankedEntry :=
  let entries :=
    map (λ instVector, (Z.of_nat (length instVector.2), instVector))
        (merge_sort (λ a b : (Z * Z) * list (Z * Z), pair_le a.1 b.1)
                    (map_to_list instructionsMap)) in
  reverse (merge_sort ranked_le entries).

Definition getLastInst (optInst : RankedEntry) : Z * Z :=
  foldl (λ lastInst eachInst,
           if DT_dominates F eachInst.2 lastInst.2 then lastInst
           else eachInst)
        optInst.2.1 optInst.2.2.

Definition getMaxDistance (optInst : RankedEntry) : Z :=
  foldl (λ maxOffset eachInst,
           if eachInst.1 >? maxOffset then to_int eachInst.1
           else maxOffset)
        0 optInst.2.2.

(** [front()] of an empty vector is undefined: the node itself stands
    in for it, the vectors of the map are never empty. *)
Definition getMinDistance (optInst : RankedEntry) : Z * Z :=
  foldl (λ minOffset eachInst,
           if eachInst.1 <? minOffset.1 then eachInst else minOffset)
        (default optInst.2.1 (head optInst.2.2)) optInst.2.2.

(** The width of the shadow load, "check 64 bits range". *)
Definition ShadowTyBits (maxDistance : Z) : Z :=
  if (8 <=? maxDistance) && (maxDistance <? 16) then 16
  else if (16 <=? maxDistance) && (maxDistance <? 32) then 32
  else if (32 <=? maxDistance) && (maxDistance <? 64) then 64
  else 8.

(** The access record of a site of the offset map; the sites of the
    map are all interesting accesses. *)
Definition accessOf (Inst : Z) : MemAccess :=
  default (mkMemAccess 0 false 0 0 None) (isInterestingMemoryAccess F Inst).

(** The body of the loop of [optimizeInstrumentation] for one entry:
    the guard it inserts and the instructions it adds to [deleted]. *)
Definition mergedGuard (optInst : RankedEntry) : IREdit :=
  let lastInst := getLastInst optInst in
  let minInst := getMinDistance optInst in
  let maxDistance := to_int (getMaxDistance optInst - minInst.1) in
  let acc := accessOf minInst.2 in
  InsertIfThen lastInst.2
    (ShadowNonZero (Addr acc) (ShadowTyBits maxDistance))
    (fullCheck Scale (OfValue (Addr acc)) acc false
     :: map (λ eachInst : Z * Z,
               let eachAcc := accessOf eachInst.2 in
               fullCheck Scale (OfValue (Addr eachAcc)) eachAcc false)
            optInst.2.2).

Definition mergedAway (optInst : RankedEntry) : gset Z :=
  {[optInst.2.1.2]} ∪ list_to_set (map snd optInst.2.2).

End Merging.

(** The pass rebuilds its dominator and post-dominator trees from the
    function whenever it needs them, also after it has inserted checks:
    [analyse log] gives the analyses of the function as it stands after
    the edits of [log]. *)
Section MergingLoop.
Variable analyse : list IREdit → Analyses.
Variable Scale : Z.

(** The loop of [optimizeInstrumentation].  The source erases from the
    list every entry whose node is in the vector of the current
    entry; here the erased nodes are accumulated and their entries
    skipped. *)
Definition optimizeInstrumentation
    (rankPotentialRemoveInsts : list RankedEntry) (deleted : gset Z)
    (log : list IREdit) : gset Z * list IREdit :=
  let '(_, deleted, log) :=
    foldl (λ st optInst,
             let '(erased, deleted, log) := st in
             if decide (optInst.2.1 ∈ (erased : list (Z * Z))) then st
             else (optInst.2.2 ++ erased,
                   mergedAway optInst ∪ deleted,
                   log ++ [mergedGuard (analyse log) Scale optInst]))
          ([], deleted, log) rankPotentialRemoveInsts in
  (deleted, log).

Definition mrgNeighborChks (baseAddrOffsetMap_multi : OffsetMap)
    (deleted : gset Z) (log : list IREdit) : gset Z * list IREdit :=
  foldl (λ st baseAddrOffsetSet,
           let '(deleted, log) := st in
           if decide (2 ≤ size (baseAddrOffsetSet.2 : gset (Z * Z)))%nat
           then
             optimizeInstrumentation
               (prioritiseRemovableInst
                  (preprocessInstructionsMap (analyse log)
                     baseAddrOffsetSet.2))
               deleted log
           else st)
        (deleted, log) (basemap_iter baseAddrOffsetMap_multi).

Definition sequentialExecuteOptimizationBoost (ToInstrument : list Z)
    (log : list IREdit) : list Z * list IREdit :=
  let F := analyse log in
  let baseAddrOffsetMap_multi := baseAddrOffsetMapPreprocessing F ToInstrument in
  let deleted := rmNeighborChks F baseAddrOffsetMap_multi ∅ in
  let baseAddrOffsetMap_multi :=
    updateBaseAddrOffsetMap baseAddrOffsetMap_multi deleted in
  let '(deleted, log) :=
    mrgNeighborChks baseAddrOffsetMap_multi deleted log in
  (keepNonDeleted deleted ToInstrument, log).
End MergingLoop.

(** ** Removing unsatisfiable checks (safe accesses) *)

Section SafeAccess.
Variable F : Analyses.

(** [isSafeAccess]: "Three checks are required to ensure safety". *)
Definition isSafeAccess (Addr : Z) (TypeSize : Z) : bool :=
  match ObjSizeVis_compute F Addr with
  | None => false
  | Some (size, offset) =>
      let Size := to_uint64 size in
      let Offset := to_int64 offset in
      (Offset >=? 0) && (Size >=? to_uint64 Offset)
      && (to_uint64 (Size - to_uint64 Offset) >=? TypeSize / 8)
  end.

(** One of the two tests of a comparison that dominates the access:
    [Index] is the operand [indexSide] and the operand [constSide] is
    constant data.  [None]: the test does not return; [Some None]: the
    constant is no [ConstantInt] and the null result of [dyn_cast] is
    dereferenced. *)
Definition cmpSide (Gep_Inst : GEP) (Index : Z)
    (indexSide constSide : CmpOperand) : option (option bool) :=
  if decide (Index = OperandValue indexSide) then
    match OperandConstant constSide with
    | ConstantInt MaxOffset =>
        match ArrayNumElements Gep_Inst with
        | Some ObjSize =>
            Some (Some (to_uint64 ObjSize >=? to_uint64 MaxOffset))
        | None => None
        end
    | OtherConstantData => Some None
    | NotConstantData => None
    end
  else None.

Definition boostByCmp (IndexInst : Z) (Gep_Inst : GEP) (Index : Z)
    (i_cmp : Z * (CmpOperand * CmpOperand)) : option (option bool) :=
  if DT_dominates F i_cmp.1 IndexInst then
    match cmpSide Gep_Inst Index i_cmp.2.1 i_cmp.2.2 with
    | Some r => Some r
    | None => cmpSide Gep_Inst Index i_cmp.2.2 i_cmp.2.1
    end
  else None.

(** The first comparison that decides, over the indices and over the
    users of each index. *)
Fixpoint firstDecided {A B : Type} (f : A → option B) (l : list A)
    : option B :=
  match l with
  | [] => None
  | x :: rest =>
      match f x with
      | Some r => Some r
      | None => firstDecided f rest
      end
  end.

Definition isSafeAccessBoost (IndexInst : Z) (Addr : Z) : option bool :=
  match addrExpr F Addr with
  | GetElementPtrInst Gep_Inst =>
      match firstDecided
              (λ Index : Index,
                 firstDecided
                   (boostByCmp IndexInst Gep_Inst (IndexValue Index))
                   (cmpUsers F (IndexValue Index)))
              (Indices Gep_Inst) with
      | Some r => r
      | None => Some false
      end
  | _ => Some false
  end.
End SafeAccess.

(** ** Emission of the ordinary checks *)

Section Emission.
Variable F : Analyses.
Variable cfg : Config.

(** [doInstrumentAddress]; its [TypeSize] parameter is 32 bits wide. *)
Definition doInstrumentAddress (Addr : Z) (Alignment Granularity : Z)
    (TypeSize : Z) (IsWrite UseCalls : bool) : Check :=
  let TypeSize := to_uint32 TypeSize in
  if usualSizeAndAlignment Granularity TypeSize Alignment
  then instrumentAddress (OfValue Addr) TypeSize IsWrite UseCalls
  else instrumentUnusualSizeOrAlignment (OfValue Addr) TypeSize IsWrite
         UseCalls.

(** What becomes of one access at emission. *)
Inductive MopResult : Type :=
| OptimizedAccessToGlobalVar
| OptimizedAccessToStackVar
| NullDereference
| Instrumented (edit : IREdit).

(** The two safe-access tests in a row, for a global or for a stack
    variable. *)
Definition safeAccessTests (I : Z) (acc : MemAccess) (optimized : MopResult)
    (otherwise : MopResult) : MopResult :=
  if isSafeAccess F (Addr acc) (TypeSize acc) then optimized
  else match isSafeAccessBoost F I (Addr acc) with
       | Some true => optimized
       | Some false => otherwise
       | None => NullDereference
       end.

(** The ordinary check of an access, inserted before [PrevI]. *)
Definition ordinaryCheck (I PrevI : Z) (UseCalls : bool) : IREdit :=
  let acc := accessOf F I in
  match MaybeMask acc with
  | Some Mask =>
      InsertMaskedChecks PrevI (Addr acc) Mask (TypeSize acc) (IsWrite acc)
  | None =>
      InsertCheck PrevI
        (doInstrumentAddress (Addr acc) (Alignment acc)
           (2 ^ MappingScale cfg) (TypeSize acc) (IsWrite acc) UseCalls)
  end.

(** [instrumentMop] and [instrumentMopLoop]: the check is inserted
    before [PrevI], which is [I] itself for [instrumentMop]. *)
Definition instrumentMopAt (I PrevI : Z) (UseCalls : bool) : MopResult :=
  let acc := accessOf F I in
  let emit := Instrumented (ordinaryCheck I PrevI UseCalls) in
  let stack :=
    if ClOpt cfg && ClOptStack cfg then
      match GetUnderlyingObject F (Addr acc) with
      | AllocaInst => safeAccessTests I acc OptimizedAccessToStackVar emit
      | _ => emit
      end
    else emit in
  if ClOpt cfg && ClOptGlobals cfg then
    match GetUnderlyingObject F (Addr acc) with
    | GlobalVariable linkerInitialized =>
        if negb (ClInitializers cfg) || linkerInitialized
        then safeAccessTests I acc OptimizedAccessToGlobalVar stack
        else stack
    | _ => stack
    end
  else stack.

Definition instrumentMop (I : Z) (UseCalls : bool) : MopResult :=
  instrumentMopAt I I UseCalls.

Definition instrumentMopLoop (I PrevI : Z) (UseCalls : bool) : MopResult :=
  instrumentMopAt I PrevI UseCalls.

Definition editsOf (r : MopResult) : list IREdit :=
  match r with
  | Instrumented edit => [edit]
  | _ => []
  end.

(** [UseCalls], computed from the size of the list. *)
Definition useCalls (ToInstrument : list Z) : bool :=
  CompileKernel cfg
  || ((ClInstrumentationWithCallsThreshold cfg >=? 0)
      && (Z.of_nat (length ToInstrument)
            >? ClInstrumentationWithCallsThreshold cfg)).
End Emission.

(** ** Loop optimizations *)

(** The out-parameters of [getInitValueFromSCEV]. *)
Record SCEVOut : Type := mkSCEVOut {
  initValue : Z;
  initIndex : Z;
  stepSize : Z
}.

Definition SCEVTypeCalculation (SCEVTypeCombination : list SCEVType)
    : SCEVType :=
  if decide (SEUnknown ∈ SCEVTypeCombination) then SEUnknown
  else
    default SEUnknown
      (List.find (λ type, bool_decide (type = SEIncrease)
                          || bool_decide (type = SEDecrease))
                 SCEVTypeCombination).

Section Loops.
Variable F : Analyses.
Variable cfg : Config.

Fixpoint getInitValueFromSCEV (L : Z) (Expr : SCEV) (out : SCEVOut)
    : SCEVType * SCEVOut :=
  let combine :=
    fix combine (operands : list SCEV) (out : SCEVOut)
        : list SCEVType * SCEVOut :=
      match operands with
      | [] => ([], out)
      | operand :: rest =>
          let '(type, out) := getInitValueFromSCEV L operand out in
          let '(types, out) := combine rest out in
          (type :: types, out)
      end in
  match Expr with
  | SCEVConstant value _ =>
      (SEConstant, mkSCEVOut value (initIndex out) (stepSize out))
  | SCEVAddRecExpr start Step =>
      let out :=
        match start with
        | SCEVConstant _ indexint =>
            mkSCEVOut (initValue out) indexint (stepSize out)
        | _ => out
        end in
      let '(initType, out) := getInitValueFromSCEV L start out in
      if decide (initType = SEUnknown) then (SEUnknown, out)
      else
        match Step with
        | SCEVConstant _ StepRecurrenceInt =>
            let out :=
              mkSCEVOut (initValue out) (initIndex out) StepRecurrenceInt in
            if StepRecurrenceInt <? 0 then (SEDecrease, out)
            else if StepRecurrenceInt >? 0 then (SEIncrease, out)
            else (SEUnknown, out)
        | _ => (SEUnknown, out)
        end
  | SCEVUnknown value =>
      let out := mkSCEVOut value (initIndex out) (stepSize out) in
      if decide (checkAddrType F value [] L = IBIO)
      then (SELoopInvariant, out) else (SEUnknown, out)
  | SCEVAddExpr operands | SCEVMulExpr operands =>
      let '(types, out) := combine operands out in
      (SCEVTypeCalculation types, out)
  | SCEVUDivExpr a b | SCEVSMaxExpr a b | SCEVUMaxExpr a b =>
      let '(ta, out) := getInitValueFromSCEV L a out in
      let '(tb, out) := getInitValueFromSCEV L b out in
      (SCEVTypeCalculation [ta; tb], out)
  | SCEVTruncateExpr op | SCEVZeroExtendExpr op | SCEVSignExtendExpr op =>
      getInitValueFromSCEV L op out
  | SCEVCouldNotCompute => (SEUnknown, out)
  end.

(** A handler returns the edits it makes and whether it inserts the
    instruction into [optimized]. *)
Definition HandlerResult : Type := list IREdit * bool.

Definition InvariantOptimizeHandler (L : Z) (Inst : Z) (UseCalls : bool)
    : HandlerResult :=
  match isInterestingMemoryAccess F Inst with
  | None => ([], false)
  | Some acc =>
      match getExitBlock F L with
      | None => ([], false)
      | Some ExitBB =>
          let exitInst := getFirstNonPHI F ExitBB in
          if DT_dominatesBlock F Inst ExitBB then
            (editsOf (instrumentMopLoop F cfg Inst exitInst UseCalls), true)
          else
            let tracer :=
              [ CreateTracer (entryFirstNonPHI F) Inst;
                StoreTracer (entryFirstNonPHI F) Inst None;
                StoreTracer Inst Inst (Some (Addr acc));
                InsertIfThen exitInst (TracerNonZero Inst)
                  [fullCheck (MappingScale cfg) (OfTracer Inst) acc
                     UseCalls] ] in
            match getParentLoop F L with
            | None => (tracer, true)
            | Some _ => (tracer ++ [StoreTracer exitInst Inst None], true)
            end
      end
  end.

(** [MonotonicOptimizeHandler]; [uninitialized] stands for the content
    of the locals [initValue], [initIndex] and [stepSize] before the
    call of [getInitValueFromSCEV], which the source does not set. *)
Definition MonotonicOptimizeHandler (uninitialized : SCEVOut) (L : Z)
    (Inst : Z) (UseCalls : bool) : HandlerResult :=
  match getExitBlock F L with
  | None => ([], false)
  | Some ExitBB =>
      let exitInst := getFirstNonPHI F ExitBB in
      match isInterestingMemoryAccess F Inst with
      | None => ([], false)
      | Some acc =>
          let '(initType, out) :=
            getInitValueFromSCEV L (getSCEV F (Addr acc)) uninitialized in
          if decide (initType = SEUnknown) then ([], false)
          else if stepSize out >? MAX_STEP_SIZE then ([], false)
          else
            let check :=
              fullCheck (MappingScale cfg) (OfValue (Addr acc)) acc
                UseCalls in
            let probe :=
              InsertIfThen Inst
                (URemULT (Addr acc) CHECK_RANGE_LOOP (Z.abs (stepSize out)))
                [check] in
            if DT_dominatesBlock F Inst ExitBB then
              ([probe;
                InsertIfThen exitInst
                  (InitValueNE (initValue out) (Addr acc)) [check]],
               true)
            else ([probe], true)
      end
  end.

Definition loopOptimizationCategorise (L : Z) (Inst : Z) : addrType :=
  match isInterestingMemoryAccess F Inst with
  | Some acc =>
      checkAddrType F (Addr acc) (btraceInLoop F (Addr acc) L) L
  | None => UNKNOWN
  end.

End Loops.

Section LoopPass.
Variable analyse : list IREdit → Analyses.
Variable cfg : Config.

(** [uninitialized Inst] stands for the locals of the call of
    [MonotonicOptimizeHandler] for [Inst]. *)
Definition loopOptimization (uninitialized : Z → SCEVOut)
    (ToInstrument : list Z) (log : list IREdit) : list Z * list IREdit :=
  let UseCalls := useCalls cfg ToInstrument in
  let '(optimized, log) :=
    foldl (λ st Inst,
             let '(optimized, log) := st in
             let F := analyse log in
             match getLoopFor F (getParent F Inst) with
             | None => st
             | Some L =>
                 let '(edits, inserted) :=
                   if decide (loopOptimizationCategorise F L Inst = IBIO)
                   then InvariantOptimizeHandler F cfg L Inst UseCalls
                   else MonotonicOptimizeHandler F cfg (uninitialized Inst)
                          L Inst UseCalls in
                 (if inserted then {[Inst]} ∪ optimized else optimized,
                  log ++ edits)
             end)
          ((∅ : gset Z), log) ToInstrument in
  (keepNonDeleted optimized ToInstrument, log).
End LoopPass.

(** ** The pass over one function *)

(** What [runOnFunction] reads of the function besides the analyses. *)
Record FunctionInfo : Type := mkFunctionInfo {
  (** One of the four tests that make [runOnFunction] return at once:
      the constructor of the module, available-externally linkage, the
      debug function, a name that starts with [__asan_]. *)
  isExcluded : bool;
  (** The basic blocks, in order. *)
  BasicBlocks : list Z;
  (** The name contains [ load]], for which [__asan_init] is called at
      the entry. *)
  hasLoadMethodName : bool;
  (** The attribute [SanitizeAddress]. *)
  hasSanitizeAddress : bool;
  (** The result of the loop that fills the set of memory operations to
      instrument, run on the function with its cloned blocks; [None]
      when [LooksLikeCodeInBug11395] makes the pass give up. *)
  memoryOperations : option (list Z)
}.

Section Pass.
Variable analyse : list IREdit → Analyses.
Variable cfg : Config.
Variable uninitialized : Z → SCEVOut.

(** [MyCloneAllBBs]: every block of the function is cloned into it. *)
Definition MyCloneAllBBs (fn : FunctionInfo) : list IREdit :=
  map CloneBasicBlock (BasicBlocks fn).

Definition maybeInsertAsanInitAtFunctionEntry (fn : FunctionInfo)
    : list IREdit :=
  if hasLoadMethodName fn then [CallAsanInit] else [].

Definition ASAN_Optimizations (ToInstrument : list Z) (log : list IREdit)
    : list Z * list IREdit :=
  let ToInstrument :=
    sequentialExecuteOptimizationPostDom (analyse log) ToInstrument in
  let ToInstrument :=
    sequentialExecuteOptimization (analyse log) ToInstrument in
  let '(ToInstrument, log) :=
    sequentialExecuteOptimizationBoost analyse (MappingScale cfg)
      ToInstrument log in
  loopOptimization analyse cfg uninitialized ToInstrument log.

(** The loop "Instrument." of [runOnFunction]. *)
Definition instrumentAll (ToInstrument : list Z) (log : list IREdit)
    : list IREdit :=
  let UseCalls := useCalls cfg ToInstrument in
  (foldl (λ st Inst,
            let '(NumInstrumented, log) := st in
            let F := analyse log in
            let edits :=
              if (ClDebugMin cfg <? 0) || (ClDebugMax cfg <? 0)
                 || ((NumInstrumented >=? ClDebugMin cfg)
                     && (NumInstrumented <=? ClDebugMax cfg))
              then
                match isInterestingMemoryAccess F Inst with
                | Some _ => editsOf (instrumentMop F cfg Inst UseCalls)
                | None => [InstrumentMemIntrinsic Inst]
                end
              else [] in
            (NumInstrumented + 1, log ++ edits))
         (0, log) ToInstrument).2.

(** [runOnFunction], up to the end of the loop "Instrument.": the
    edits made to the function.  The stack poisoner and the calls
    inserted for no-return calls and pointer comparisons follow. *)
Definition runOnFunction (fn : FunctionInfo) : list IREdit :=
  if isExcluded fn then []
  else
    let log := MyCloneAllBBs fn ++ maybeInsertAsanInitAtFunctionEntry fn in
    if negb (hasSanitizeAddress fn) then log
    else
      match memoryOperations fn with
      | None => log
      | Some ToInstrument =>
          let '(ToInstrument, log) := ASAN_Optimizations ToInstrument log in
          instrumentAll ToInstrument log
      end.
End Pass.

(** ** When an inserted check fires *)

(** The state a check runs in: the integer value of each pointer
    operand, the content of each tracer, the bytes of the shadow memory,
    and the outcome of the checks that this development does not look
    into (the lanes of a masked access, a memory intrinsic). *)
Record Runtime : Type := mkRuntime {
  valueAt : Z → Z;
  tracerAt : Z → Z;
  shadowAt : Z → Z;
  opaqueCheckFires : Z → bool
}.

Section Firing.
Variable cfg : Config.
Variable rt : Runtime.

Definition memToShadow (Shadow : Z) : Z :=
  let Shadow := Z.shiftr Shadow (MappingScale cfg) in
  if MappingOffset cfg =? 0 then Shadow
  else if MappingOrShadowOffset cfg then Z.lor Shadow (MappingOffset cfg)
  else to_uint64 (Shadow + MappingOffset cfg).

(** The load of a little-endian integer of [bits] bits from the
    shadow memory. *)
Definition loadShadow (ShadowPtr : Z) (bits : Z) : Z :=
  foldr (λ i acc, shadowAt rt (ShadowPtr + Z.of_nat i) mod 256 + 256 * acc)
        0 (seq 0 (Z.to_nat (bits / 8))).

(** The signed reading of a pattern of [bits] bits. *)
Definition signed (bits : Z) (x : Z) : Z :=
  if x <? 2 ^ (bits - 1) then x else x - 2 ^ bits.

Definition createSlowPathCmp (bits : Z) (AddrLong ShadowValue : Z)
    (TypeSize : Z) : bool :=
  let Granularity := 2 ^ MappingScale cfg in
  let LastAccessedByte := Z.land AddrLong (Granularity - 1) in
  let LastAccessedByte :=
    if TypeSize / 8 >? 1 then LastAccessedByte + (TypeSize / 8 - 1)
    else LastAccessedByte in
  signed bits (LastAccessedByte mod 2 ^ bits) >=? signed bits ShadowValue.

(** The inline check of [instrumentAddress]: does it reach the crash
    code? *)
Definition instrumentAddressFires (AddrLong : Z) (TypeSize : Z) : bool :=
  let bits := Z.max 8 (Z.shiftr TypeSize (MappingScale cfg)) in
  let ShadowValue := loadShadow (memToShadow AddrLong) bits in
  let Cmp := negb (ShadowValue =? 0) in
  let Granularity := 2 ^ MappingScale cfg in
  if ClAlwaysSlowPath cfg || (TypeSize <? 8 * Granularity)
  then Cmp && createSlowPathCmp bits AddrLong ShadowValue TypeSize
  else Cmp.

Definition addrOperandAt (a : AddrOperand) : Z :=
  match a with
  | OfValue Addr => valueAt rt Addr
  | OfTracer Inst => tracerAt rt Inst
  end.

(** An inline check; the unusual sizes check the first and the last
    byte. *)
Definition checkFires (c : Check) : bool :=
  match c with
  | instrumentAddress a TypeSize _ _ =>
      instrumentAddressFires (addrOperandAt a) TypeSize
  | instrumentUnusualSizeOrAlignment a TypeSize _ _ =>
      instrumentAddressFires (addrOperandAt a) 8
      || instrumentAddressFires
           (to_uint64 (addrOperandAt a + (TypeSize / 8 - 1))) 8
  end.

Definition condHolds (c : Cond) : bool :=
  match c with
  | ShadowNonZero Addr bits =>
      negb (loadShadow (memToShadow (valueAt rt Addr)) bits =? 0)
  | URemULT Addr RHS StepSizeLong =>
      valueAt rt Addr mod RHS <? StepSizeLong
  | TracerNonZero Inst => negb (tracerAt rt Inst =? 0)
  | InitValueNE initValue Addr =>
      negb (valueAt rt initValue =? valueAt rt Addr)
  end.

(** Does the edit report an error in this state? *)
Definition editFires (e : IREdit) : bool :=
  match e with
  | InsertCheck _ c => checkFires c
  | InsertIfThen _ Cmp body => condHolds Cmp && existsb checkFires body
  | InsertMaskedChecks InsertBefore _ _ _ _ => opaqueCheckFires rt InsertBefore
  | InstrumentMemIntrinsic Inst => opaqueCheckFires rt Inst
  | _ => false
  end.
End Firing.

(** ** Concrete functions *)

(** Analyses that answer "no" and "unknown" everywhere; the examples
    override the fields they need. *)
Definition noAnalyses : Analyses :=
  {| isInterestingMemoryAccess := λ _, None;
     getParent := λ _, 0;
     DT_dominates := λ _ _, false;
     PDT_dominates := λ _ _, false;
     isMustAlias := λ _ _, false;
     isPotentiallyReachable := λ _ _, false;
     addrExpr := λ _, OtherValue;
     cmpUsers := λ _, [];
     DT_dominatesBlock := λ _ _, false;
     getLoopFor := λ _, None;
     getExitBlock := λ _, None;
     getParentLoop := λ _, None;
     getFirstNonPHI := λ _, 0;
     entryFirstNonPHI := 0;
     getSCEV := λ _, SCEVCouldNotCompute;
     btraceInLoop := λ _ _, [];
     checkAddrType := λ _ _ _, UNKNOWN;
     GetUnderlyingObject := λ _, OtherObject;
     ObjSizeVis_compute := λ _, None |}.

Definition noLocals : Z → SCEVOut := λ _, mkSCEVOut 0 0 0.

(** *** A narrow access that dominates a wider one

    The entry block 10 loads one byte from the pointer 100
    (instruction 1) and branches to block 11 or to the exit block 12;
    block 11 loads eight bytes from the same pointer (instruction 2).
    Blocks 13, 14 and 15 are the clones of the three blocks, with the
    clones 3 and 4 of the two loads; no block branches to a clone.  A
    use in an unreachable block is dominated by every instruction, and
    an instruction of an unreachable block dominates no reachable
    one. *)
Definition narrowFirst : Analyses :=
  {| isInterestingMemoryAccess := λ I,
       if bool_decide (I = 1 ∨ I = 3)
       then Some (mkMemAccess 100 false 8 1 None)
       else if bool_decide (I = 2 ∨ I = 4)
       then Some (mkMemAccess 100 false 64 8 None)
       else None;
     getParent := λ I,
       if I =? 1 then 10 else if I =? 2 then 11
       else if I =? 3 then 13 else 14;
     DT_dominates := λ Def User,
       if bool_decide (User = 3 ∨ User = 4) then true
       else (Def =? 1) && (User =? 2);
     PDT_dominates := λ A B,
       (A =? B) || ((A =? 12) && negb (B =? 15));
     isMustAlias := λ V1 V2, V1 =? V2;
     isPotentiallyReachable := λ A B, (A =? 1) && (B =? 2);
     addrExpr := addrExpr noAnalyses;
     cmpUsers := cmpUsers noAnalyses;
     DT_dominatesBlock := λ _ _, false;
     getLoopFor := getLoopFor noAnalyses;
     getExitBlock := getExitBlock noAnalyses;
     getParentLoop := getParentLoop noAnalyses;
     getFirstNonPHI := getFirstNonPHI noAnalyses;
     entryFirstNonPHI := 1;
     getSCEV := getSCEV noAnalyses;
     btraceInLoop := btraceInLoop noAnalyses;
     checkAddrType := checkAddrType noAnalyses;
     GetUnderlyingObject := GetUnderlyingObject noAnalyses;
     ObjSizeVis_compute := ObjSizeVis_compute noAnalyses |}.

Definition narrowFirstInfo : FunctionInfo :=
  {| isExcluded := false;
     BasicBlocks := [10; 11; 12];
     hasLoadMethodName := false;
     hasSanitizeAddress := true;
     memoryOperations := Some [1; 2; 3; 4] |}.

(** The pointer 100 holds the address 4096; of the eight bytes its
    shadow byte stands for, the first four are addressable. *)
Definition fourAddressableBytes : Runtime :=
  {| valueAt := λ _, 4096;
     tracerAt := λ _, 0;
     shadowAt := λ p, if p =? 2147451392 then 4 else 0;
     opaqueCheckFires := λ _, false |}.

(** *** Straight-line code

    Instructions numbered in program order inside one block: each one
    dominates the later ones.  Every instruction loads four bytes from
    the pointer 100. *)
Definition straightLine : Analyses :=
  {| isInterestingMemoryAccess := λ _, Some (mkMemAccess 100 false 32 4 None);
     getParent := λ _, 10;
     DT_dominates := Z.ltb;
     PDT_dominates := λ A B, A =? B;
     isMustAlias := λ V1 V2, V1 =? V2;
     isPotentiallyReachable := Z.ltb;
     addrExpr := addrExpr noAnalyses;
     cmpUsers := cmpUsers noAnalyses;
     DT_dominatesBlock := λ _ _, false;
     getLoopFor := getLoopFor noAnalyses;
     getExitBlock := getExitBlock noAnalyses;
     getParentLoop := getParentLoop noAnalyses;
     getFirstNonPHI := getFirstNonPHI noAnalyses;
     entryFirstNonPHI := 1;
     getSCEV := getSCEV noAnalyses;
     btraceInLoop := btraceInLoop noAnalyses;
     checkAddrType := checkAddrType noAnalyses;
     GetUnderlyingObject := GetUnderlyingObject noAnalyses;
     ObjSizeVis_compute := ObjSizeVis_compute noAnalyses |}.

(** ** Predicates used in the statements *)

(** The slots of a map of instruction groups hold instructions of [l]
    only, and no instruction sits in two slots. *)
Definition groupsWithin (M : gmap Z (gset Z)) (l : list Z) : Prop :=
  ∀ k s x, M !! k = Some s → x ∈ s → x ∈ l.

Definition groupsDisjoint (M : gmap Z (gset Z)) : Prop :=
  ∀ k1 k2 s1 s2 x,
    M !! k1 = Some s1 → M !! k2 = Some s2 → x ∈ s1 → x ∈ s2 → k1 = k2.

(** Every deleted instruction is covered by an instruction of its own
    slot that is not deleted. *)
Definition witnessed (covers : Z → Z → bool) (G : gmap Z (gset Z))
    (deleted : gset Z) : Prop :=
  ∀ B, B ∈ deleted →
    ∃ A k s, (A ∉ deleted) ∧ covers A B = true
             ∧ G !! k = Some s ∧ A ∈ s ∧ B ∈ s.

(** The access sizes that take one check. *)
Definition usualSize (TypeSize : Z) : Prop :=
  TypeSize = 8 ∨ TypeSize = 16 ∨ TypeSize = 32 ∨ TypeSize = 64
  ∨ TypeSize = 128.

(** The inline guard of the access [A] fires wherever that of the access
    [B] does, when both validate the same address [a]: this holds for
    ordinary sizes with the size of [A] at least that of [B], under the
    default shadow scale and without the forced slow path. *)
Definition widerGuardFires (F : Analyses) (cfg : Config) (B A : Z) : Prop :=
  MappingScale cfg = 3 → ClAlwaysSlowPath cfg = false →
  usualSize (TypeSize (accessOf F B)) →
  usualSize (TypeSize (accessOf F A)) →
  TypeSize (accessOf F B) ≤ TypeSize (accessOf F A) →
  ∀ rt a,
    instrumentAddressFires cfg rt a (TypeSize (accessOf F B)) = true →
    instrumentAddressFires cfg rt a (TypeSize (accessOf F A)) = true.

(** [A] survives in [kept], covers [B], and sits in the slot of [B]. *)
Definition coveredBy (F : Analyses) (covers : Z → Z → bool)
    (ToInstrument kept : list Z) (B A : Z) : Prop :=
  A ∈ kept ∧ covers A B = true
  ∧ ∃ k s, AddrToInstructions F ToInstrument !! k = Some s ∧ A ∈ s ∧ B ∈ s.

(** The soundness of removal, as the specification words it: every site
    of the pending list that the classifier sub-passes remove is covered
    by a surviving guard, which fires in every state in which the
    original guard of the site fires.  The guards are the edits made up
    to the end of the emission loop; the original guard of a site is its
    ordinary inline check. *)
Definition removalSound (analyse : list IREdit → Analyses) (cfg : Config)
    (uninitialized : Z → SCEVOut) (ToInstrument : list Z)
    (log0 : list IREdit) : Prop :=
  let '(final, log1) :=
    ASAN_Optimizations analyse cfg uninitialized ToInstrument log0 in
  let log := instrumentAll analyse cfg final log1 in
  ∀ B, B ∈ ToInstrument → B ∉ final →
    ∃ g, g ∈ log
         ∧ ∀ rt, editFires cfg rt (ordinaryCheck (analyse log0) cfg B B false)
                   = true
                 → editFires cfg rt g = true.

(** *** Two loads whose addresses are in reverse program order

    One block 10 holds two loads of four bytes from the pointer 100:
    instruction 2 first, then instruction 1.  Block 13 is the clone of
    the block, with the clones 4 and 3 of the loads, in that order. *)
Definition reversedAddresses : Analyses :=
  {| isInterestingMemoryAccess := λ _, Some (mkMemAccess 100 false 32 4 None);
     getParent := λ I, if bool_decide (I = 1 ∨ I = 2) then 10 else 13;
     DT_dominates := λ Def User,
       if bool_decide (User = 3 ∨ User = 4) then true
       else (Def =? 2) && (User =? 1);
     PDT_dominates := λ A B, A =? B;
     isMustAlias := λ V1 V2, V1 =? V2;
     isPotentiallyReachable := λ A B, (A =? 2) && (B =? 1);
     addrExpr := addrExpr noAnalyses;
     cmpUsers := cmpUsers noAnalyses;
     DT_dominatesBlock := λ _ _, false;
     getLoopFor := getLoopFor noAnalyses;
     getExitBlock := getExitBlock noAnalyses;
     getParentLoop := getParentLoop noAnalyses;
     getFirstNonPHI := getFirstNonPHI noAnalyses;
     entryFirstNonPHI := 2;
     getSCEV := getSCEV noAnalyses;
     btraceInLoop := btraceInLoop noAnalyses;
     checkAddrType := checkAddrType noAnalyses;
     GetUnderlyingObject := GetUnderlyingObject noAnalyses;
     ObjSizeVis_compute := ObjSizeVis_compute noAnalyses |}.

(** The order of the sub-passes as the specification gives it: the
    safe accesses are dropped first, then the dominance pass runs before
    the post-dominance pass, then the neighbor pass, then the loop
    pass. *)
Definition safeAccessElimination (F : Analyses) (cfg : Config)
    (ToInstrument : list Z) : list Z :=
  List.filter
    (λ I, match isInterestingMemoryAccess F I with
          | None => true
          | Some _ =>
              match instrumentMop F cfg I false with
              | Instrumented _ => true
              | _ => false
              end
          end)
    ToInstrument.

Definition orderOfSpecification (analyse : list IREdit → Analyses)
    (cfg : Config) (uninitialized : Z → SCEVOut) (ToInstrument : list Z)
    (log : list IREdit) : list Z * list IREdit :=
  let ToInstrument := safeAccessElimination (analyse log) cfg ToInstrument in
  let ToInstrument :=
    sequentialExecuteOptimization (analyse log) ToInstrument in
  let ToInstrument :=
    sequentialExecuteOptimizationPostDom (analyse log) ToInstrument in
  let '(ToInstrument, log) :=
    sequentialExecuteOptimizationBoost analyse (MappingScale cfg)
      ToInstrument log in
  loopOptimization analyse cfg uninitialized ToInstrument log.

(** *** An access inside a stack array

    Instruction 1 loads four bytes at offset 8 of an alloca of 16
    bytes. *)
Definition stackArray : Analyses :=
  {| isInterestingMemoryAccess := λ _, Some (mkMemAccess 100 false 32 4 None);
     getParent := getParent noAnalyses;
     DT_dominates := DT_dominates noAnalyses;
     PDT_dominates := PDT_dominates noAnalyses;
     isMustAlias := isMustAlias noAnalyses;
     isPotentiallyReachable := isPotentiallyReachable noAnalyses;
     addrExpr := addrExpr noAnalyses;
     cmpUsers := cmpUsers noAnalyses;
     DT_dominatesBlock := DT_dominatesBlock noAnalyses;
     getLoopFor := getLoopFor noAnalyses;
     getExitBlock := getExitBlock noAnalyses;
     getParentLoop := getParentLoop noAnalyses;
     getFirstNonPHI := getFirstNonPHI noAnalyses;
     entryFirstNonPHI := 1;
     getSCEV := getSCEV noAnalyses;
     btraceInLoop := btraceInLoop noAnalyses;
     checkAddrType := checkAddrType noAnalyses;
     GetUnderlyingObject := λ _, AllocaInst;
     ObjSizeVis_compute := λ _, Some (16, 8) |}.

(** *** An index compared against the length of the array

    Instruction 1 loads from the address 100, a [getelementptr] into an
    array of ten elements with the indices 0 and the value 200; the
    comparison 7 of the value 200 against the constant 10 dominates the
    load. *)
Definition boundedIndex : Analyses :=
  {| isInterestingMemoryAccess := λ _, Some (mkMemAccess 100 false 32 4 None);
     getParent := getParent noAnalyses;
     DT_dominates := λ Def User, (Def =? 7) && (User =? 1);
     PDT_dominates := PDT_dominates noAnalyses;
     isMustAlias := isMustAlias noAnalyses;
     isPotentiallyReachable := isPotentiallyReachable noAnalyses;
     addrExpr := λ _,
       GetElementPtrInst
         (mkGEP 50 (Some 10) [mkIndex 300 (Some 0); mkIndex 200 None]);
     cmpUsers := λ V,
       if V =? 200
       then [(7, (mkCmpOperand 200 NotConstantData,
                  mkCmpOperand 301 (ConstantInt 10)))]
       else [];
     DT_dominatesBlock := DT_dominatesBlock noAnalyses;
     getLoopFor := getLoopFor noAnalyses;
     getExitBlock := getExitBlock noAnalyses;
     getParentLoop := getParentLoop noAnalyses;
     getFirstNonPHI := getFirstNonPHI noAnalyses;
     entryFirstNonPHI := 1;
     getSCEV := getSCEV noAnalyses;
     btraceInLoop := btraceInLoop noAnalyses;
     checkAddrType := checkAddrType noAnalyses;
     GetUnderlyingObject := λ _, AllocaInst;
     ObjSizeVis_compute := λ _, None |}.

(** *** A single index compared against a constant

    Instruction 1 loads from the address 100, a [getelementptr] with the
    one index 200 on a pointer to an array of ten elements; the
    comparison 7 of the value 200 against the constant 10 dominates the
    load. *)
Definition singleIndex : Analyses :=
  {| isInterestingMemoryAccess := isInterestingMemoryAccess boundedIndex;
     getParent := getParent boundedIndex;
     DT_dominates := DT_dominates boundedIndex;
     PDT_dominates := PDT_dominates boundedIndex;
     isMustAlias := isMustAlias boundedIndex;
     isPotentiallyReachable := isPotentiallyReachable boundedIndex;
     addrExpr := λ _,
       GetElementPtrInst (mkGEP 50 (Some 10) [mkIndex 200 None]);
     cmpUsers := cmpUsers boundedIndex;
     DT_dominatesBlock := DT_dominatesBlock boundedIndex;
     getLoopFor := getLoopFor boundedIndex;
     getExitBlock := getExitBlock boundedIndex;
     getParentLoop := getParentLoop boundedIndex;
     getFirstNonPHI := getFirstNonPHI boundedIndex;
     entryFirstNonPHI := entryFirstNonPHI boundedIndex;
     getSCEV := getSCEV boundedIndex;
     btraceInLoop := btraceInLoop boundedIndex;
     checkAddrType := checkAddrType boundedIndex;
     GetUnderlyingObject := GetUnderlyingObject boundedIndex;
     ObjSizeVis_compute := ObjSizeVis_compute boundedIndex |}.

(** *** Constant indices

    Instruction 1 loads from the address 100, a [getelementptr] into an
    array of ten elements with the constant indices 0 and 3; the
    comparison 7 of the constant 3 against the constant 10 dominates the
    load. *)
Definition constantIndices : Analyses :=
  {| isInterestingMemoryAccess := isInterestingMemoryAccess boundedIndex;
     getParent := getParent boundedIndex;
     DT_dominates := DT_dominates boundedIndex;
     PDT_dominates := PDT_dominates boundedIndex;
     isMustAlias := isMustAlias boundedIndex;
     isPotentiallyReachable := isPotentiallyReachable boundedIndex;
     addrExpr := λ _,
       GetElementPtrInst
         (mkGEP 50 (Some 10) [mkIndex 300 (Some 0); mkIndex 303 (Some 3)]);
     cmpUsers := λ V,
       if V =? 303
       then [(7, (mkCmpOperand 303 (ConstantInt 3),
                  mkCmpOperand 301 (ConstantInt 10)))]
       else [];
     DT_dominatesBlock := DT_dominatesBlock boundedIndex;
     getLoopFor := getLoopFor boundedIndex;
     getExitBlock := getExitBlock boundedIndex;
     getParentLoop := getParentLoop boundedIndex;
     getFirstNonPHI := getFirstNonPHI boundedIndex;
     entryFirstNonPHI := entryFirstNonPHI boundedIndex;
     getSCEV := getSCEV boundedIndex;
     btraceInLoop := btraceInLoop boundedIndex;
     checkAddrType := checkAddrType boundedIndex;
     GetUnderlyingObject := GetUnderlyingObject boundedIndex;
     ObjSizeVis_compute := ObjSizeVis_compute boundedIndex |}.

(** The secondary test, as the specification words it: an access is
    accepted only if its address has several indices and one of them,
    which is no constant, is an operand of a comparison that dominates
    the access and whose other operand is a constant that does not
    exceed the element count of the array. *)
Definition boostAsSpecified (F : Analyses) (IndexInst Addr : Z) : Prop :=
  isSafeAccessBoost F IndexInst Addr = Some true →
  ∃ Gep_Inst Index i_cmp MaxOffset ObjSize,
    addrExpr F Addr = GetElementPtrInst Gep_Inst
    ∧ (2 ≤ length (Indices Gep_Inst))%nat
    ∧ Index ∈ Indices Gep_Inst
    ∧ IndexConstant Index = None
    ∧ i_cmp ∈ cmpUsers F (IndexValue Index)
    ∧ DT_dominates F i_cmp.1 IndexInst = true
    ∧ ((OperandValue i_cmp.2.1 = IndexValue Index
        ∧ OperandConstant i_cmp.2.2 = ConstantInt MaxOffset)
       ∨ (OperandValue i_cmp.2.2 = IndexValue Index
          ∧ OperandConstant i_cmp.2.1 = ConstantInt MaxOffset))
    ∧ ArrayNumElements Gep_Inst = Some ObjSize
    ∧ to_uint64 MaxOffset ≤ to_uint64 ObjSize.

(** The conservative policy, as the specification words it: a site is
    removed by the dominance pass only if some surviving site dominates
    it with no call or lifetime end in between that the conservative
    check objects to. *)
Definition removalRespectsCalls (F : Analyses) (blockOf : Z → list Z)
    (callIntrinsicSet : gset Z) (ToInstrument : list Z) : Prop :=
  ∀ B, B ∈ ToInstrument → B ∉ sequentialExecuteOptimization F ToInstrument →
    ∃ A, A ∈ sequentialExecuteOptimization F ToInstrument
         ∧ DT_dominates F A B = true
         ∧ ConservativeCallIntrinsicCheck F blockOf A B callIntrinsicSet
           = true.

(** The block 10 of [straightLine] with a load, a call and a load. *)
Definition loadCallLoad (BB : Z) : list Z :=
  if BB =? 10 then [1; 2; 3] else [].

(** The coverage rank, as the specification words it: the number of
    witness pairs of the other candidates that cite the candidate. *)
Definition citations (potentialRemoveInsts : PairMap) (candidate : Z) : Z :=
  foldl (λ count (other : Z * gset (Z * Z)),
           if decide (other.1 = candidate) then count
           else
             count
             + Z.of_nat
                 (length
                    (filter (λ instPair : Z * Z,
                               candidate = instPair.1 ∨ candidate = instPair.2)
                            (pset_iter other.2))))
        0 (map_iter potentialRemoveInsts).

(** Four accesses of [straightLine] at the offsets 0, 1, 2 and 3 of one
    base: the instructions 1, 2, 3 and 4. *)
Definition fourNeighbors : gset (Z * Z) :=
  {[ (0, 1); (1, 2); (2, 3); (3, 4) ]}.

(** The removal driven by the coverage rank of the specification. *)
Definition removeByCitations (potentialRemoveInsts : PairMap)
    (deleted : gset Z) : PairMap * gset Z :=
  foldl removeCandidate (potentialRemoveInsts, deleted)
        (merge_sort pair_le
           (map (λ entry : Z * gset (Z * Z),
                   (citations potentialRemoveInsts entry.1, entry.1))
                (map_iter potentialRemoveInsts))).

(** *** Neighbors around a side branch

    Block 10 holds the accesses 4 and 1 in this order and branches to
    block 11 or to block 12; block 11 holds the access 3 and falls into
    block 12, which holds the accesses 2 and 5.  The five accesses read
    one byte each from elements of the base 50: the elements 0 (access
    4), 5 (access 1), 10 (access 3), 16 (access 2) and 20 (access 5);
    the address of the access [I] is the value [100 + I]. *)
Definition sideBranchElement (I : Z) : Z :=
  if I =? 4 then 0 else if I =? 1 then 5 else if I =? 3 then 10
  else if I =? 2 then 16 else 20.

Definition sideBranch : Analyses :=
  {| isInterestingMemoryAccess := λ I,
       Some (mkMemAccess (100 + I) false 8 1 None);
     getParent := λ I,
       if bool_decide (I = 4 ∨ I = 1) then 10
       else if I =? 3 then 11 else 12;
     DT_dominates := λ Def User,
       (bool_decide (Def = 4 ∨ Def = 1)
        && bool_decide (User = 3 ∨ User = 2 ∨ User = 5))
       || ((Def =? 4) && (User =? 1))
       || ((Def =? 2) && (User =? 5));
     PDT_dominates := λ A B, (A =? B) || (A =? 12);
     isMustAlias := λ V1 V2, V1 =? V2;
     isPotentiallyReachable := isPotentiallyReachable noAnalyses;
     addrExpr := λ V,
       GetElementPtrInst
         (mkGEP 50 None
            [mkIndex (300 + V) (Some (sideBranchElement (V - 100)))]);
     cmpUsers := cmpUsers noAnalyses;
     DT_dominatesBlock := DT_dominatesBlock noAnalyses;
     getLoopFor := getLoopFor noAnalyses;
     getExitBlock := getExitBlock noAnalyses;
     getParentLoop := getParentLoop noAnalyses;
     getFirstNonPHI := getFirstNonPHI noAnalyses;
     entryFirstNonPHI := 4;
     getSCEV := getSCEV noAnalyses;
     btraceInLoop := btraceInLoop noAnalyses;
     checkAddrType := checkAddrType noAnalyses;
     GetUnderlyingObject := GetUnderlyingObject noAnalyses;
     ObjSizeVis_compute := ObjSizeVis_compute noAnalyses |}.

Definition sideBranchOffsets : gset (Z * Z) :=
  {[ (0, 4); (5, 1); (10, 3); (16, 2); (20, 5) ]}.

(** *** Two neighbors at the offsets -8 and 0

    Block 10 holds the loads 1 and 2, in this order.  Load 1 reads one
    byte from the address 101, the element -8 of the base 50; load 2
    reads one byte from the address 102, the element 0 of the same
    base.  Block 13 is the clone of the block, with the clones 3 and 4
    of the loads, which read from the same addresses. *)
Definition negativeOffset : Analyses :=
  {| isInterestingMemoryAccess := λ I,
       if bool_decide (I = 1 ∨ I = 3)
       then Some (mkMemAccess 101 false 8 1 None)
       else Some (mkMemAccess 102 false 8 1 None);
     getParent := λ I, if bool_decide (I = 1 ∨ I = 2) then 10 else 13;
     DT_dominates := λ Def User,
       if bool_decide (User = 3 ∨ User = 4) then true
       else (Def =? 1) && (User =? 2);
     PDT_dominates := λ A B, A =? B;
     isMustAlias := λ V1 V2, V1 =? V2;
     isPotentiallyReachable := λ A B, (A =? 1) && (B =? 2);
     addrExpr := λ V,
       if V =? 101
       then GetElementPtrInst (mkGEP 50 None [mkIndex 301 (Some (-8))])
       else if V =? 102
       then GetElementPtrInst (mkGEP 50 None [mkIndex 302 (Some 0)])
       else OtherValue;
     cmpUsers := cmpUsers noAnalyses;
     DT_dominatesBlock := DT_dominatesBlock noAnalyses;
     getLoopFor := getLoopFor noAnalyses;
     getExitBlock := getExitBlock noAnalyses;
     getParentLoop := getParentLoop noAnalyses;
     getFirstNonPHI := getFirstNonPHI noAnalyses;
     entryFirstNonPHI := 1;
     getSCEV := getSCEV noAnalyses;
     btraceInLoop := btraceInLoop noAnalyses;
     checkAddrType := checkAddrType noAnalyses;
     GetUnderlyingObject := GetUnderlyingObject noAnalyses;
     ObjSizeVis_compute := ObjSizeVis_compute noAnalyses |}.

(** The span of a cluster, the ranked node included, and the width the
    specification gives its guard: the smallest power of two among 8,
    16, 32 and 64 that is at least the span. *)
Definition clusterSpan (optInst : RankedEntry) : Z :=
  let offsets := map fst (optInst.2.1 :: optInst.2.2) in
  foldr Z.max optInst.2.1.1 offsets - foldr Z.min optInst.2.1.1 offsets.

Definition widthOfSpecification (span : Z) : Z :=
  if span <=? 8 then 8 else if span <=? 16 then 16
  else if span <=? 32 then 32 else 64.

Definition guardWidth (e : IREdit) : option Z :=
  match e with
  | InsertIfThen _ (ShadowNonZero _ bits) _ => Some bits
  | _ => None
  end.

(** The entries that [mrgNeighborChks] ranks for one set of offsets. *)
Definition rankedClusters (F : Analyses) (baseAddrOffsetSet : gset (Z * Z))
    : list RankedEntry :=
  prioritiseRemovableInst (preprocessInstructionsMap F baseAddrOffsetSet).

(** The distance [maxDistance] that [optimizeInstrumentation] computes
    for an entry. *)
Definition maxDistance (optInst : RankedEntry) : Z :=
  to_int (getMaxDistance optInst - (getMinDistance optInst).1).

(** *** A loop that walks an array downwards

    The loop 1 has the body block 11 and the exit block 20, whose first
    instruction is 21.  Its load 1 reads four bytes from the address
    100, which starts at the loop-invariant base 50 and moves by -9 in
    each iteration; the load dominates the exit block.  The load 2 is
    the clone of the load 1, in the clone 31 of the body, which belongs
    to no loop. *)
Definition decreasingLoop : Analyses :=
  {| isInterestingMemoryAccess := λ _, Some (mkMemAccess 100 false 32 4 None);
     getParent := λ I, if I =? 1 then 11 else 31;
     DT_dominates := λ Def User, User =? 2;
     PDT_dominates := λ A B, A =? B;
     isMustAlias := λ V1 V2, V1 =? V2;
     isPotentiallyReachable := isPotentiallyReachable noAnalyses;
     addrExpr := addrExpr noAnalyses;
     cmpUsers := cmpUsers noAnalyses;
     DT_dominatesBlock := λ I BB, (I =? 1) && (BB =? 20);
     getLoopFor := λ BB, if BB =? 11 then Some 1 else None;
     getExitBlock := λ L, if L =? 1 then Some 20 else None;
     getParentLoop := λ _, None;
     getFirstNonPHI := λ BB, BB + 1;
     entryFirstNonPHI := 5;
     getSCEV := λ _,
       SCEVAddRecExpr (SCEVUnknown 50) (SCEVConstant 60 (-9));
     btraceInLoop := λ _ _, [];
     checkAddrType := λ V _ _, if V =? 50 then IBIO else UNKNOWN;
     GetUnderlyingObject := GetUnderlyingObject noAnalyses;
     ObjSizeVis_compute := ObjSizeVis_compute noAnalyses |}.

(** The same loop with an address that is invariant in it, read by a
    load that does not dominate the exit block. *)
Definition invariantLoop : Analyses :=
  {| isInterestingMemoryAccess := isInterestingMemoryAccess decreasingLoop;
     getParent := getParent decreasingLoop;
     DT_dominates := DT_dominates decreasingLoop;
     PDT_dominates := PDT_dominates decreasingLoop;
     isMustAlias := isMustAlias decreasingLoop;
     isPotentiallyReachable := isPotentiallyReachable decreasingLoop;
     addrExpr := addrExpr decreasingLoop;
     cmpUsers := cmpUsers decreasingLoop;
     DT_dominatesBlock := λ _ _, false;
     getLoopFor := getLoopFor decreasingLoop;
     getExitBlock := getExitBlock decreasingLoop;
     getParentLoop := getParentLoop decreasingLoop;
     getFirstNonPHI := getFirstNonPHI decreasingLoop;
     entryFirstNonPHI := entryFirstNonPHI decreasingLoop;
     getSCEV := λ _, SCEVUnknown 100;
     btraceInLoop := btraceInLoop decreasingLoop;
     checkAddrType := λ _ _ _, IBIO;
     GetUnderlyingObject := GetUnderlyingObject decreasingLoop;
     ObjSizeVis_compute := ObjSizeVis_compute decreasingLoop |}.

(** The function of [decreasingLoop]: the entry block 4, the body 11 and
    the exit 20, with the load 1 and its clone 2. *)
Definition decreasingLoopInfo : FunctionInfo :=
  {| isExcluded := false;
     BasicBlocks := [4; 11; 20];
     hasLoadMethodName := false;
     hasSanitizeAddress := true;
     memoryOperations := Some [1; 2] |}.

(** Classification that only classifies and annotates, as the
    specification words it: no basic block is duplicated, and the
    sub-passes leave the function as they found it. *)
Definition classificationOnlyAnnotates (analyse : list IREdit → Analyses)
    (cfg : Config) (uninitialized : Z → SCEVOut) (fn : FunctionInfo) : Prop :=
  MyCloneAllBBs fn = []
  ∧ ∀ ToInstrument log,
      memoryOperations fn = Some ToInstrument →
      (ASAN_Optimizations analyse cfg uninitialized ToInstrument log).2 = log.

(** The edits that insert a check, a guarded check or the code of a
    tracer. *)
Definition insertsCheck (e : IREdit) : Prop :=
  match e with
  | InsertCheck _ _ | InsertMaskedChecks _ _ _ _ _ | InsertIfThen _ _ _
  | CreateTracer _ _ | StoreTracer _ _ _ => True
  | _ => False
  end.

(** [log'] is [log] followed by edits that insert checks. *)
Definition extendedByChecks (log log' : list IREdit) : Prop :=
  ∃ edits, log' = log ++ edits ∧ Forall insertsCheck edits.
(** ** The shadow mapping of a target *)

Definition kDefaultShadowOffset32 : Z := 2 ^ 29.
Definition kDefaultShadowOffset64 : Z := 2 ^ 44.
Definition kDynamicShadowSentinel : Z := 2 ^ 64 - 1.
Definition kIOSShadowOffset32 : Z := 2 ^ 30.
Definition kIOSSimShadowOffset32 : Z := 2 ^ 30.
Definition kIOSSimShadowOffset64 : Z := kDefaultShadowOffset64.
Definition kLinuxKasan_ShadowOffset64 : Z := 0xdffffc0000000000.
Definition kPPC64_ShadowOffset64 : Z := 2 ^ 41.
Definition kSystemZ_ShadowOffset64 : Z := 2 ^ 52.
Definition kMIPS32_ShadowOffset32 : Z := 0x0aaa0000.
Definition kMIPS64_ShadowOffset64 : Z := 2 ^ 37.
Definition kAArch64_ShadowOffset64 : Z := 2 ^ 36.
Definition kFreeBSD_ShadowOffset32 : Z := 2 ^ 30.
Definition kFreeBSD_ShadowOffset64 : Z := 2 ^ 46.
Definition kWindowsShadowOffset32 : Z := 3 * 2 ^ 28.
Definition kWindowsShadowOffset64 : Z := kDynamicShadowSentinel.

(** The architectures that [getShadowMapping] tells apart. *)
Inductive ArchType : Type :=
| x86 | x86_64 | ppc64 | ppc64le | systemz | mips | mipsel | mips64
| mips64el | aarch64 | OtherArch.

Global Instance ArchType_eq_dec : EqDecision ArchType.
Proof. solve_decision. Defined.

(** What [getShadowMapping] reads of the target triple. *)
Record Triple : Type := mkTriple {
  getArch : ArchType;
  isAndroid : bool;
  isiOS : bool;
  isWatchOS : bool;
  isOSFreeBSD : bool;
  isOSLinux : bool;
  isOSWindows : bool
}.

(** "shadow = (mem >> Scale) ADD-or-OR Offset". *)
Record ShadowMapping : Type := mkShadowMapping {
  Scale : Z;
  Offset : Z;
  OrShadowOffset : bool
}.

(** The options read by [getShadowMapping]; the scale and the offset
    are given only when the option occurs on the command line. *)
Record MappingOptions : Type := mkMappingOptions {
  ClForceDynamicShadow : bool;
  ClMappingScale : option Z;
  ClMappingOffset : option Z
}.

Definition getShadowMapping (opts : MappingOptions) (TargetTriple : Triple)
    (LongSize : Z) (IsKasan : bool) : ShadowMapping :=
  let IsAndroid := isAndroid TargetTriple in
  let IsIOS := isiOS TargetTriple || isWatchOS TargetTriple in
  let IsFreeBSD := isOSFreeBSD TargetTriple in
  let IsLinux := isOSLinux TargetTriple in
  let IsPPC64 := bool_decide (getArch TargetTriple = ppc64)
                 || bool_decide (getArch TargetTriple = ppc64le) in
  let IsSystemZ := bool_decide (getArch TargetTriple = systemz) in
  let IsX86 := bool_decide (getArch TargetTriple = x86) in
  let IsX86_64 := bool_decide (getArch TargetTriple = x86_64) in
  let IsMIPS32 := bool_decide (getArch TargetTriple = mips)
                  || bool_decide (getArch TargetTriple = mipsel) in
  let IsMIPS64 := bool_decide (getArch TargetTriple = mips64)
                  || bool_decide (getArch TargetTriple = mips64el) in
  let IsAArch64 := bool_decide (getArch TargetTriple = aarch64) in
  let IsWindows := isOSWindows TargetTriple in
  let Offset :=
    if LongSize =? 32 then
      if IsAndroid then 0
      else if IsMIPS32 then kMIPS32_ShadowOffset32
      else if IsFreeBSD then kFreeBSD_ShadowOffset32
      else if IsIOS then
        (if IsX86 then kIOSSimShadowOffset32 else kIOSShadowOffset32)
      else if IsWindows then kWindowsShadowOffset32
      else kDefaultShadowOffset32
    else
      if IsPPC64 then kPPC64_ShadowOffset64
      else if IsSystemZ then kSystemZ_ShadowOffset64
      else if IsFreeBSD then kFreeBSD_ShadowOffset64
      else if IsLinux && IsX86_64 then
        (if IsKasan then kLinuxKasan_ShadowOffset64
         else kSmallX86_64ShadowOffset)
      else if IsWindows && IsX86_64 then kWindowsShadowOffset64
      else if IsMIPS64 then kMIPS64_ShadowOffset64
      else if IsIOS then
        (if IsX86_64 then kIOSSimShadowOffset64 else kDynamicShadowSentinel)
      else if IsAArch64 then kAArch64_ShadowOffset64
      else kDefaultShadowOffset64 in
  let Offset :=
    if ClForceDynamicShadow opts then kDynamicShadowSentinel else Offset in
  let Scale := default kDefaultShadowScale (ClMappingScale opts) in
  let Offset := default Offset (ClMappingOffset opts) in
  {| Scale := Scale;
     Offset := Offset;
     OrShadowOffset :=
       negb IsAArch64 && negb IsPPC64 && negb IsSystemZ
       && (Z.land Offset (to_uint64 (Offset - 1)) =? 0)
       && negb (Offset =? kDynamicShadowSentinel) |}.

(** The pass keeps the mapping in its field [Mapping], which
    [memToShadow] reads. *)
Definition withMapping (cfg : Config) (Mapping : ShadowMapping) : Config :=
  {| CompileKernel := CompileKernel cfg;
     ClInstrumentationWithCallsThreshold :=
       ClInstrumentationWithCallsThreshold cfg;
     ClOpt := ClOpt cfg;
     ClOptGlobals := ClOptGlobals cfg;
     ClOptStack := ClOptStack cfg;
     ClInitializers := ClInitializers cfg;
     ClDebugMin := ClDebugMin cfg;
     ClDebugMax := ClDebugMax cfg;
     ClAlwaysSlowPath := ClAlwaysSlowPath cfg;
     MappingScale := Scale Mapping;
     MappingOffset := Offset Mapping;
     MappingOrShadowOffset := OrShadowOffset Mapping |}.

(** "Redzone used for stack and globals is at least 32 bytes"; the
    shift is one of [unsigned]. *)
Definition RedzoneSizeForScale (MappingScale : Z) : Z :=
  Z.max 32 (to_uint32 (Z.shiftl 1 MappingScale)).

(** ** The index of an access size *)

Definition kNumberOfAccessSizes : Z := 5.

(** [countTrailingZeros] of a 32-bit value: the width for zero. *)
Fixpoint countTrailingZerosFrom (width : nat) (Val : Z) : Z :=
  match width with
  | O => 0
  | S width =>
      if Z.odd Val then 0 else 1 + countTrailingZerosFrom width (Val / 2)
  end.

Definition countTrailingZeros (Val : Z) : Z :=
  if Val =? 0 then 32 else countTrailingZerosFrom 32 Val.

(** [TypeSizeToSizeIndex]; its assertion is [Res < kNumberOfAccessSizes]. *)
Definition TypeSizeToSizeIndex (TypeSize : Z) : Z :=
  countTrailingZeros (TypeSize / 8).

(** The size in the name of the callback with index [AccessSizeIndex]:
    [itostr(1ULL << AccessSizeIndex)] in [initializeCallbacks]. *)
Definition callbackAccessSize (AccessSizeIndex : Z) : Z :=
  to_uint64 (Z.shiftl 1 AccessSizeIndex).

(** ** The redzone of a global *)

Definition kMaxGlobalRedzone : Z := 2 ^ 18.

(** The sizes computed in the loop of [InstrumentGlobals] for a global
    of [SizeInBytes] bytes: [RZ] and [RightRedzoneSize], in 64-bit
    unsigned arithmetic. *)
Definition globalRedzone (MinRZ SizeInBytes : Z) : Z * Z :=
  let RZ :=
    Z.max MinRZ
      (Z.min kMaxGlobalRedzone
         (to_uint64 (SizeInBytes / MinRZ / 4 * MinRZ))) in
  let RightRedzoneSize :=
    if negb (SizeInBytes mod MinRZ =? 0)
    then to_uint64 (RZ + to_uint64 (MinRZ - SizeInBytes mod MinRZ))
    else RZ in
  (RZ, RightRedzoneSize).

(** ** The fake-stack size class *)

Definition kMinStackMallocSize : Z := 2 ^ 6.
Definition kMaxStackMallocSize : Z := 2 ^ 16.
Definition kMaxAsanStackMallocSizeClass : Z := 10.

(** The loop of [StackMallocSizeClass], which has no exit but the
    [return]: [None] when [rounds] rounds do not reach it. *)
Fixpoint StackMallocSizeClassLoop (rounds : nat) (LocalStackSize : Z)
    (MaxSize : Z) (i : Z) : option Z :=
  match rounds with
  | O => None
  | S rounds =>
      if LocalStackSize <=? MaxSize then Some i
      else StackMallocSizeClassLoop rounds LocalStackSize
             (to_uint64 (MaxSize * 2)) (i + 1)
  end.

Definition StackMallocSizeClass (rounds : nat) (LocalStackSize : Z)
    : option Z :=
  StackMallocSizeClassLoop rounds LocalStackSize kMinStackMallocSize 0.

(** ** Redzones around a dynamic alloca *)

Definition kAllocaRzSize : Z := 32.

(** The values computed by the instructions that
    [handleDynamicAllocaCall] inserts, in the arithmetic of [IntptrTy]:
    the alignment and size of the new alloca and the address that
    replaces the old one. *)
Record DynamicAlloca : Type := mkDynamicAlloca {
  Align : Z;
  OldSize : Z;
  PartialPadding : Z;
  NewSize : Z;
  NewAddress : Z
}.

Definition handleDynamicAllocaCall (LongSize : Z) (Alignment ElementSize : Z)
    (ArraySize NewAlloca : Z) : DynamicAlloca :=
  let intptr z := z mod 2 ^ LongSize in
  let Align := Z.max kAllocaRzSize Alignment in
  let AllocaRedzoneMask := kAllocaRzSize - 1 in
  let OldSize := intptr (intptr ArraySize * intptr ElementSize) in
  let PartialSize := Z.land OldSize (intptr AllocaRedzoneMask) in
  let Misalign := intptr (kAllocaRzSize - PartialSize) in
  let PartialPadding :=
    if negb (Misalign =? kAllocaRzSize) then Misalign else 0 in
  let AdditionalChunkSize :=
    intptr (intptr (to_uint32 (Align + kAllocaRzSize)) + PartialPadding) in
  let NewSize := intptr (OldSize + AdditionalChunkSize) in
  let NewAddress := intptr (NewAlloca + intptr Align) in
  {| Align := Align;
     OldSize := OldSize;
     PartialPadding := PartialPadding;
     NewSize := NewSize;
     NewAddress := NewAddress |}.

(** ** Poisoning the shadow of a frame *)

(** An element of an [ArrayRef<uint8_t>]; the index is inside the array
    wherever the theorems below let the code read it. *)
Definition byteAt (bytes : list Z) (i : nat) : Z := default 0 (bytes !! i).

(** A store of [StoreSizeInBytes] bytes, with the value [StoreVal], at
    [ShadowBase + StoreOffset]. *)
Record ShadowStore : Type := mkShadowStore {
  StoreOffset : nat;
  StoreSizeInBytes : nat;
  StoreVal : Z
}.

(** [while (cond(StoreSizeInBytes)) StoreSizeInBytes /= 2;]: [None] when
    the loop is still running after [rounds] rounds. *)
Fixpoint halveWhile (rounds : nat) (cond : nat → bool)
    (StoreSizeInBytes : nat) : option nat :=
  if cond StoreSizeInBytes then
    match rounds with
    | O => None
    | S rounds => halveWhile rounds cond (StoreSizeInBytes / 2)
    end
  else Some StoreSizeInBytes.

(** "Minimize store size by trimming trailing zeros": the loop over
    [j], entered at its test. *)
Fixpoint trimTrailingZeros (ShadowMask : list Z) (i : nat) (j : nat)
    (StoreSizeInBytes : nat) : option nat :=
  match j with
  | O => Some StoreSizeInBytes
  | S j' =>
      if byteAt ShadowMask (i + j) =? 0 then
        StoreSizeInBytes ←
          halveWhile StoreSizeInBytes
            (λ StoreSizeInBytes, (j <=? StoreSizeInBytes / 2)%nat)
            StoreSizeInBytes;
        trimTrailingZeros ShadowMask i j' StoreSizeInBytes
      else Some StoreSizeInBytes
  end.

(** The loop that builds [Val] from the bytes of the store. *)
Definition storeValue (IsLittleEndian : bool) (ShadowBytes : list Z)
    (i StoreSizeInBytes : nat) : Z :=
  foldl (λ Val j,
           if IsLittleEndian
           then Z.lor Val
                  (to_uint64
                     (Z.shiftl (byteAt ShadowBytes (i + j))
                        (8 * Z.of_nat j)))
           else Z.lor (to_uint64 (Z.shiftl Val 8))
                  (byteAt ShadowBytes (i + j)))
        0 (seq 0 StoreSizeInBytes).

(** The loop of [copyToShadowInline] over [i]; every round moves [i]
    forward, [None] when [rounds] rounds do not reach [End]. *)
Fixpoint copyToShadowInlineLoop (rounds : nat) (IsLittleEndian : bool)
    (LargestStoreSizeInBytes : nat) (ShadowMask ShadowBytes : list Z)
    (i End : nat) : option (list ShadowStore) :=
  if (End <=? i)%nat then Some []
  else
    match rounds with
    | O => None
    | S rounds =>
        if byteAt ShadowMask i =? 0 then
          copyToShadowInlineLoop rounds IsLittleEndian
            LargestStoreSizeInBytes ShadowMask ShadowBytes (i + 1) End
        else
          StoreSizeInBytes ←
            halveWhile LargestStoreSizeInBytes
              (λ StoreSizeInBytes, (End - i <? StoreSizeInBytes)%nat)
              LargestStoreSizeInBytes;
          StoreSizeInBytes ←
            trimTrailingZeros ShadowMask i (StoreSizeInBytes - 1)
              StoreSizeInBytes;
          stores ←
            copyToShadowInlineLoop rounds IsLittleEndian
              LargestStoreSizeInBytes ShadowMask ShadowBytes
              (i + StoreSizeInBytes) End;
          Some (mkShadowStore i StoreSizeInBytes
                  (storeValue IsLittleEndian ShadowBytes i StoreSizeInBytes)
                :: stores)
    end.

(** [copyToShadowInline]: the stores it inserts, in order. *)
Definition copyToShadowInline (LongSize : nat) (IsLittleEndian : bool)
    (ShadowMask ShadowBytes : list Z) (Begin End : nat)
    : option (list ShadowStore) :=
  if (End <=? Begin)%nat then Some []
  else
    let LargestStoreSizeInBytes := Nat.min 8 (LongSize / 8) in
    copyToShadowInlineLoop (End - Begin) IsLittleEndian
      LargestStoreSizeInBytes ShadowMask ShadowBytes Begin End.

(** The byte that a store leaves at [ShadowBase + StoreOffset + k]: the
    value is an integer of [8 * StoreSizeInBytes] bits, laid out in the
    byte order of the target. *)
Definition storeByte (IsLittleEndian : bool) (s : ShadowStore) (k : nat)
    : Z :=
  let Poison := StoreVal s mod 2 ^ (8 * Z.of_nat (StoreSizeInBytes s)) in
  if IsLittleEndian
  then Z.shiftr Poison (8 * Z.of_nat k) mod 256
  else Z.shiftr Poison (8 * Z.of_nat (StoreSizeInBytes s - 1 - k)) mod 256.

(** The shadow after a store, and after a sequence of stores; the shadow
    is indexed from [ShadowBase]. *)
Definition runStore (IsLittleEndian : bool) (shadow : nat → Z)
    (s : ShadowStore) : nat → Z :=
  λ p, if ((StoreOffset s <=? p)
           && (p <? StoreOffset s + StoreSizeInBytes s))%nat
       then storeByte IsLittleEndian s (p - StoreOffset s)
       else shadow p.

Definition runStores (IsLittleEndian : bool) (shadow : nat → Z)
    (stores : list ShadowStore) : nat → Z :=
  foldl (runStore IsLittleEndian) shadow stores.

(** The stores of a list come one after the other, the first one at or
    after [from]. *)
Fixpoint storesAscending (from : nat) (stores : list ShadowStore) : Prop :=
  match stores with
  | [] => True
  | s :: rest =>
      (from ≤ StoreOffset s)%nat
      ∧ storesAscending (StoreOffset s + StoreSizeInBytes s) rest
  end.

(** The value of a sequence of bytes read as a little-endian integer. *)
Definition packLE (bytes : list Z) : Z :=
  foldr (λ b acc, b + 256 * acc) 0 bytes.

(** The elements of an array are bytes. *)
Definition allBytes (bytes : list Z) : Prop :=
  Forall (λ b, 0 ≤ b < 256) bytes.

(** What [copyToShadow] inserts: a store, or a call of the callback
    [__asan_set_shadow_xx] of the value [Val] with the address
    [ShadowBase + CallOffset] and the size [CallSize]. *)
Inductive ShadowOp : Type :=
| InlineStore (s : ShadowStore)
| SetShadowCall (Val : Z) (CallOffset CallSize : nat).

(** The values for which [initializeCallbacks] declares a callback. *)
Definition AsanSetShadowFunc (Val : Z) : bool :=
  bool_decide (Val ∈ [0x00; 0xf1; 0xf2; 0xf3; 0xf5; 0xf8]).

(** "Skip same values": the loop over [j], with [remaining = End - j]. *)
Fixpoint skipSameValues (ShadowMask ShadowBytes : list Z) (Val : Z)
    (remaining : nat) (j : nat) : nat :=
  match remaining with
  | O => j
  | S remaining =>
      if negb (byteAt ShadowMask j =? 0) && (Val =? byteAt ShadowBytes j)
      then skipSameValues ShadowMask ShadowBytes Val remaining (j + 1)
      else j
  end.

(** The loop of [copyToShadow] over [i] and [j], entered at its test,
    and the call of [copyToShadowInline] that follows it; every round
    ends with [i = j++]. *)
Fixpoint copyToShadowLoop (rounds : nat) (LongSize : nat)
    (IsLittleEndian : bool) (ClMaxInlinePoisoningSize : nat)
    (ShadowMask ShadowBytes : list Z) (i j Done End : nat)
    : option (list ShadowOp) :=
  if (End <=? i)%nat then
    match copyToShadowInline LongSize IsLittleEndian ShadowMask ShadowBytes
            Done End with
    | Some stores => Some (InlineStore <$> stores)
    | None => None
    end
  else
    match rounds with
    | O => None
    | S rounds =>
        let continue j Done :=
          copyToShadowLoop rounds LongSize IsLittleEndian
            ClMaxInlinePoisoningSize ShadowMask ShadowBytes j (j + 1) Done
            End in
        if byteAt ShadowMask i =? 0 then continue j Done
        else
          let Val := byteAt ShadowBytes i in
          if negb (AsanSetShadowFunc Val) then continue j Done
          else
            let j :=
              skipSameValues ShadowMask ShadowBytes Val (End - j) j in
            if (ClMaxInlinePoisoningSize <=? j - i)%nat then
              match copyToShadowInline LongSize IsLittleEndian ShadowMask
                      ShadowBytes Done i, continue j j with
              | Some stores, Some rest =>
                  Some ((InlineStore <$> stores)
                        ++ SetShadowCall Val i (j - i) :: rest)
              | _, _ => None
              end
            else continue j Done
    end.

Definition copyToShadow (LongSize : nat) (IsLittleEndian : bool)
    (ClMaxInlinePoisoningSize : nat) (ShadowMask ShadowBytes : list Z)
    (Begin End : nat) : option (list ShadowOp) :=
  copyToShadowLoop (End - Begin) LongSize IsLittleEndian
    ClMaxInlinePoisoningSize ShadowMask ShadowBytes Begin (Begin + 1) Begin
    End.

(** The bytes an operation writes. *)
Definition opOffset (op : ShadowOp) : nat :=
  match op with
  | InlineStore s => StoreOffset s
  | SetShadowCall _ CallOffset _ => CallOffset
  end.

Definition opSize (op : ShadowOp) : nat :=
  match op with
  | InlineStore s => StoreSizeInBytes s
  | SetShadowCall _ _ CallSize => CallSize
  end.

(** The operations of a list come one after the other, the first one at
    or after [from]. *)
Fixpoint opsAscending (from : nat) (ops : list ShadowOp) : Prop :=
  match ops with
  | [] => True
  | op :: rest =>
      (from ≤ opOffset op)%nat
      ∧ opsAscending (opOffset op + opSize op) rest
  end.

(** The operation writes the byte [b] at [ShadowBase + p]: a store by
    its value, a call by the value its callback is named after. *)
Definition opWrites (IsLittleEndian : bool) (op : ShadowOp) (p : nat)
    (b : Z) : Prop :=
  (opOffset op ≤ p < opOffset op + opSize op)%nat
  ∧ match op with
    | InlineStore s => storeByte IsLittleEndian s (p - StoreOffset s) = b
    | SetShadowCall Val _ _ => Val = b
    end.

(** ** Filling the set of memory operations *)

(** What the loop of [runOnFunction] that fills the set of memory
    operations reads of an instruction, besides
    [isInterestingMemoryAccess]: the tests it calls and the classes it
    asks for ([CallSite CS(&Inst)] is set for a call or an invoke). *)
Record InstructionFacts : Type := mkInstructionFacts {
  LooksLikeCodeInBug11395 : Z → bool;
  isInterestingPointerComparisonOrSubtraction : Z → bool;
  isMemIntrinsic : Z → bool;
  isAllocaInst : Z → bool;
  isCallSite : Z → bool;
  doesNotReturn : Z → bool
}.

(** The options that this loop reads besides [ClOpt]. *)
Record CollectOptions : Type := mkCollectOptions {
  ClOptSameTemp : bool;
  ClInvalidPointerPairs : bool;
  ClMaxInsnsToInstrumentPerBB : Z
}.

(** The vectors and the counter that the loop fills. *)
Record Collected : Type := mkCollected {
  ToInstrument : list Z;
  NoReturnCalls : list Z;
  AllBlocks : list Z;
  PointerComparisonsOrSubtracts : list Z;
  NumAllocas : Z
}.

Section Collect.
Variable F : Analyses.
Variable facts : InstructionFacts.
Variable cfg : Config.
Variable opts : CollectOptions.

(** The loop over the instructions of one basic block; [None] when
    [LooksLikeCodeInBug11395] makes [runOnFunction] return. *)
Fixpoint collectBlock (insts : list Z) (TempsToInstrument : gset Z)
    (NumInsnsPerBB : Z) (c : Collected) : option Collected :=
  match insts with
  | [] => Some c
  | Inst :: rest =>
      if LooksLikeCodeInBug11395 facts Inst then None
      else
        (* ToInstrument.push_back(&Inst); NumInsnsPerBB++; *)
        let push TempsToInstrument :=
          let c :=
            mkCollected (ToInstrument c ++ [Inst]) (NoReturnCalls c)
              (AllBlocks c) (PointerComparisonsOrSubtracts c)
              (NumAllocas c) in
          let NumInsnsPerBB := to_int (NumInsnsPerBB + 1) in
          if NumInsnsPerBB >=? ClMaxInsnsToInstrumentPerBB opts then Some c
          else collectBlock rest TempsToInstrument NumInsnsPerBB c in
        match isInterestingMemoryAccess F Inst with
        | Some acc =>
            if ClOpt cfg && ClOptSameTemp opts then
              match MaybeMask acc with
              | Some _ =>
                  if decide (Addr acc ∈ TempsToInstrument)
                  then collectBlock rest TempsToInstrument NumInsnsPerBB c
                  else push TempsToInstrument
              | None =>
                  if decide (Addr acc ∈ TempsToInstrument)
                  then collectBlock rest TempsToInstrument NumInsnsPerBB c
                  else push ({[Addr acc]} ∪ TempsToInstrument)
              end
            else push TempsToInstrument
        | None =>
            if ClInvalidPointerPairs opts
               && isInterestingPointerComparisonOrSubtraction facts Inst
            then
              collectBlock rest TempsToInstrument NumInsnsPerBB
                (mkCollected (ToInstrument c) (NoReturnCalls c)
                   (AllBlocks c) (PointerComparisonsOrSubtracts c ++ [Inst])
                   (NumAllocas c))
            else if isMemIntrinsic facts Inst then push TempsToInstrument
            else
              let NumAllocas :=
                if isAllocaInst facts Inst then to_int (NumAllocas c + 1)
                else NumAllocas c in
              let NoReturnCalls :=
                if isCallSite facts Inst && doesNotReturn facts Inst
                then NoReturnCalls c ++ [Inst] else NoReturnCalls c in
              collectBlock rest
                (if isCallSite facts Inst then ∅ else TempsToInstrument)
                NumInsnsPerBB
                (mkCollected (ToInstrument c) NoReturnCalls (AllBlocks c)
                   (PointerComparisonsOrSubtracts c) NumAllocas)
        end
  end.

(** The loop over the basic blocks, each with its instructions. *)
Fixpoint collectBlocks (blocks : list (Z * list Z)) (c : Collected)
    : option Collected :=
  match blocks with
  | [] => Some c
  | BB :: rest =>
      match collectBlock BB.2 ∅ 0
              (mkCollected (ToInstrument c) (NoReturnCalls c)
                 (AllBlocks c ++ [BB.1]) (PointerComparisonsOrSubtracts c)
                 (NumAllocas c)) with
      | Some c => collectBlocks rest c
      | None => None
      end
  end.

(** "Fill the set of memory operations to instrument." *)
Definition fillMemoryOperations (blocks : list (Z * list Z))
    : option Collected :=
  collectBlocks blocks (mkCollected [] [] [] [] 0).

(** The addresses of the accesses of a list that carry no mask. *)
Definition unmaskedAddresses (insts : list Z) : list Z :=
  omap (λ Inst,
          match isInterestingMemoryAccess F Inst with
          | Some acc =>
              match MaybeMask acc with
              | None => Some (Addr acc)
              | Some _ => None
              end
          | None => None
          end) insts.

(** The instruction makes the loop forget the addresses it has seen in
    the block: "A call inside BB". *)
Definition clearsTemps (Inst : Z) : Prop :=
  isInterestingMemoryAccess F Inst = None
  ∧ ClInvalidPointerPairs opts
    && isInterestingPointerComparisonOrSubtraction facts Inst = false
  ∧ isMemIntrinsic facts Inst = false
  ∧ isCallSite facts Inst = true.
End Collect.

(** ** Statements about the neighbor passes *)

(** What one round of [baseAddrOffsetMapPreprocessing] adds for the
    instruction [Inst]: with one index or with several, the slot is the
    base with the leading constant indices and the entry is the last
    index. *)
Definition addsEntry (F : Analyses) (Inst : Z) (k : BaseKey) (v : Z * Z) : Prop :=
  ∃ acc Gep_Inst idx,
    isInterestingMemoryAccess F Inst = Some acc
    ∧ stripCasts (addrExpr F (Addr acc)) = GetElementPtrInst Gep_Inst
    ∧ PointerOperand Gep_Inst = k.1
    ∧ leadingOffsets
        (take (length (Indices Gep_Inst) - 1) (Indices Gep_Inst))
      = Some k.2
    ∧ last (Indices Gep_Inst) = Some idx
    ∧ IndexConstant idx = Some v.1
    ∧ v.2 = Inst.

(** ** Further concrete inputs *)

(** A 64-bit Linux target on x86-64, with the options as they are
    initialised, and a 32-bit Linux target. *)
Definition linux_x86_64 : Triple :=
  {| getArch := x86_64; isAndroid := false; isiOS := false;
     isWatchOS := false; isOSFreeBSD := false; isOSLinux := true;
     isOSWindows := false |}.

Definition linux_x86 : Triple :=
  {| getArch := x86; isAndroid := false; isiOS := false;
     isWatchOS := false; isOSFreeBSD := false; isOSLinux := true;
     isOSWindows := false |}.

Definition noMappingOptions : MappingOptions :=
  {| ClForceDynamicShadow := false; ClMappingScale := None;
     ClMappingOffset := None |}.

(** The shadow of a small frame: a left redzone, a variable of sixteen
    bytes, a middle redzone, a variable, and a right redzone. *)
Definition frameShadow : list Z :=
  [0xf1; 0xf1; 0xf1; 0xf1; 0; 0; 0xf2; 0xf2; 0; 0xf3; 0xf3; 0xf3].

(** One block 10 of five instructions: 1 and 2 load four bytes from the
    pointer 100, 3 is a call, 4 loads from the pointer 100 again, and 5
    is a call of memset. *)
Definition loadsAndCall : Analyses :=
  {| isInterestingMemoryAccess := λ I,
       if bool_decide (I ∈ [1; 2; 4])
       then Some (mkMemAccess 100 false 32 4 None) else None;
     getParent := λ _, 10;
     DT_dominates := DT_dominates noAnalyses;
     PDT_dominates := PDT_dominates noAnalyses;
     isMustAlias := isMustAlias noAnalyses;
     isPotentiallyReachable := isPotentiallyReachable noAnalyses;
     addrExpr := addrExpr noAnalyses;
     cmpUsers := cmpUsers noAnalyses;
     DT_dominatesBlock := DT_dominatesBlock noAnalyses;
     getLoopFor := getLoopFor noAnalyses;
     getExitBlock := getExitBlock noAnalyses;
     getParentLoop := getParentLoop noAnalyses;
     getFirstNonPHI := getFirstNonPHI noAnalyses;
     entryFirstNonPHI := 1;
     getSCEV := getSCEV noAnalyses;
     btraceInLoop := btraceInLoop noAnalyses;
     checkAddrType := checkAddrType noAnalyses;
     GetUnderlyingObject := GetUnderlyingObject noAnalyses;
     ObjSizeVis_compute := ObjSizeVis_compute noAnalyses |}.

Definition loadsAndCallFacts : InstructionFacts :=
  {| LooksLikeCodeInBug11395 := λ _, false;
     isInterestingPointerComparisonOrSubtraction := λ _, false;
     isMemIntrinsic := λ I, I =? 5;
     isAllocaInst := λ _, false;
     isCallSite := λ I, (I =? 3) || (I =? 5);
     doesNotReturn := λ _, false |}.

(** The options of the loop as they are initialised. *)
Definition defaultCollectOptions : CollectOptions :=
  {| ClOptSameTemp := true;
     ClInvalidPointerPairs := false;
     ClMaxInsnsToInstrumentPerBB := 10000 |}.

(** * Properties *)

(** ** The pending list only shrinks *)

Lemma keepNonDeleted_sublist deleted ToInstrument :
  keepNonDeleted deleted ToInstrument `sublist_of` ToInstrument.
Proof. apply sublist_filter. Qed.

(** C10: each of the four sub-passes (post-dominance elimination,
    dominance elimination, neighbor remove and merge, loop optimization)
    returns an order-preserving subsequence of the list it is given:
    entries are deleted, never added, duplicated or reordered. *)
Theorem subpasses_shrink_pending_list
    (analyse : list IREdit → Analyses) (cfg : Config)
    (uninitialized : Z → SCEVOut) (log : list IREdit)
    (ToInstrument : list Z) :
  sequentialExecuteOptimizationPostDom (analyse log) ToInstrument
    `sublist_of` ToInstrument
  ∧ sequentialExecuteOptimization (analyse log) ToInstrument
      `sublist_of` ToInstrument
  ∧ (sequentialExecuteOptimizationBoost analyse (MappingScale cfg)
       ToInstrument log).1 `sublist_of` ToInstrument
  ∧ (loopOptimization analyse cfg uninitialized ToInstrument log).1
      `sublist_of` ToInstrument.
Proof.
  repeat split.
  - apply keepNonDeleted_sublist.
  - apply keepNonDeleted_sublist.
  - unfold sequentialExecuteOptimizationBoost.
    destruct (mrgNeighborChks _ _ _ _ _) as [deleted log'].
    apply keepNonDeleted_sublist.
  - unfold loopOptimization.
    destruct (foldl _ _ _) as [optimized log'].
    apply keepNonDeleted_sublist.
Qed.

(** ** Iteration over the ordered containers *)

Lemma elem_of_set_iter (s : gset Z) (x : Z) : x ∈ set_iter s ↔ x ∈ s.
Proof.
  unfold set_iter. rewrite merge_sort_Permutation. apply elem_of_elements.
Qed.

Lemma elem_of_map_iter {V : Type} (m : gmap Z V) (k : Z) (v : V) :
  (k, v) ∈ map_iter m ↔ m !! k = Some v.
Proof.
  unfold map_iter. rewrite merge_sort_Permutation.
  apply elem_of_map_to_list.
Qed.

(** ** The groups of must-aliasing accesses *)

Section Groups.
Variable F : Analyses.

Lemma insert_member_inv M k s Inst pre :
  groupsWithin M pre → groupsDisjoint M → Inst ∉ pre →
  (M !! k = Some s ∨ (M !! k = None ∧ s = ∅)) →
  groupsWithin (<[k := {[Inst]} ∪ s]> M) (pre ++ [Inst])
  ∧ groupsDisjoint (<[k := {[Inst]} ∪ s]> M).
Proof.
  intros Hin Hdis Hfresh Hk.
  assert (Hs : ∀ x, x ∈ s → x ∈ pre).
  { intros x Hx. destruct Hk as [Hk | [_ ->]]; [eauto | set_solver]. }
  assert (Hold : ∀ k' s', M !! k' = Some s' → Inst ∉ s').
  { intros k' s' Hk' Hi. apply Hfresh. eauto. }
  split.
  - intros k' s' x Hlook Hx. apply elem_of_app.
    destruct (decide (k = k')) as [<- | Hne].
    + rewrite lookup_insert_eq in Hlook. injection Hlook as <-.
      apply elem_of_union in Hx as [Hx | Hx]; [right | left; auto].
      apply elem_of_singleton in Hx as ->. constructor.
    + rewrite lookup_insert_ne in Hlook by done. left. eauto.
  - intros k1 k2 s1 s2 x H1 H2 Hx1 Hx2.
    destruct (decide (k = k1)) as [<- | Hne1];
      destruct (decide (k = k2)) as [<- | Hne2]; [done | | | ].
    + rewrite lookup_insert_eq in H1. rewrite lookup_insert_ne in H2 by done.
      injection H1 as <-.
      apply elem_of_union in Hx1 as [Hx1 | Hx1].
      * apply elem_of_singleton in Hx1 as ->. exfalso. eapply Hold; eauto.
      * destruct Hk as [Hk | [_ ->]]; [eauto | set_solver].
    + rewrite lookup_insert_eq in H2. rewrite lookup_insert_ne in H1 by done.
      injection H2 as <-.
      apply elem_of_union in Hx2 as [Hx2 | Hx2].
      * apply elem_of_singleton in Hx2 as ->. exfalso. eapply Hold; eauto.
      * destruct Hk as [Hk | [_ ->]]; [symmetry; eauto | set_solver].
    + rewrite lookup_insert_ne in H1 by done.
      rewrite lookup_insert_ne in H2 by done. eauto.
Qed.

Lemma groupStep_inv M Inst pre :
  groupsWithin M pre → groupsDisjoint M → Inst ∉ pre →
  groupsWithin (groupStep F M Inst) (pre ++ [Inst])
  ∧ groupsDisjoint (groupStep F M Inst).
Proof.
  intros Hin Hdis Hfresh. unfold groupStep.
  destruct (isInterestingMemoryAccess F Inst) as [acc|].
  - destruct (M !! Addr acc) as [s|] eqn:Hlook.
    + apply insert_member_inv; auto.
    + destruct (List.find _ _) as [[k s]|] eqn:Hfind.
      * apply insert_member_inv; auto. left.
        apply List.find_some in Hfind as [Hfind _].
        apply list_elem_of_In in Hfind. by apply elem_of_map_iter.
      * replace ({[Inst]} : gset Z) with ({[Inst]} ∪ ∅ : gset Z)
          by apply union_empty_r_L.
        apply insert_member_inv; auto.
  - split; [|done]. intros k s x Hk Hx. apply elem_of_app. left. eauto.
Qed.

Lemma groups_inv l : ∀ M pre,
  groupsWithin M pre → groupsDisjoint M → NoDup (pre ++ l) →
  groupsWithin (foldl (groupStep F) M l) (pre ++ l)
  ∧ groupsDisjoint (foldl (groupStep F) M l).
Proof.
  induction l as [|Inst l IH]; intros M pre Hin Hdis Hnd; simpl.
  - rewrite app_nil_r. done.
  - assert (Hfresh : Inst ∉ pre).
    { apply NoDup_app in Hnd as (_ & Hnd & _). intros Hi.
      apply (Hnd Inst Hi). left. }
    destruct (groupStep_inv M Inst pre Hin Hdis Hfresh) as [Hin' Hdis'].
    replace (pre ++ Inst :: l) with ((pre ++ [Inst]) ++ l)
      by (by rewrite <- app_assoc).
    apply IH; auto. by rewrite <- app_assoc.
Qed.

Lemma AddrToInstructions_inv l :
  NoDup l →
  groupsWithin (AddrToInstructions F l) l
  ∧ groupsDisjoint (AddrToInstructions F l).
Proof.
  intros Hnd. unfold AddrToInstructions.
  apply (groups_inv l ∅ []); [| |done].
  - intros k s x Hk. by rewrite lookup_empty in Hk.
  - intros k1 k2 s1 s2 x Hk. by rewrite lookup_empty in Hk.
Qed.
End Groups.

(** ** Covered deletions keep a witness *)

Lemma not_elem_of_insert (x y : Z) (del : gset Z) :
  x ≠ y → x ∉ del → x ∉ ({[y]} ∪ del : gset Z).
Proof.
  intros Hne Hn H. apply elem_of_union in H as [H | H]; [|done].
  by apply elem_of_singleton in H.
Qed.

Section Covering.
Variable covers : Z → Z → bool.
Hypothesis covers_trans :
  ∀ x y z, covers x y = true → covers y z = true → covers x z = true.
Variable G : gmap Z (gset Z).
Hypothesis G_disjoint : groupsDisjoint G.

Lemma witnessed_insert del k s inst1 inst2 :
  witnessed covers G del → G !! k = Some s → inst1 ∈ s → inst2 ∈ s →
  inst1 ∉ del → inst1 ≠ inst2 → covers inst1 inst2 = true →
  witnessed covers G ({[inst2]} ∪ del).
Proof.
  intros Hw Hk H1 H2 Hn1 Hne Hc B HB.
  apply elem_of_union in HB as [HB | HB].
  - apply elem_of_singleton in HB as ->.
    exists inst1, k, s. split_and!; auto using not_elem_of_insert.
  - destruct (Hw B HB) as (A & k' & s' & HA & HcA & Hk' & HAs & HBs).
    destruct (decide (A = inst2)) as [-> | HneA].
    + assert (k' = k) as -> by (by apply (G_disjoint k' k s' s inst2)).
      assert (s' = s) as -> by congruence.
      exists inst1, k, s. split_and!; auto using not_elem_of_insert.
      by apply (covers_trans inst1 inst2 B).
    + exists A, k', s'. split_and!; auto using not_elem_of_insert.
Qed.

Lemma deleteCovered_inv k s inst1 grp :
  G !! k = Some s → inst1 ∈ s → (∀ x, x ∈ grp → x ∈ s) →
  ∀ del, inst1 ∉ del → witnessed covers G del →
    witnessed covers G (deleteCovered covers inst1 grp del)
    ∧ inst1 ∉ deleteCovered covers inst1 grp del.
Proof.
  intros Hk H1. unfold deleteCovered.
  induction grp as [|inst2 grp IH]; intros Hgrp del Hn Hw; simpl; [done|].
  assert (Hgrp' : ∀ x, x ∈ grp → x ∈ s).
  { intros x Hx. apply Hgrp. by right. }
  assert (H2 : inst2 ∈ s) by (apply Hgrp; left).
  destruct (decide (inst1 = inst2 ∨ inst2 ∈ del)) as [Hskip | Hgo].
  - by apply IH.
  - destruct (covers inst1 inst2) eqn:Hc; [|by apply IH].
    assert (inst1 ≠ inst2) by (intros ->; apply Hgo; by left).
    apply IH; [done | by apply not_elem_of_insert |].
    by apply (witnessed_insert del k s inst1 inst2).
Qed.

Lemma deleteInGroup_inv k s all :
  G !! k = Some s → (∀ x, x ∈ all → x ∈ s) →
  ∀ grp, (∀ x, x ∈ grp → x ∈ s) →
  ∀ del, witnessed covers G del →
    witnessed covers G
      (foldl (λ del inst1,
                if decide (inst1 ∈ del) then del
                else deleteCovered covers inst1 all del) del grp).
Proof.
  intros Hk Hall.
  induction grp as [|inst1 grp IH]; intros Hgrp del Hw; simpl; [done|].
  assert (Hgrp' : ∀ x, x ∈ grp → x ∈ s).
  { intros x Hx. apply Hgrp. by right. }
  destruct (decide (inst1 ∈ del)) as [Hin | Hn]; [by apply IH|].
  apply IH; [done|].
  eapply deleteCovered_inv; eauto. apply Hgrp. left.
Qed.

Lemma deleteRecurring_inv items :
  (∀ item, item ∈ items → G !! item.1 = Some item.2) →
  ∀ del, witnessed covers G del →
    witnessed covers G
      (foldl (λ del (item : Z * gset Z),
                deleteInGroup covers (set_iter item.2) del) del items).
Proof.
  induction items as [|item items IH]; intros Hitems del Hw; simpl; [done|].
  apply IH. { intros i Hi. apply Hitems. by right. }
  unfold deleteInGroup.
  assert (Hmem : ∀ x, x ∈ set_iter item.2 → x ∈ item.2).
  { intros x. apply elem_of_set_iter. }
  eapply (deleteInGroup_inv item.1 item.2); eauto.
  apply Hitems. left.
Qed.

Lemma deleteRecurring_witnessed :
  witnessed covers G (deleteRecurring covers G).
Proof.
  unfold deleteRecurring. apply deleteRecurring_inv.
  - intros [k s] Hi. by apply elem_of_map_iter.
  - intros B HB. by apply not_elem_of_empty in HB.
Qed.
End Covering.

(** ** A wider check at the same address fires whenever a narrower one does *)

Lemma land7_bounds (a : Z) : 0 ≤ Z.land a 7 ≤ 7.
Proof.
  change 7 with (Z.ones 3) at 1 2. rewrite Z.land_ones by lia.
  pose proof (Z.mod_pos_bound a (2 ^ 3)). lia.
Qed.

Lemma signed8_small (x : Z) : 0 ≤ x < 128 → signed 8 (x mod 2 ^ 8) = x.
Proof.
  intros Hx. rewrite Z.mod_small by lia. unfold signed.
  destruct (x <? 2 ^ (8 - 1)) eqn:E; [done|].
  apply Z.ltb_ge in E. lia.
Qed.

Lemma loadShadow_16_nonzero rt p :
  loadShadow rt p 8 ≠ 0 → loadShadow rt p 16 ≠ 0.
Proof.
  unfold loadShadow.
  change (Z.to_nat (8 `div` 8)) with 1%nat.
  change (Z.to_nat (16 `div` 8)) with 2%nat.
  cbn [seq foldr].
  pose proof (Z.mod_pos_bound (shadowAt rt (p + Z.of_nat 0)) 256).
  pose proof (Z.mod_pos_bound (shadowAt rt (p + Z.of_nat 1)) 256).
  lia.
Qed.

Ltac eval_const t :=
  let v := eval vm_compute in t in change t with v in *.

Ltac eval_size ts :=
  eval_const (ts <? 8 * 2 ^ 3); eval_const (8 `max` (ts ≫ 3));
  eval_const (ts `div` 8 >? 1); eval_const (ts `div` 8 - 1).

Lemma instrumentAddressFires_mono cfg rt a tsB tsA :
  MappingScale cfg = 3 → ClAlwaysSlowPath cfg = false →
  usualSize tsB → usualSize tsA → tsB ≤ tsA →
  instrumentAddressFires cfg rt a tsB = true →
  instrumentAddressFires cfg rt a tsA = true.
Proof.
  intros Hs Hp HB HA Hle.
  unfold instrumentAddressFires, createSlowPathCmp. rewrite Hs, Hp.
  eval_const (2 ^ 3 - 1).
  pose proof (land7_bounds a) as Hland.
  pose proof (loadShadow_16_nonzero rt (memToShadow cfg a)) as H16.
  destruct HB as [-> | [-> | [-> | [-> | ->]]]];
    destruct HA as [-> | [-> | [-> | [-> | ->]]]];
    try lia; try done.
  all: cbn [orb].
  all: try (eval_size 8). all: try eval_size 16. all: try eval_size 32.
  all: try eval_size 64. all: try eval_size 128.
  all: cbv iota.
  all: rewrite ?Z.add_0_r.
  all: rewrite ?signed8_small by lia.
  all: rewrite ?andb_true_iff, ?negb_true_iff, ?Z.geb_le, ?Z.eqb_neq.
  all: try (intros [? ?]; try split; auto; lia).
  all: auto.
Qed.

(** ** Soundness of removal *)


Lemma recurring_removal_covered (F : Analyses) (covers : Z → Z → bool)
    (ToInstrument : list Z) (B : Z) :
  (∀ x y z, covers x y = true → covers y z = true → covers x z = true) →
  NoDup ToInstrument →
  B ∈ ToInstrument →
  let kept :=
    keepNonDeleted (deleteRecurring covers (AddrToInstructions F ToInstrument))
      ToInstrument in
  B ∉ kept → ∃ A, coveredBy F covers ToInstrument kept B A.
Proof.
  intros Htrans Hnd HB kept Hgone.
  destruct (AddrToInstructions_inv F ToInstrument Hnd) as [Hin Hdis].
  pose proof (deleteRecurring_witnessed covers Htrans
                (AddrToInstructions F ToInstrument) Hdis) as Hw.
  subst kept. unfold keepNonDeleted in *.
  set (deleted := deleteRecurring _ _) in *.
  assert (Hdel : B ∈ deleted).
  { destruct (decide (B ∈ deleted)) as [|Hn]; [done|].
    exfalso. apply Hgone. by apply list_elem_of_filter. }
  destruct (Hw B Hdel) as (A & k & s & HA & Hcov & Hk & HAs & HBs).
  exists A. split_and!; [|done|by exists k, s].
  apply list_elem_of_filter. split; [done|]. by apply (Hin k s).
Qed.



(** ** The order of the sub-passes *)

(** C2, as stated, fails: on [reversedAddresses] the pass keeps the load
    1, because its post-dominance pass runs before its dominance pass;
    the order of the specification keeps the load 2. *)
Lemma postdominance_pass_runs_first :
  ASAN_Optimizations (λ _, reversedAddresses) defaultConfig noLocals
    [2; 1; 4; 3] [CloneBasicBlock 10]
  ≠ orderOfSpecification (λ _, reversedAddresses) defaultConfig noLocals
      [2; 1; 4; 3] [CloneBasicBlock 10].
Proof.
  replace (ASAN_Optimizations _ _ _ _ _) with ([1], [CloneBasicBlock 10])
    by (by vm_compute).
  replace (orderOfSpecification _ _ _ _ _) with ([2], [CloneBasicBlock 10])
    by (by vm_compute).
  discriminate.
Qed.

(** C2, amended: for every function analysed the pending list goes
    through the post-dominance pass, then the dominance pass, then the
    neighbor pass, then the loop pass, each one taking the list of the
    one before, and the final list goes to the emission loop; the
    safe-access test is no sub-pass of its own but is applied to each
    site of the final list inside the emission of its check. *)
Theorem subpasses_run_in_fixed_order
    (analyse : list IREdit → Analyses) (cfg : Config)
    (uninitialized : Z → SCEVOut) (blocks : list Z) (loadMethod : bool)
    (ToInstrument : list Z) :
  let fn := mkFunctionInfo false blocks loadMethod true (Some ToInstrument) in
  let log0 := MyCloneAllBBs fn ++ maybeInsertAsanInitAtFunctionEntry fn in
  let l1 := sequentialExecuteOptimizationPostDom (analyse log0) ToInstrument in
  let l2 := sequentialExecuteOptimization (analyse log0) l1 in
  let r3 :=
    sequentialExecuteOptimizationBoost analyse (MappingScale cfg) l2 log0 in
  let r4 := loopOptimization analyse cfg uninitialized r3.1 r3.2 in
  ASAN_Optimizations analyse cfg uninitialized ToInstrument log0 = r4
  ∧ runOnFunction analyse cfg uninitialized fn
    = instrumentAll analyse cfg r4.1 r4.2
  ∧ ∀ F I UseCalls,
      GetUnderlyingObject F (Addr (accessOf F I)) = AllocaInst →
      isSafeAccess F (Addr (accessOf F I)) (TypeSize (accessOf F I)) = true →
      instrumentMop F defaultConfig I UseCalls = OptimizedAccessToStackVar.
Proof.
  intros fn log0 l1 l2 r3 r4.
  assert (Hopt : ASAN_Optimizations analyse cfg uninitialized ToInstrument log0
                 = r4).
  { unfold ASAN_Optimizations. fold l1. fold l2. fold r3.
    subst r4. by destruct r3. }
  split_and!.
  - exact Hopt.
  - unfold runOnFunction. cbn [isExcluded hasSanitizeAddress memoryOperations fn negb].
    fold log0. rewrite Hopt. by destruct r4.
  - intros F I UseCalls Hobj Hsafe.
    unfold instrumentMop, instrumentMopAt, safeAccessTests. cbn.
    by rewrite Hobj, Hsafe.
Qed.

(** ** Safe accesses *)

Lemma to_int64_range (z : Z) : - 2 ^ 63 ≤ to_int64 z < 2 ^ 63.
Proof.
  unfold to_int64. pose proof (Z.mod_pos_bound (z + 2 ^ 63) (2 ^ 64)). lia.
Qed.

Lemma to_uint64_range (z : Z) : 0 ≤ to_uint64 z < 2 ^ 64.
Proof. unfold to_uint64. apply Z.mod_pos_bound. lia. Qed.

Lemma to_uint64_small (z : Z) : 0 ≤ z < 2 ^ 64 → to_uint64 z = z.
Proof. intros. unfold to_uint64. apply Z.mod_small. lia. Qed.

Lemma isSafeAccess_known (F : Analyses) (Addr TypeSize size offset : Z) :
  ObjSizeVis_compute F Addr = Some (size, offset) →
  isSafeAccess F Addr TypeSize = true
  ↔ 0 ≤ to_int64 offset ∧ to_int64 offset ≤ to_uint64 size
    ∧ TypeSize / 8 ≤ to_uint64 size - to_int64 offset.
Proof.
  intros Hknown. unfold isSafeAccess. rewrite Hknown.
  pose proof (to_int64_range offset) as Ho.
  pose proof (to_uint64_range size) as Hs.
  rewrite !andb_true_iff, !Z.geb_le. split.
  - intros [[H0 Hle] Hsz].
    rewrite (to_uint64_small (to_int64 offset)) in Hle, Hsz by lia.
    rewrite (to_uint64_small (to_uint64 size - to_int64 offset)) in Hsz by lia.
    lia.
  - intros (H0 & Hle & Hsz).
    rewrite (to_uint64_small (to_int64 offset)) by lia.
    rewrite (to_uint64_small (to_uint64 size - to_int64 offset)) by lia.
    lia.
Qed.

(** C3: with the optimisation options as they are initialised, for an
    access whose address leads back to a global or to an alloca and for
    which the object-size visitor knows size and offset, the primary
    safe-access test succeeds, and the guard is dropped, exactly when
    offset >= 0, size >= offset and size - offset >= TypeSize / 8; when
    size and offset are not both known the test fails, and then the
    secondary test alone decides. *)
Theorem safe_access_drop_condition
    (F : Analyses) (cfg : Config) (I : Z) (UseCalls : bool) :
  ClOpt cfg = true → ClOptGlobals cfg = true → ClOptStack cfg = true →
  ClInitializers cfg = false →
  (GetUnderlyingObject F (Addr (accessOf F I)) = AllocaInst
   ∨ ∃ b, GetUnderlyingObject F (Addr (accessOf F I)) = GlobalVariable b) →
  let acc := accessOf F I in
  let safe := isSafeAccess F (Addr acc) (TypeSize acc) in
  (∀ size offset,
     ObjSizeVis_compute F (Addr acc) = Some (size, offset) →
     safe = true
     ↔ 0 ≤ to_int64 offset ∧ to_int64 offset ≤ to_uint64 size
       ∧ TypeSize acc / 8 ≤ to_uint64 size - to_int64 offset)
  ∧ (ObjSizeVis_compute F (Addr acc) = None → safe = false)
  ∧ (safe = true →
     instrumentMop F cfg I UseCalls = OptimizedAccessToGlobalVar
     ∨ instrumentMop F cfg I UseCalls = OptimizedAccessToStackVar)
  ∧ (safe = false →
     match isSafeAccessBoost F I (Addr acc) with
     | Some true =>
         instrumentMop F cfg I UseCalls = OptimizedAccessToGlobalVar
         ∨ instrumentMop F cfg I UseCalls = OptimizedAccessToStackVar
     | Some false =>
         instrumentMop F cfg I UseCalls
         = Instrumented (ordinaryCheck F cfg I I UseCalls)
     | None => instrumentMop F cfg I UseCalls = NullDereference
     end).
Proof.
  intros Hopt Hglob Hstack Hinit Hobj acc safe.
  split_and!.
  - intros size offset Hknown. by apply isSafeAccess_known.
  - intros Hunknown. subst safe. unfold isSafeAccess. by rewrite Hunknown.
  - intros Hsafe. subst safe acc.
    unfold instrumentMop, instrumentMopAt, safeAccessTests.
    rewrite Hopt, Hglob, Hstack, Hinit. cbn [andb negb orb].
    destruct Hobj as [-> | [b ->]]; rewrite Hsafe; auto.
  - intros Hsafe. subst safe acc.
    unfold instrumentMop, instrumentMopAt, safeAccessTests.
    rewrite Hopt, Hglob, Hstack, Hinit. cbn [andb negb orb].
    destruct Hobj as [-> | [b ->]]; rewrite Hsafe;
      destruct (isSafeAccessBoost F I _) as [[|]|]; auto.
Qed.

Lemma safe_access_drop_condition_witness :
  isSafeAccess stackArray 100 32 = true
  ∧ instrumentMop stackArray defaultConfig 1 false = OptimizedAccessToStackVar.
Proof.
  destruct (safe_access_drop_condition stackArray defaultConfig 1 false)
    as (Hiff & _ & Hdrop & _).
  - reflexivity.
  - reflexivity.
  - reflexivity.
  - reflexivity.
  - left. reflexivity.
  - assert (Hsafe : isSafeAccess stackArray 100 32 = true).
    { apply (Hiff 16 8); [reflexivity|]. vm_compute. repeat split; discriminate. }
    split; [exact Hsafe|].
    destruct (Hdrop Hsafe) as [H | H]; [discriminate H | exact H].
Defined.

Lemma firstDecided_Some {A B : Type} (f : A → option B) (l : list A) (r : B) :
  firstDecided f l = Some r → ∃ x, x ∈ l ∧ f x = Some r.
Proof.
  induction l as [|x l IH]; simpl; [done|].
  destruct (f x) as [r'|] eqn:Hfx.
  - intros [= ->]. exists x. split; [left | done].
  - intros H. destruct (IH H) as (y & Hy & Hfy). exists y. split; [by right | done].
Qed.

Lemma firstDecided_None {A B : Type} (f : A → option B) (l : list A) :
  (∀ x, x ∈ l → f x = None) → firstDecided f l = None.
Proof.
  induction l as [|x l IH]; intros Hall; simpl; [done|].
  rewrite (Hall x) by left. apply IH. intros y Hy. apply Hall. by right.
Qed.

Lemma cmpSide_accepts (Gep_Inst : GEP) (Index : Z)
    (indexSide constSide : CmpOperand) :
  cmpSide Gep_Inst Index indexSide constSide = Some (Some true) →
  ∃ MaxOffset ObjSize,
    OperandValue indexSide = Index
    ∧ OperandConstant constSide = ConstantInt MaxOffset
    ∧ ArrayNumElements Gep_Inst = Some ObjSize
    ∧ to_uint64 MaxOffset ≤ to_uint64 ObjSize.
Proof.
  unfold cmpSide. destruct (decide (Index = OperandValue indexSide)); [|done].
  destruct (OperandConstant constSide) as [MaxOffset| |]; [|done|done].
  destruct (ArrayNumElements Gep_Inst) as [ObjSize|]; [|done].
  intros [= Hge]. apply Z.geb_le in Hge. by exists MaxOffset, ObjSize.
Qed.

(** The specification's wording can be met: the access of
    [boundedIndex] is accepted, and its address has two indices, the
    second of which varies and is compared against the length of the
    array. *)
Lemma boostAsSpecified_boundedIndex : boostAsSpecified boundedIndex 1 100.
Proof.
  intros _.
  exists (mkGEP 50 (Some 10) [mkIndex 300 (Some 0); mkIndex 200 None]),
    (mkIndex 200 None),
    (7, (mkCmpOperand 200 NotConstantData,
         mkCmpOperand 301 (ConstantInt 10))), 10, 10.
  split_and!.
  - reflexivity.
  - cbn. lia.
  - right. left.
  - reflexivity.
  - left.
  - reflexivity.
  - left. by split.
  - reflexivity.
  - reflexivity.
Qed.

(** C4, as stated, fails: the secondary test counts no indices and does
    not ask whether the index varies.  It accepts the access of
    [singleIndex], whose address has the one index 200, compared against
    the constant 10; and it accepts the access of [constantIndices],
    whose two indices are the constants 0 and 3, the comparison being
    one of the constant 3 against the constant 10. *)
Lemma boost_accepts_single_or_constant_index :
  isSafeAccessBoost singleIndex 1 100 = Some true
  ∧ ¬ boostAsSpecified singleIndex 1 100
  ∧ isSafeAccessBoost constantIndices 1 100 = Some true
  ∧ ¬ boostAsSpecified constantIndices 1 100.
Proof.
  split_and!.
  - reflexivity.
  - intros H.
    destruct (H eq_refl) as (Gep_Inst & Index & i_cmp & MaxOffset & ObjSize
                             & Hgep & Hlen & _).
    injection Hgep as <-. cbn in Hlen. lia.
  - reflexivity.
  - intros H.
    destruct (H eq_refl) as (Gep_Inst & Index & i_cmp & MaxOffset & ObjSize
                             & Hgep & _ & HIndex & Hvaries & _).
    injection Hgep as <-. cbn [Indices] in HIndex.
    apply elem_of_cons in HIndex as [-> | HIndex]; [discriminate|].
    apply list_elem_of_singleton in HIndex as ->. discriminate.
Qed.

(** C4, amended: the secondary test accepts an access only if its
    address is a [getelementptr], of any number of indices, one of whose
    indices, constant or not, is an operand of a comparison, of any
    predicate, that dominates the access and whose other operand is a
    constant integer that does not exceed, as unsigned numbers of 64
    bits, the element count of the array the pointer operand points to;
    when no comparison on an index dominates the access, the access is
    not accepted. *)
Theorem boost_needs_dominating_comparison
    (F : Analyses) (IndexInst Addr : Z) :
  (isSafeAccessBoost F IndexInst Addr = Some true →
   ∃ Gep_Inst Index i_cmp MaxOffset ObjSize,
     addrExpr F Addr = GetElementPtrInst Gep_Inst
     ∧ Index ∈ Indices Gep_Inst
     ∧ i_cmp ∈ cmpUsers F (IndexValue Index)
     ∧ DT_dominates F i_cmp.1 IndexInst = true
     ∧ ((OperandValue i_cmp.2.1 = IndexValue Index
         ∧ OperandConstant i_cmp.2.2 = ConstantInt MaxOffset)
        ∨ (OperandValue i_cmp.2.2 = IndexValue Index
           ∧ OperandConstant i_cmp.2.1 = ConstantInt MaxOffset))
     ∧ ArrayNumElements Gep_Inst = Some ObjSize
     ∧ to_uint64 MaxOffset ≤ to_uint64 ObjSize)
  ∧ ((∀ Gep_Inst Index i_cmp,
        addrExpr F Addr = GetElementPtrInst Gep_Inst →
        Index ∈ Indices Gep_Inst →
        i_cmp ∈ cmpUsers F (IndexValue Index) →
        DT_dominates F i_cmp.1 IndexInst = false) →
     isSafeAccessBoost F IndexInst Addr = Some false).
Proof.
  unfold isSafeAccessBoost. split.
  - destruct (addrExpr F Addr) as [|Gep_Inst|]; [done| |done].
    destruct (firstDecided _ (Indices Gep_Inst)) as [r|] eqn:Hfirst; [|done].
    intros ->.
    apply firstDecided_Some in Hfirst as (Index & HIndex & Husers).
    apply firstDecided_Some in Husers as (i_cmp & Hcmp & Hboost).
    unfold boostByCmp in Hboost.
    destruct (DT_dominates F i_cmp.1 IndexInst) eqn:Hdom; [|done].
    destruct (cmpSide Gep_Inst (IndexValue Index) i_cmp.2.1 i_cmp.2.2)
      as [r|] eqn:Hside.
    + injection Hboost as ->.
      apply cmpSide_accepts in Hside as (MaxOffset & ObjSize & ? & ? & ? & ?).
      exists Gep_Inst, Index, i_cmp, MaxOffset, ObjSize. split_and!; auto.
    + apply cmpSide_accepts in Hboost as (MaxOffset & ObjSize & ? & ? & ? & ?).
      exists Gep_Inst, Index, i_cmp, MaxOffset, ObjSize. split_and!; auto.
  - intros Hnone.
    destruct (addrExpr F Addr) as [|Gep_Inst|]; [done| |done].
    rewrite firstDecided_None; [done|].
    intros Index HIndex. apply firstDecided_None. intros i_cmp Hcmp.
    unfold boostByCmp. by rewrite (Hnone Gep_Inst Index i_cmp).
Qed.

Lemma boost_needs_dominating_comparison_witness :
  isSafeAccessBoost boundedIndex 1 100 = Some true
  ∧ ∃ i_cmp, i_cmp ∈ cmpUsers boundedIndex 200
             ∧ DT_dominates boundedIndex i_cmp.1 1 = true.
Proof.
  split; [reflexivity|].
  destruct (proj1 (boost_needs_dominating_comparison boundedIndex 1 100)
              eq_refl)
    as (Gep_Inst & Index & i_cmp & MaxOffset & ObjSize
        & Hgep & HIndex & Hcmp & Hdom & _).
  exists (7, (mkCmpOperand 200 NotConstantData,
              mkCmpOperand 301 (ConstantInt 10))).
  split; [left | reflexivity].
Defined.

(** ** The dominance pass and intervening calls *)

Section Completeness.
Variable covers : Z → Z → bool.

Lemma deleteCovered_mono inst1 grp : ∀ del x,
  x ∈ del → x ∈ deleteCovered covers inst1 grp del.
Proof.
  unfold deleteCovered.
  induction grp as [|inst2 grp IH]; intros del x Hx; simpl; [done|].
  apply IH. destruct (decide (inst1 = inst2 ∨ inst2 ∈ del)); [done|].
  destruct (covers inst1 inst2); [|done].
  apply elem_of_union. by right.
Qed.

Lemma deleteCovered_complete inst1 inst2 grp : ∀ del,
  inst2 ∈ grp → inst1 ≠ inst2 → covers inst1 inst2 = true →
  inst2 ∈ deleteCovered covers inst1 grp del.
Proof.
  induction grp as [|i grp IH]; intros del Hin Hne Hc.
  - by apply elem_of_nil in Hin.
  - apply elem_of_cons in Hin as [<- | Hin].
    + unfold deleteCovered. simpl.
      apply (deleteCovered_mono inst1 grp).
      destruct (decide (inst1 = inst2 ∨ inst2 ∈ del)) as [[? | ?] | ?];
        [done | done |].
      rewrite Hc. apply elem_of_union. left. by apply elem_of_singleton.
    + unfold deleteCovered. simpl. by apply IH.
Qed.

Lemma deleteInGroup_mono all grp : ∀ del x,
  x ∈ del →
  x ∈ foldl (λ del inst1,
               if decide (inst1 ∈ del) then del
               else deleteCovered covers inst1 all del) del grp.
Proof.
  induction grp as [|inst1 grp IH]; intros del x Hx; simpl; [done|].
  apply IH. destruct (decide (inst1 ∈ del)); [done|].
  by apply deleteCovered_mono.
Qed.

Lemma deleteInGroup_complete all A B grp : ∀ del,
  A ∈ grp → B ∈ all → A ≠ B → covers A B = true →
  A ∉ foldl (λ del inst1,
               if decide (inst1 ∈ del) then del
               else deleteCovered covers inst1 all del) del grp →
  B ∈ foldl (λ del inst1,
               if decide (inst1 ∈ del) then del
               else deleteCovered covers inst1 all del) del grp.
Proof.
  induction grp as [|inst1 grp IH]; intros del HA HB Hne Hc Hsurv.
  - by apply elem_of_nil in HA.
  - simpl in *. apply elem_of_cons in HA as [<- | HA]; [|by apply IH].
    destruct (decide (A ∈ del)) as [Hdel | Hdel].
    + exfalso. apply Hsurv. by apply deleteInGroup_mono.
    + apply deleteInGroup_mono. by apply deleteCovered_complete.
Qed.

Lemma deleteRecurring_mono items : ∀ del x,
  x ∈ del →
  x ∈ foldl (λ del (item : Z * gset Z),
               deleteInGroup covers (set_iter item.2) del) del items.
Proof.
  induction items as [|item items IH]; intros del x Hx; simpl; [done|].
  apply IH. by apply deleteInGroup_mono.
Qed.

Lemma deleteRecurring_complete (G : gmap Z (gset Z)) k s A B :
  G !! k = Some s → A ∈ s → B ∈ s → A ≠ B → covers A B = true →
  A ∉ deleteRecurring covers G → B ∈ deleteRecurring covers G.
Proof.
  intros Hk HA HB Hne Hc. unfold deleteRecurring.
  assert (Hitem : (k, s) ∈ map_iter G) by (by apply elem_of_map_iter).
  generalize (∅ : gset Z) as del.
  induction (map_iter G) as [|item items IH]; intros del Hsurv.
  - by apply elem_of_nil in Hitem.
  - simpl in *. apply elem_of_cons in Hitem as [<- | Hitem]; [|by apply IH].
    apply deleteRecurring_mono. simpl. unfold deleteInGroup.
    apply (deleteInGroup_complete (set_iter s) A B);
      [by apply elem_of_set_iter | by apply elem_of_set_iter | done | done |].
    intros HAdel. apply Hsurv. by apply deleteRecurring_mono.
Qed.
End Completeness.

Lemma ConservativeCallIntrinsicCheck_false (F : Analyses)
    (blockOf : Z → list Z) (InstStart InstEnd : Z) (callIntrinsicSet : gset Z) :
  ConservativeCallIntrinsicCheck F blockOf InstStart InstEnd callIntrinsicSet
  = false
  ↔ ∃ TargetInst,
      TargetInst ∈ callIntrinsicSet
      ∧ isPotentiallyReachable F InstStart TargetInst = true
      ∧ isPotentiallyReachable F TargetInst InstEnd = true
      ∧ isPostDominatWrapper F blockOf InstStart TargetInst = false.
Proof.
  unfold ConservativeCallIntrinsicCheck.
  rewrite negb_false_iff, existsb_exists.
  setoid_rewrite <- list_elem_of_In. setoid_rewrite elem_of_set_iter.
  split.
  - intros (T & HT & Hc). exists T.
    apply andb_true_iff in Hc as [Hc Hpd]. apply andb_true_iff in Hc as [? ?].
    by apply negb_true_iff in Hpd.
  - intros (T & HT & H1 & H2 & Hpd). exists T. split; [done|].
    by rewrite H1, H2, Hpd.
Qed.

(** C5, as stated, fails: in the block of [loadCallLoad] a call stands
    between the two loads and the conservative check objects, yet the
    dominance pass, which takes no option, removes the second load. *)
Lemma removal_across_call :
  ¬ removalRespectsCalls straightLine loadCallLoad {[2]} [1; 3].
Proof.
  intros H. destruct (H 3) as (A & HA & _ & Hcheck).
  - by apply (bool_decide_unpack _).
  - by apply (bool_decide_unpack _).
  - replace (sequentialExecuteOptimization straightLine [1; 3]) with [1]
      in HA by (by vm_compute).
    apply list_elem_of_singleton in HA as ->. by vm_compute in Hcheck.
Qed.

(** C5, amended: the conservative check is a function of the pass that
    objects to a pair exactly when some collected call or lifetime end
    is potentially reachable from the first instruction, potentially
    reaches the second and is not post-dominated by the first in the
    sense of [isPostDominatWrapper]; the dominance pass does not call
    it and has no option for it: it removes a site whenever a surviving
    site of its group dominates it, whatever the check says. *)
Theorem dominance_removal_ignores_calls
    (F : Analyses) (blockOf : Z → list Z) (callIntrinsicSet : gset Z)
    (ToInstrument : list Z) (A B k : Z) (s : gset Z) :
  AddrToInstructions F ToInstrument !! k = Some s →
  A ∈ s → B ∈ s → A ≠ B →
  DT_dominates F A B = true →
  A ∈ sequentialExecuteOptimization F ToInstrument →
  (B ∉ sequentialExecuteOptimization F ToInstrument)
  ∧ (ConservativeCallIntrinsicCheck F blockOf A B callIntrinsicSet = false
     ↔ ∃ TargetInst,
         TargetInst ∈ callIntrinsicSet
         ∧ isPotentiallyReachable F A TargetInst = true
         ∧ isPotentiallyReachable F TargetInst B = true
         ∧ isPostDominatWrapper F blockOf A TargetInst = false).
Proof.
  intros Hk HA HB Hne Hdom Hsurv.
  split; [|apply ConservativeCallIntrinsicCheck_false].
  unfold sequentialExecuteOptimization, keepNonDeleted in *.
  apply list_elem_of_filter in Hsurv as [Hsurv _].
  intros Hin. apply list_elem_of_filter in Hin as [Hin _]. apply Hin.
  by apply (deleteRecurring_complete (DT_dominates F) _ k s A B).
Qed.

Lemma dominance_removal_ignores_calls_witness :
  (3 ∉ sequentialExecuteOptimization straightLine [1; 3])
  ∧ ConservativeCallIntrinsicCheck straightLine loadCallLoad 1 3 {[2]}
    = false.
Proof.
  destruct (dominance_removal_ignores_calls straightLine loadCallLoad {[2]}
              [1; 3] 1 3 100 {[1; 3]}) as [Hgone Hcheck].
  - by vm_compute.
  - by apply (bool_decide_unpack _).
  - by apply (bool_decide_unpack _).
  - discriminate.
  - reflexivity.
  - by apply (bool_decide_unpack _).
  - split; [exact Hgone|]. apply Hcheck. exists 2.
    split_and!; [by apply (bool_decide_unpack _) | done | done | done].
Defined.

(** ** The ranking of the removable neighbors *)

Lemma elem_of_pset_iter (s : gset (Z * Z)) (p : Z * Z) :
  p ∈ pset_iter s ↔ p ∈ s.
Proof.
  unfold pset_iter. rewrite merge_sort_Permutation. apply elem_of_elements.
Qed.

(** Whenever no candidate is a member of one of its own witness pairs,
    which is the case for the maps that [preprocessPotentialRemoveInsts]
    builds from accesses with distinct offsets, every candidate gets the
    rank 0. *)
Lemma rank_is_zero (potentialRemoveInsts : PairMap) :
  (∀ k s p, potentialRemoveInsts !! k = Some s → p ∈ s →
            k ≠ p.1 ∧ k ≠ p.2) →
  ∀ entry, entry ∈ rankRemovableInsts potentialRemoveInsts → entry.1 = 0.
Proof.
  intros Hself entry Hentry. unfold rankRemovableInsts in Hentry.
  apply list_elem_of_fmap in Hentry as (instVectorMap & -> & _). simpl.
  unfold countInst.
  assert (Hitems : ∀ item, item ∈ map_iter potentialRemoveInsts →
            potentialRemoveInsts !! item.1 = Some item.2).
  { intros [k s]. apply elem_of_map_iter. }
  revert Hitems. generalize (map_iter potentialRemoveInsts) as items.
  intros items. generalize 0 at 1 2 as count.
  induction items as [|instVector items IH]; intros count Hitems; simpl.
  - done.
  - assert (Hstep :
      (if decide (instVector.1 = instVectorMap.1) then count
       else foldl (λ count (instPair : Z * Z),
                     if decide (instVector.1 = instPair.1
                                ∨ instVector.1 = instPair.2)
                     then count + 1 else count)
                  count (pset_iter instVector.2)) = count).
    { destruct (decide (instVector.1 = instVectorMap.1)); [done|].
      assert (Hpairs : ∀ p, p ∈ pset_iter instVector.2 →
                instVector.1 ≠ p.1 ∧ instVector.1 ≠ p.2).
      { intros p Hp. apply elem_of_pset_iter in Hp.
        apply (Hself instVector.1 instVector.2); [|done].
        apply Hitems. left. }
      revert Hpairs. generalize (pset_iter instVector.2) as pairs.
      induction pairs as [|p pairs IHp]; intros Hpairs; simpl; [done|].
      destruct (decide (instVector.1 = p.1 ∨ instVector.1 = p.2)) as [Hc|_].
      - exfalso. destruct (Hpairs p) as [? ?]; [left|]. by destruct Hc.
      - apply IHp. intros q Hq. apply Hpairs. by right. }
    rewrite Hstep. apply IH. intros item Hitem. apply Hitems. by right.
Qed.

(** C6: the five accesses of [sideBranch] form one group of neighbors
    with three removable candidates.  The access 1 is cited by three
    witness pairs of the other candidates and the accesses 2 and 3 by
    one each, but [rankRemovableInsts] gives all three the rank 0; the
    pass then removes the cover 1 first and keeps 2 and 3, where the
    removal by coverage rank removes 2 and 3 and keeps 1. *)
Theorem rank_ignores_citations :
  let baseAddrOffsetMap_multi :=
    baseAddrOffsetMapPreprocessing sideBranch [4; 1; 3; 2; 5] in
  let potentialRemoveInsts :=
    preprocessPotentialRemoveInsts sideBranch sideBranchOffsets in
  baseAddrOffsetMap_multi = {[ (50, []) := sideBranchOffsets ]}
  ∧ map_iter (pset_iter <$> potentialRemoveInsts)
    = [(1, [(4, 3)]); (2, [(1, 5)]); (3, [(1, 2); (1, 5)])]
  ∧ rankRemovableInsts potentialRemoveInsts = [(0, 1); (0, 2); (0, 3)]
  ∧ map (citations potentialRemoveInsts) [1; 2; 3] = [3; 1; 1]
  ∧ set_iter (removeInstructionFunc potentialRemoveInsts ∅).2 = [1]
  ∧ set_iter (rmNeighborChks sideBranch baseAddrOffsetMap_multi ∅) = [1]
  ∧ set_iter (removeByCitations potentialRemoveInsts ∅).2 = [2; 3].
Proof. by vm_compute. Qed.

(** ** The shape of a merged guard *)

Lemma getLastInst_fold (F : Analyses) (vec : list (Z * Z)) :
  (∀ x y z, DT_dominates F x y = true → DT_dominates F y z = true →
            DT_dominates F x z = true) →
  ∀ seen lastInst,
    lastInst ∈ seen →
    (∀ x, x ∈ seen →
          x.2 = lastInst.2 ∨ DT_dominates F x.2 lastInst.2 = true) →
    (∀ x y, x ∈ seen ++ vec → y ∈ seen ++ vec →
            x.2 = y.2 ∨ DT_dominates F x.2 y.2 = true
            ∨ DT_dominates F y.2 x.2 = true) →
    let r := foldl (λ lastInst (eachInst : Z * Z),
                      if DT_dominates F eachInst.2 lastInst.2 then lastInst
                      else eachInst) lastInst vec in
    r ∈ seen ++ vec
    ∧ ∀ x, x ∈ seen ++ vec →
           x.2 = r.2 ∨ DT_dominates F x.2 r.2 = true.
Proof.
  intros Htrans.
  induction vec as [|eachInst vec IH]; intros seen lastInst Hin Hinv Htot; simpl.
  - rewrite app_nil_r. done.
  - assert (Happ : seen ++ eachInst :: vec = (seen ++ [eachInst]) ++ vec)
      by (by rewrite <- app_assoc).
    rewrite Happ in *.
    assert (Heach : eachInst ∈ (seen ++ [eachInst]) ++ vec).
    { apply elem_of_app. left. apply elem_of_app. right. left. }
    assert (Hlast : lastInst ∈ (seen ++ [eachInst]) ++ vec).
    { apply elem_of_app. left. apply elem_of_app. by left. }
    destruct (DT_dominates F eachInst.2 lastInst.2) eqn:Hdom.
    + apply IH; [apply elem_of_app; by left | | done].
      intros x Hx. apply elem_of_app in Hx as [Hx | Hx]; [by apply Hinv|].
      apply list_elem_of_singleton in Hx as ->. by right.
    + apply IH; [apply elem_of_app; right; left | | done].
      intros x Hx. apply elem_of_app in Hx as [Hx | Hx].
      * destruct (Htot eachInst lastInst Heach Hlast) as [Heq | [Hd | Hd]].
        -- rewrite Heq. by apply Hinv.
        -- congruence.
        -- destruct (Hinv x Hx) as [Hx2 | Hx2].
           ++ right. by rewrite Hx2.
           ++ right. by apply (Htrans _ lastInst.2).
      * apply list_elem_of_singleton in Hx as ->. by left.
Qed.

Lemma getMinDistance_fold (vec : list (Z * Z)) :
  ∀ seen minOffset,
    minOffset ∈ seen →
    (∀ x, x ∈ seen → minOffset.1 ≤ x.1) →
    let r := foldl (λ minOffset (eachInst : Z * Z),
                      if eachInst.1 <? minOffset.1 then eachInst
                      else minOffset) minOffset vec in
    r ∈ seen ++ vec ∧ ∀ x, x ∈ seen ++ vec → r.1 ≤ x.1.
Proof.
  induction vec as [|eachInst vec IH]; intros seen minOffset Hin Hinv; simpl.
  - rewrite app_nil_r. done.
  - replace (seen ++ eachInst :: vec) with ((seen ++ [eachInst]) ++ vec)
      by (by rewrite <- app_assoc).
    destruct (eachInst.1 <? minOffset.1) eqn:Hlt.
    + apply Z.ltb_lt in Hlt.
      apply IH; [apply elem_of_app; right; left|].
      intros x Hx. apply elem_of_app in Hx as [Hx | Hx].
      * specialize (Hinv x Hx). lia.
      * apply list_elem_of_singleton in Hx as ->. lia.
    + apply Z.ltb_ge in Hlt.
      apply IH; [apply elem_of_app; by left|].
      intros x Hx. apply elem_of_app in Hx as [Hx | Hx]; [by apply Hinv|].
      by apply list_elem_of_singleton in Hx as ->.
Qed.

Lemma ShadowTyBits_smallest (d : Z) :
  0 ≤ d < 64 →
  (ShadowTyBits d = 8 ∨ ShadowTyBits d = 16 ∨ ShadowTyBits d = 32
   ∨ ShadowTyBits d = 64)
  ∧ d < ShadowTyBits d
  ∧ ∀ w, (w = 8 ∨ w = 16 ∨ w = 32 ∨ w = 64) → d < w → ShadowTyBits d ≤ w.
Proof.
  intros Hd. unfold ShadowTyBits.
  destruct (8 <=? d) eqn:H8; destruct (d <? 16) eqn:H16;
    destruct (16 <=? d) eqn:H16'; destruct (d <? 32) eqn:H32;
    destruct (32 <=? d) eqn:H32'; destruct (d <? 64) eqn:H64;
    cbn [andb];
    rewrite ?Z.leb_le, ?Z.leb_gt, ?Z.ltb_lt, ?Z.ltb_ge in *;
    try lia;
    (split; [lia|]; split; [lia|]; intros w Hw ?; lia).
Qed.

(** C7, as stated, fails: the loads of [negativeOffset] form a cluster
    with the offsets -8 and 0, of span 8, for which the specification
    asks for a guard of 8 bits; the pass inserts a guard of 16 bits. *)
Lemma merged_guard_wider_than_specified :
  let optInst : RankedEntry := (1, ((0, 2), [(-8, 1)])) in
  let guard :=
    InsertIfThen 2 (ShadowNonZero 101 16)
      [instrumentAddress (OfValue 101) 8 false false;
       instrumentAddress (OfValue 101) 8 false false] in
  ASAN_Optimizations (λ _, negativeOffset) defaultConfig noLocals
    [1; 2; 3; 4] [CloneBasicBlock 10]
  = ([], [CloneBasicBlock 10; guard])
  ∧ head (rankedClusters negativeOffset {[ (-8, 1); (0, 2) ]}) = Some optInst
  ∧ mergedGuard negativeOffset 3 optInst = guard
  ∧ clusterSpan optInst = 8
  ∧ guardWidth guard ≠ Some (widthOfSpecification (clusterSpan optInst)).
Proof. by vm_compute. Qed.

(** C7, amended: for an entry of the ranked list whose vector is not
    empty, the pass inserts one guard.  It is inserted before a site of
    the cluster which, when dominance is transitive and relates any two
    sites of the cluster, every other site of the cluster dominates; it
    checks the address of a site of the vector whose offset is smallest
    in the vector; its shadow load is 8, 16, 32 or 64 bits wide, the
    smallest of these widths that is strictly greater than the distance
    the pass computes for the entry, when that distance lies between 0
    and 63; and every site of the cluster is marked as deleted. *)
Theorem merged_guard_shape (F : Analyses) (Scale : Z) (optInst : RankedEntry) :
  (∀ x y z, DT_dominates F x y = true → DT_dominates F y z = true →
            DT_dominates F x z = true) →
  (∀ x y, x ∈ optInst.2.1 :: optInst.2.2 → y ∈ optInst.2.1 :: optInst.2.2 →
          x.2 = y.2 ∨ DT_dominates F x.2 y.2 = true
          ∨ DT_dominates F y.2 x.2 = true) →
  optInst.2.2 ≠ [] →
  0 ≤ maxDistance optInst < 64 →
  ∃ lastInst minInst bits body,
    mergedGuard F Scale optInst
    = InsertIfThen lastInst.2
        (ShadowNonZero (Addr (accessOf F minInst.2)) bits) body
    ∧ lastInst ∈ optInst.2.1 :: optInst.2.2
    ∧ (∀ x, x ∈ optInst.2.1 :: optInst.2.2 →
            x.2 = lastInst.2 ∨ DT_dominates F x.2 lastInst.2 = true)
    ∧ minInst ∈ optInst.2.2
    ∧ (∀ x, x ∈ optInst.2.2 → minInst.1 ≤ x.1)
    ∧ (bits = 8 ∨ bits = 16 ∨ bits = 32 ∨ bits = 64)
    ∧ maxDistance optInst < bits
    ∧ (∀ w, (w = 8 ∨ w = 16 ∨ w = 32 ∨ w = 64) → maxDistance optInst < w →
            bits ≤ w)
    ∧ ∀ x, x ∈ optInst.2.1 :: optInst.2.2 → x.2 ∈ mergedAway optInst.
Proof.
  destruct optInst as [n [key vec]]. cbn [fst snd].
  intros Htrans Htot Hvec Hd.
  destruct (getLastInst_fold F vec Htrans [key] key) as [Hlast_in Hlast].
  { left. }
  { intros x Hx. apply list_elem_of_singleton in Hx as ->. by left. }
  { exact Htot. }
  destruct vec as [|firstInst rest]; [done|].
  destruct (getMinDistance_fold (firstInst :: rest) [firstInst] firstInst)
    as [Hmin_in Hmin].
  { left. }
  { intros x Hx. by apply list_elem_of_singleton in Hx as ->. }
  destruct (ShadowTyBits_smallest _ Hd) as (Hbits & Hgt & Hsmall).
  exists (getLastInst F (n, (key, firstInst :: rest))),
    (getMinDistance (n, (key, firstInst :: rest))),
    (ShadowTyBits (maxDistance (n, (key, firstInst :: rest)))).
  eexists. split_and!.
  - unfold mergedGuard, maxDistance. reflexivity.
  - exact Hlast_in.
  - exact Hlast.
  - apply elem_of_app in Hmin_in as [Hin | Hin]; [|exact Hin].
    apply list_elem_of_singleton in Hin.
    change (getMinDistance (n, (key, firstInst :: rest)))
      with (foldl (λ minOffset (eachInst : Z * Z),
                     if eachInst.1 <? minOffset.1 then eachInst
                     else minOffset) firstInst (firstInst :: rest)).
    rewrite Hin. left.
  - intros x Hx. apply Hmin. apply elem_of_app. by right.
  - exact Hbits.
  - exact Hgt.
  - exact Hsmall.
  - intros x Hx. unfold mergedAway. cbn [fst snd].
    apply elem_of_cons in Hx as [-> | Hx].
    + apply elem_of_union. left. by apply elem_of_singleton.
    + apply elem_of_union. right. apply elem_of_list_to_set.
      apply list_elem_of_fmap. by exists x.
Qed.

Lemma merged_guard_shape_witness :
  ∃ lastInst minInst bits body,
    mergedGuard straightLine 3 (1, ((0, 2), [(-8, 1)]))
    = InsertIfThen lastInst.2
        (ShadowNonZero (Addr (accessOf straightLine minInst.2)) bits) body
    ∧ lastInst ∈ [(0, 2); (-8, 1)]
    ∧ minInst ∈ [(-8, 1)]
    ∧ 8 < bits.
Proof.
  destruct (merged_guard_shape straightLine 3 (1, ((0, 2), [(-8, 1)])))
    as (lastInst & minInst & bits & body & Hg & Hl & _ & Hm & _ & _ & Hb & _).
  - intros x y z. simpl. rewrite !Z.ltb_lt. lia.
  - intros x y _ _. simpl. rewrite !Z.ltb_lt. lia.
  - discriminate.
  - vm_compute. split; [discriminate | reflexivity].
  - exists lastInst, minInst, bits, body. split_and!; auto.
Defined.

(** ** The step of the monotonic loop optimization *)

(** A step above the bound is rejected. *)
Lemma monotonic_rejects_step_above_bound
    (F : Analyses) (cfg : Config) (uninitialized : SCEVOut)
    (L Inst : Z) (UseCalls : bool) :
  (∀ acc, isInterestingMemoryAccess F Inst = Some acc →
     stepSize (getInitValueFromSCEV F L (getSCEV F (Addr acc))
                 uninitialized).2 > MAX_STEP_SIZE) →
  MonotonicOptimizeHandler F cfg uninitialized L Inst UseCalls = ([], false).
Proof.
  intros Hstep. unfold MonotonicOptimizeHandler.
  destruct (getExitBlock F L) as [ExitBB|]; [|done].
  destruct (isInterestingMemoryAccess F Inst) as [acc|]; [|done].
  specialize (Hstep acc eq_refl).
  destruct (getInitValueFromSCEV F L (getSCEV F (Addr acc)) uninitialized)
    as [initType out].
  destruct (decide (initType = SEUnknown)); [done|].
  simpl in Hstep.
  destruct (stepSize out >? MAX_STEP_SIZE) eqn:Hgt; [done|].
  rewrite Z.gtb_ltb in Hgt. apply Z.ltb_ge in Hgt. lia.
Qed.

(** C8: the address of the load of [decreasingLoop] moves by -9 in each
    iteration, of absolute value above [MAX_STEP_SIZE]; the handler does
    not reject it but inserts the probe with the threshold 9 and the
    check at the exit, and the loop pass takes the load off the pending
    list. *)
Theorem negative_step_escapes_bound :
  MonotonicOptimizeHandler decreasingLoop defaultConfig (mkSCEVOut 0 0 0)
    1 1 false
  = ([InsertIfThen 1 (URemULT 100 CHECK_RANGE_LOOP 9)
        [instrumentAddress (OfValue 100) 32 false false];
      InsertIfThen 21 (InitValueNE 50 100)
        [instrumentAddress (OfValue 100) 32 false false]],
     true)
  ∧ (loopOptimization (λ _, decreasingLoop) defaultConfig noLocals [1] []).1
    = [].
Proof. by vm_compute. Qed.

(** ** What classification does to the function *)

Lemma extendedByChecks_refl (log : list IREdit) : extendedByChecks log log.
Proof. exists []. by rewrite app_nil_r. Qed.

Lemma extendedByChecks_trans (log1 log2 log3 : list IREdit) :
  extendedByChecks log1 log2 → extendedByChecks log2 log3 →
  extendedByChecks log1 log3.
Proof.
  intros (e1 & -> & H1) (e2 & -> & H2). exists (e1 ++ e2).
  split; [by rewrite app_assoc | by apply Forall_app].
Qed.

Lemma extendedByChecks_app (log edits : list IREdit) :
  Forall insertsCheck edits → extendedByChecks log (log ++ edits).
Proof. intros H. by exists edits. Qed.

Lemma foldl_extendedByChecks {S A : Type} (proj : S → list IREdit)
    (step : S → A → S) :
  (∀ s a, extendedByChecks (proj s) (proj (step s a))) →
  ∀ l s, extendedByChecks (proj s) (proj (foldl step s l)).
Proof.
  intros Hstep. induction l as [|a l IH]; intros s; simpl.
  - apply extendedByChecks_refl.
  - eapply extendedByChecks_trans; [apply Hstep | apply IH].
Qed.

Lemma optimizeInstrumentation_extends analyse Scale rank deleted log :
  extendedByChecks log (optimizeInstrumentation analyse Scale rank deleted log).2.
Proof.
  unfold optimizeInstrumentation.
  pose proof (foldl_extendedByChecks
    (λ st : list (Z * Z) * gset Z * list IREdit, st.2)
    (λ st (optInst : RankedEntry),
       let '(erased, deleted, log) := st in
       if decide (optInst.2.1 ∈ (erased : list (Z * Z))) then st
       else (optInst.2.2 ++ erased, mergedAway optInst ∪ deleted,
             log ++ [mergedGuard (analyse log) Scale optInst]))) as Hfold.
  specialize (Hfold ltac:(
    intros [[erased del] lg] optInst; simpl;
    destruct (decide (optInst.2.1 ∈ erased));
      [apply extendedByChecks_refl
      | apply extendedByChecks_app; by repeat constructor])).
  specialize (Hfold rank ([], deleted, log)). simpl in Hfold.
  by destruct (foldl _ _ rank) as [[? ?] ?].
Qed.

Lemma mrgNeighborChks_extends analyse Scale m deleted log :
  extendedByChecks log (mrgNeighborChks analyse Scale m deleted log).2.
Proof.
  unfold mrgNeighborChks.
  apply (foldl_extendedByChecks (λ st : gset Z * list IREdit, st.2)).
  intros [del lg] baseAddrOffsetSet. simpl.
  destruct (decide _); [|apply extendedByChecks_refl].
  apply optimizeInstrumentation_extends.
Qed.

Lemma sequentialExecuteOptimizationBoost_extends analyse Scale l log :
  extendedByChecks log
    (sequentialExecuteOptimizationBoost analyse Scale l log).2.
Proof.
  unfold sequentialExecuteOptimizationBoost.
  pose proof (mrgNeighborChks_extends analyse Scale
    (updateBaseAddrOffsetMap
       (baseAddrOffsetMapPreprocessing (analyse log) l)
       (rmNeighborChks (analyse log)
          (baseAddrOffsetMapPreprocessing (analyse log) l) ∅))
    (rmNeighborChks (analyse log)
       (baseAddrOffsetMapPreprocessing (analyse log) l) ∅) log) as H.
  by destruct (mrgNeighborChks _ _ _ _ _).
Qed.

Lemma editsOf_insertsCheck F cfg I PrevI UseCalls :
  Forall insertsCheck (editsOf (instrumentMopAt F cfg I PrevI UseCalls)).
Proof.
  assert (Hord : insertsCheck (ordinaryCheck F cfg I PrevI UseCalls)).
  { unfold ordinaryCheck. by destruct (MaybeMask _). }
  unfold instrumentMopAt, safeAccessTests.
  repeat match goal with
         | |- context [match ?x with _ => _ end] => destruct x
         end; simpl; by repeat constructor.
Qed.

Lemma InvariantOptimizeHandler_insertsCheck F cfg L Inst UseCalls :
  Forall insertsCheck (InvariantOptimizeHandler F cfg L Inst UseCalls).1.
Proof.
  unfold InvariantOptimizeHandler.
  destruct (isInterestingMemoryAccess F Inst) as [acc|]; [|constructor].
  destruct (getExitBlock F L) as [ExitBB|]; [|constructor].
  destruct (DT_dominatesBlock F Inst ExitBB).
  - apply editsOf_insertsCheck.
  - destruct (getParentLoop F L); simpl; by repeat constructor.
Qed.

Lemma MonotonicOptimizeHandler_insertsCheck F cfg uninit L Inst UseCalls :
  Forall insertsCheck (MonotonicOptimizeHandler F cfg uninit L Inst UseCalls).1.
Proof.
  unfold MonotonicOptimizeHandler.
  destruct (getExitBlock F L) as [ExitBB|]; [|constructor].
  destruct (isInterestingMemoryAccess F Inst) as [acc|]; [|constructor].
  destruct (getInitValueFromSCEV _ _ _ _) as [initType out].
  destruct (decide _); [constructor|].
  destruct (_ >? _); [constructor|].
  destruct (DT_dominatesBlock F Inst ExitBB); simpl; by repeat constructor.
Qed.

Lemma loopOptimization_extends analyse cfg uninit l log :
  extendedByChecks log (loopOptimization analyse cfg uninit l log).2.
Proof.
  unfold loopOptimization.
  pose proof (foldl_extendedByChecks
    (λ st : gset Z * list IREdit, st.2)
    (λ st Inst,
       let '(optimized, log) := st in
       let F := analyse log in
       match getLoopFor F (getParent F Inst) with
       | None => st
       | Some L =>
           let '(edits, inserted) :=
             if decide (loopOptimizationCategorise F L Inst = IBIO)
             then InvariantOptimizeHandler F cfg L Inst (useCalls cfg l)
             else MonotonicOptimizeHandler F cfg (uninit Inst) L Inst
                    (useCalls cfg l) in
           (if inserted then {[Inst]} ∪ optimized else optimized,
            log ++ edits)
       end)) as Hfold.
  specialize (Hfold ltac:(
    intros [optimized lg] Inst; simpl;
    destruct (getLoopFor _ _) as [L|]; [|apply extendedByChecks_refl];
    destruct (decide _);
      [ pose proof (InvariantOptimizeHandler_insertsCheck (analyse lg) cfg L
                      Inst (useCalls cfg l)) as H;
        destruct (InvariantOptimizeHandler _ _ _ _ _)
      | pose proof (MonotonicOptimizeHandler_insertsCheck (analyse lg) cfg
                      (uninit Inst) L Inst (useCalls cfg l)) as H;
        destruct (MonotonicOptimizeHandler _ _ _ _ _ _) ];
    by apply extendedByChecks_app)).
  specialize (Hfold l (∅, log)). simpl in Hfold.
  by destruct (foldl _ _ l).
Qed.

Lemma ASAN_Optimizations_extends analyse cfg uninit l log :
  extendedByChecks log (ASAN_Optimizations analyse cfg uninit l log).2.
Proof.
  unfold ASAN_Optimizations.
  pose proof (sequentialExecuteOptimizationBoost_extends analyse
    (MappingScale cfg)
    (sequentialExecuteOptimization (analyse log)
       (sequentialExecuteOptimizationPostDom (analyse log) l)) log) as Hboost.
  destruct (sequentialExecuteOptimizationBoost _ _ _ _) as [l3 log3].
  eapply extendedByChecks_trans; [exact Hboost|].
  apply loopOptimization_extends.
Qed.

Lemma foldl_prefix {S A : Type} (proj : S → list IREdit) (step : S → A → S) :
  (∀ s a, proj s `prefix_of` proj (step s a)) →
  ∀ l s, proj s `prefix_of` proj (foldl step s l).
Proof.
  intros Hstep. induction l as [|a l IH]; intros s; simpl; [done|].
  etrans; [apply Hstep | apply IH].
Qed.

Lemma instrumentAll_prefix analyse cfg l log :
  log `prefix_of` instrumentAll analyse cfg l log.
Proof.
  unfold instrumentAll.
  match goal with
  | |- _ `prefix_of` (foldl ?step _ _).2 =>
      apply (foldl_prefix (λ st : Z * list IREdit, st.2) step)
        with (l := l) (s := (0, log))
  end.
  intros [n lg] Inst. simpl. by apply prefix_app_r.
Qed.

(** C9, as stated, fails: analysing the function of [decreasingLoop]
    clones its three basic blocks, and the loop pass inserts a probe
    before the load and a check at the loop exit while it classifies;
    when the address is invariant, as in [invariantLoop], the loop pass
    creates a tracer variable at the function entry, stores the address
    into it before the load and checks it at the loop exit. *)
Lemma classification_changes_function :
  MyCloneAllBBs decreasingLoopInfo
  = [CloneBasicBlock 4; CloneBasicBlock 11; CloneBasicBlock 20]
  ∧ ASAN_Optimizations (λ _, decreasingLoop) defaultConfig noLocals [1; 2] []
    = ([],
       [InsertIfThen 1 (URemULT 100 CHECK_RANGE_LOOP 9)
          [instrumentAddress (OfValue 100) 32 false false];
        InsertIfThen 21 (InitValueNE 50 100)
          [instrumentAddress (OfValue 100) 32 false false]])
  ∧ ASAN_Optimizations (λ _, invariantLoop) defaultConfig noLocals [1; 2] []
    = ([],
       [CreateTracer 5 1; StoreTracer 5 1 None; StoreTracer 1 1 (Some 100);
        InsertIfThen 21 (TracerNonZero 1)
          [instrumentAddress (OfTracer 1) 32 false false]])
  ∧ ¬ classificationOnlyAnnotates (λ _, decreasingLoop) defaultConfig
        noLocals decreasingLoopInfo.
Proof.
  split_and!; [by vm_compute | by vm_compute | by vm_compute |].
  intros [_ Hlog]. specialize (Hlog [1; 2] [] eq_refl).
  by vm_compute in Hlog.
Qed.

(** C9, amended: analysing a function first clones every one of its
    basic blocks; the classifier sub-passes then extend the edits made
    so far only by insertions of checks, of guarded checks and of tracer
    code, which come from the merging of neighbor checks and from the
    loop pass (the post-dominance pass, the dominance pass and the
    removal of neighbor checks compute sets of sites and make no edit);
    no block is cloned during classification. *)
Theorem classification_only_inserts_checks
    (analyse : list IREdit → Analyses) (cfg : Config)
    (uninitialized : Z → SCEVOut) (fn : FunctionInfo)
    (ToInstrument : list Z) (log : list IREdit) :
  extendedByChecks log
    (ASAN_Optimizations analyse cfg uninitialized ToInstrument log).2
  ∧ (ASAN_Optimizations analyse cfg uninitialized ToInstrument log).2
    = (let F := analyse log in
       let l2 :=
         sequentialExecuteOptimization F
           (sequentialExecuteOptimizationPostDom F ToInstrument) in
       let m := baseAddrOffsetMapPreprocessing F l2 in
       let deleted := rmNeighborChks F m ∅ in
       let merged :=
         mrgNeighborChks analyse (MappingScale cfg)
           (updateBaseAddrOffsetMap m deleted) deleted log in
       (loopOptimization analyse cfg uninitialized
          (keepNonDeleted merged.1 l2) merged.2).2)
  ∧ (isExcluded fn = false →
     map CloneBasicBlock (BasicBlocks fn)
       `prefix_of` runOnFunction analyse cfg uninitialized fn).
Proof.
  split_and!.
  - apply ASAN_Optimizations_extends.
  - unfold ASAN_Optimizations, sequentialExecuteOptimizationBoost. simpl.
    by destruct (mrgNeighborChks _ _ _ _ _).
  - intros Hexcl. unfold runOnFunction. rewrite Hexcl.
    assert (Hlog0 : map CloneBasicBlock (BasicBlocks fn)
              `prefix_of` MyCloneAllBBs fn
                          ++ maybeInsertAsanInitAtFunctionEntry fn).
    { by apply prefix_app_r. }
    destruct (hasSanitizeAddress fn); simpl; [|done].
    destruct (memoryOperations fn) as [l|]; [|done].
    pose proof (ASAN_Optimizations_extends analyse cfg uninitialized l
      (MyCloneAllBBs fn ++ maybeInsertAsanInitAtFunctionEntry fn)) as Hext.
    destruct (ASAN_Optimizations _ _ _ _ _) as [final log1].
    destruct Hext as (edits & Hlog1 & _). simpl in Hlog1.
    etrans; [exact Hlog0|]. etrans; [|apply instrumentAll_prefix].
    rewrite Hlog1. by apply prefix_app_r.
Qed.
(** * Further properties of the pass *)

(** ** The shadow mapping *)

Lemma testbit_top (x k : Z) : 0 ≤ k → 2 ^ k ≤ x < 2 ^ (k + 1) →
  Z.testbit x k = true.
Proof.
  intros Hk Hx.
  assert (Z.log2 x = k) as <-.
  { apply Z.log2_unique; [done|]. by rewrite <- Z.add_1_r. }
  apply Z.bit_log2. lia.
Qed.

Lemma power_of_two_of_land_pred (x : Z) :
  0 < x → Z.land x (x - 1) = 0 → x = 2 ^ Z.log2 x.
Proof.
  intros Hx Hland.
  pose proof (Z.log2_spec x Hx) as [Hlo Hhi].
  pose proof (Z.log2_nonneg x) as Hk.
  destruct (decide (x = 2 ^ Z.log2 x)) as [|Hne]; [done|].
  exfalso.
  assert (Z.testbit (Z.land x (x - 1)) (Z.log2 x) = true) as Hbit.
  { rewrite Z.land_spec.
    rewrite (testbit_top x (Z.log2 x)), (testbit_top (x - 1) (Z.log2 x));
      [done|done| |done|].
    - rewrite <- Z.add_1_r in Hhi. lia.
    - rewrite <- Z.add_1_r in Hhi. lia. }
  rewrite Hland, Z.bits_0 in Hbit. done.
Qed.

Lemma lor_power_of_two (s k : Z) : 0 ≤ k → 0 ≤ s < 2 ^ k →
  Z.lor s (2 ^ k) = s + 2 ^ k.
Proof.
  intros Hk Hs.
  assert (Z.land s (2 ^ k) = 0) as Hland.
  { apply Z.bits_inj'. intros n Hn.
    rewrite Z.land_spec, Z.bits_0, Z.pow2_bits_eqb by done.
    destruct (Z.eqb_spec k n) as [<-|]; [|apply andb_false_r].
    rewrite andb_true_r.
    destruct (decide (s = 0)) as [->|]; [apply Z.bits_0|].
    apply Z.bits_above_log2; [lia|].
    apply Z.log2_lt_pow2; lia. }
  rewrite <- Z.lxor_lor by done.
  symmetry. by apply Z.add_nocarry_lxor.
Qed.

Lemma getShadowMapping_Offset_range opts T LongSize IsKasan :
  (∀ v, ClMappingOffset opts = Some v → 0 ≤ v < 2 ^ 64) →
  0 ≤ Offset (getShadowMapping opts T LongSize IsKasan) < 2 ^ 64.
Proof.
  intros Hopt. unfold getShadowMapping. cbn [Offset].
  destruct (ClMappingOffset opts) as [v|]; [by apply Hopt|].
  cbn [default].
  repeat match goal with
         | |- context [if ?c then _ else _] => destruct c
         end; by vm_compute.
Qed.

Lemma getShadowMapping_or opts T LongSize IsKasan :
  let Mapping := getShadowMapping opts T LongSize IsKasan in
  OrShadowOffset Mapping = true →
  Z.land (Offset Mapping) (to_uint64 (Offset Mapping - 1)) = 0
  ∧ Offset Mapping ≠ kDynamicShadowSentinel
  ∧ getArch T ≠ aarch64 ∧ getArch T ≠ ppc64 ∧ getArch T ≠ ppc64le
  ∧ getArch T ≠ systemz.
Proof.
  intros Mapping. subst Mapping. unfold getShadowMapping.
  cbn [OrShadowOffset Offset].
  rewrite !andb_true_iff, !negb_true_iff, !orb_false_iff,
    !bool_decide_eq_false, Z.eqb_eq, Z.eqb_neq.
  tauto.
Qed.

(** X1 [getShadowMapping]: the mapping uses OR only when the offset is
    zero or a power of two below 2^64, is not the sentinel of a dynamic
    shadow, and the architecture is none of AArch64, PPC64 and
    SystemZ. *)
Theorem or_mapping_only_for_power_of_two opts T LongSize IsKasan :
  let Mapping := getShadowMapping opts T LongSize IsKasan in
  (∀ v, ClMappingOffset opts = Some v → 0 ≤ v < 2 ^ 64) →
  OrShadowOffset Mapping = true →
  (Offset Mapping = 0 ∨ ∃ k, 0 ≤ k < 64 ∧ Offset Mapping = 2 ^ k)
  ∧ Offset Mapping ≠ kDynamicShadowSentinel
  ∧ getArch T ∉ [aarch64; ppc64; ppc64le; systemz].
Proof.
  intros Mapping Hopt Hor.
  pose proof (getShadowMapping_Offset_range opts T LongSize IsKasan Hopt)
    as Hrange.
  pose proof (getShadowMapping_or opts T LongSize IsKasan Hor)
    as (Hland & Hdyn & Ha & Hp & Hp' & Hs).
  fold Mapping in Hrange, Hland, Hdyn.
  split; [|split; [done|]].
  - destruct (decide (Offset Mapping = 0)) as [|Hne]; [by left|right].
    unfold to_uint64 in Hland.
    rewrite Z.mod_small in Hland by lia.
    exists (Z.log2 (Offset Mapping)).
    split; [|apply power_of_two_of_land_pred; [lia|done]].
    split; [apply Z.log2_nonneg|].
    apply Z.log2_lt_pow2; lia.
  - rewrite !elem_of_cons, elem_of_nil. tauto.
Qed.

(** X2 [getShadowMapping], [memToShadow]: where the mapping uses OR, the
    shadow address of an address whose shifted value is below the
    offset is the shifted value plus the offset, which is what the
    mapping with ADD computes. *)
Theorem or_shadow_offset_adds opts T LongSize IsKasan cfg a :
  let Mapping := getShadowMapping opts T LongSize IsKasan in
  (∀ v, ClMappingOffset opts = Some v → 0 ≤ v < 2 ^ 64) →
  OrShadowOffset Mapping = true →
  0 ≤ Z.shiftr a (Scale Mapping) < Offset Mapping →
  memToShadow (withMapping cfg Mapping) a
  = Z.shiftr a (Scale Mapping) + Offset Mapping
  ∧ memToShadow (withMapping cfg Mapping) a
    = memToShadow
        (withMapping cfg
           {| Scale := Scale Mapping; Offset := Offset Mapping;
              OrShadowOffset := false |}) a.
Proof.
  intros Mapping Hopt Hor Ha.
  pose proof (getShadowMapping_Offset_range opts T LongSize IsKasan Hopt)
    as Hrange.
  pose proof (getShadowMapping_or opts T LongSize IsKasan Hor)
    as (Hland & _).
  fold Mapping in Hrange, Hland.
  unfold memToShadow, withMapping.
  cbn [MappingScale MappingOffset MappingOrShadowOffset Scale Offset
       OrShadowOffset].
  rewrite Hor.
  destruct (Z.eqb_spec (Offset Mapping) 0) as [H0|Hne]; [lia|].
  unfold to_uint64 in Hland. rewrite Z.mod_small in Hland by lia.
  apply power_of_two_of_land_pred in Hland; [|lia].
  pose proof (Z.log2_nonneg (Offset Mapping)) as Hk.
  assert (Z.log2 (Offset Mapping) < 64) as Hk64
    by (apply Z.log2_lt_pow2; lia).
  rewrite Hland in Ha |- *.
  rewrite lor_power_of_two by lia.
  split; [done|].
  unfold to_uint64. rewrite Z.mod_small; [done|].
  assert (2 ^ Z.log2 (Offset Mapping) ≤ 2 ^ 63)
    by (apply Z.pow_le_mono_r; lia).
  lia.
Qed.

Lemma or_mapping_only_for_power_of_two_witness :
  (Offset (getShadowMapping noMappingOptions linux_x86 32 false) = 0
   ∨ ∃ k, 0 ≤ k < 64
          ∧ Offset (getShadowMapping noMappingOptions linux_x86 32 false)
            = 2 ^ k)
  ∧ Offset (getShadowMapping noMappingOptions linux_x86 32 false)
    ≠ kDynamicShadowSentinel
  ∧ getArch linux_x86 ∉ [aarch64; ppc64; ppc64le; systemz].
Proof.
  apply (or_mapping_only_for_power_of_two noMappingOptions linux_x86 32 false).
  - intros v Hv. discriminate Hv.
  - reflexivity.
Defined.

Lemma or_shadow_offset_adds_witness :
  memToShadow
    (withMapping defaultConfig
       (getShadowMapping noMappingOptions linux_x86 32 false)) 0x8000000
  = 0x1000000 + 2 ^ 29.
Proof.
  destruct (or_shadow_offset_adds noMappingOptions linux_x86 32 false
              defaultConfig 0x8000000) as [Hval _].
  - intros v Hv. discriminate Hv.
  - reflexivity.
  - vm_compute. split; [discriminate | reflexivity].
  - exact Hval.
Defined.

(** ** The index of an access size *)

Lemma usualSizeAndAlignment_sizes Granularity TypeSize Alignment :
  usualSizeAndAlignment Granularity TypeSize Alignment = true →
  usualSize TypeSize.
Proof.
  unfold usualSizeAndAlignment, usualSize.
  rewrite andb_true_iff, !orb_true_iff, !bool_decide_eq_true. tauto.
Qed.

(** X3 [TypeSizeToSizeIndex], [doInstrumentAddress]: every single check
    that [doInstrumentAddress] or the handlers emit has an access size
    whose index passes the assertion of [TypeSizeToSizeIndex], and the
    callback of that index is the one named after the size in bytes. *)
Theorem single_check_has_size_index (Addr : Z) (Alignment Granularity : Z)
    (TypeSize : Z) (IsWrite UseCalls : bool) (Scale : Z) (acc : MemAccess)
    (op : AddrOperand) (a : AddrOperand) (ts : Z) (w u : bool) :
  doInstrumentAddress Addr Alignment Granularity TypeSize IsWrite UseCalls
    = instrumentAddress a ts w u
  ∨ fullCheck Scale op acc UseCalls = instrumentAddress a ts w u →
  0 ≤ TypeSizeToSizeIndex ts < kNumberOfAccessSizes
  ∧ callbackAccessSize (TypeSizeToSizeIndex ts) = ts / 8.
Proof.
  intros H.
  assert (usualSize ts) as Hts.
  { destruct H as [H|H].
    - unfold doInstrumentAddress in H.
      destruct (usualSizeAndAlignment _ _ _) eqn:Husual; [|discriminate].
      injection H as _ Hts _ _. subst ts.
      by eapply usualSizeAndAlignment_sizes.
    - unfold fullCheck in H.
      destruct (usualSizeAndAlignment _ _ _) eqn:Husual;
        [|discriminate].
      injection H as _ Hts _ _. subst ts.
      apply usualSizeAndAlignment_sizes in Husual.
      unfold usualSize, to_uint32 in *.
      destruct Husual as [-> | [-> | [-> | [-> | ->]]]]; vm_compute; tauto. }
  destruct Hts as [-> | [-> | [-> | [-> | ->]]]]; by vm_compute.
Qed.

Lemma single_check_has_size_index_witness :
  0 ≤ TypeSizeToSizeIndex 32 < kNumberOfAccessSizes
  ∧ callbackAccessSize (TypeSizeToSizeIndex 32) = 32 / 8.
Proof.
  apply (single_check_has_size_index 100 4 8 32 false false 3
           (mkMemAccess 100 false 32 4 None) (OfValue 100) (OfValue 100) 32
           false false).
  left. reflexivity.
Defined.

(** ** The fake-stack size class *)

(** X4 [StackMallocSizeClass]: for a frame of at most
    [kMaxStackMallocSize] bytes the loop returns within eleven rounds;
    the class is at most [kMaxAsanStackMallocSizeClass], the frame fits
    the size of the class, and it does not fit the size of the class
    below. *)
Theorem stack_malloc_size_class (rounds : nat) (LocalStackSize : Z) :
  0 ≤ LocalStackSize ≤ kMaxStackMallocSize → (11 ≤ rounds)%nat →
  ∃ i, StackMallocSizeClass rounds LocalStackSize = Some i
       ∧ 0 ≤ i ≤ kMaxAsanStackMallocSizeClass
       ∧ LocalStackSize ≤ kMinStackMallocSize * 2 ^ i
       ∧ (0 < i → kMinStackMallocSize * 2 ^ (i - 1) < LocalStackSize).
Proof.
  unfold kMaxStackMallocSize, kMaxAsanStackMallocSizeClass,
    kMinStackMallocSize, StackMallocSizeClass.
  intros Hsize Hrounds.
  do 11 (destruct rounds as [|rounds]; [lia|]).
  unfold kMinStackMallocSize.
  cbn [StackMallocSizeClassLoop].
  repeat match goal with
         | |- context [if ?x <=? ?y then _ else _] =>
             let c := eval vm_compute in y in
             change y with c;
             destruct (Z.leb_spec x c);
             [eexists; split; [reflexivity|]; vm_compute (2 ^ _);
              vm_compute (_ - _); lia|]
         end.
  lia.
Qed.

Lemma stack_malloc_size_class_witness :
  ∃ i, StackMallocSizeClass 11 200 = Some i
       ∧ 0 ≤ i ≤ kMaxAsanStackMallocSizeClass
       ∧ 200 ≤ kMinStackMallocSize * 2 ^ i
       ∧ (0 < i → kMinStackMallocSize * 2 ^ (i - 1) < 200).
Proof.
  apply (stack_malloc_size_class 11 200).
  - vm_compute. split; discriminate.
  - lia.
Defined.

(** ** The redzone of a global *)

Lemma RedzoneSizeForScale_power (MappingScale : Z) :
  0 ≤ MappingScale < 32 →
  ∃ k, 5 ≤ k < 32 ∧ RedzoneSizeForScale MappingScale = 2 ^ k.
Proof.
  intros Hs. unfold RedzoneSizeForScale, to_uint32.
  rewrite Z.shiftl_1_l.
  assert (2 ^ MappingScale < 2 ^ 32) by (apply Z.pow_lt_mono_r; lia).
  assert (0 < 2 ^ MappingScale) by (apply Z.pow_pos_nonneg; lia).
  rewrite Z.mod_small by lia.
  destruct (decide (MappingScale < 5)) as [Hlt|Hge].
  - exists 5. split; [lia|].
    assert (2 ^ MappingScale ≤ 2 ^ 5) by (apply Z.pow_le_mono_r; lia).
    change (2 ^ 5) with 32 in *. lia.
  - exists MappingScale. split; [lia|].
    assert (2 ^ 5 ≤ 2 ^ MappingScale) by (apply Z.pow_le_mono_r; lia).
    change (2 ^ 5) with 32 in *. lia.
Qed.

Lemma divide_power_le (j k : Z) : 0 ≤ j ≤ k → (2 ^ j | 2 ^ k).
Proof.
  intros H. exists (2 ^ (k - j)).
  rewrite <- Z.pow_add_r by lia. f_equal. lia.
Qed.

(** X5 [InstrumentGlobals], [RedzoneSizeForScale]: the right redzone of
    a global is at least the minimal redzone and less than two redzones
    wide, the redzone is between the minimal one and the larger of the
    minimal one and [kMaxGlobalRedzone], and the size of the global with
    its right redzone is a multiple of the minimal redzone: the
    assertion of the loop holds. *)
Theorem global_redzone_rounds_up (MappingScale SizeInBytes : Z) :
  0 ≤ MappingScale < 32 → 0 ≤ SizeInBytes < 2 ^ 64 →
  let MinRZ := RedzoneSizeForScale MappingScale in
  let '(RZ, RightRedzoneSize) := globalRedzone MinRZ SizeInBytes in
  to_uint64 (RightRedzoneSize + SizeInBytes) mod MinRZ = 0
  ∧ MinRZ ≤ RZ ≤ Z.max MinRZ kMaxGlobalRedzone
  ∧ RZ mod MinRZ = 0
  ∧ RZ ≤ RightRedzoneSize < RZ + MinRZ.
Proof.
  intros Hs Hsize MinRZ.
  destruct (RedzoneSizeForScale_power MappingScale Hs) as (k & Hk & Hm).
  fold MinRZ in Hm. clearbody MinRZ. subst MinRZ.
  unfold globalRedzone, kMaxGlobalRedzone.
  set (m := 2 ^ k).
  assert (32 ≤ m) as Hm32.
  { change 32 with (2 ^ 5). apply Z.pow_le_mono_r; lia. }
  assert (m < 2 ^ 32) as Hm32' by (apply Z.pow_lt_mono_r; lia).
  assert (m | 2 ^ 64) as Hdiv64 by (apply divide_power_le; lia).
  set (q := SizeInBytes / m / 4).
  assert (0 ≤ q * m ≤ SizeInBytes) as Hqm.
  { unfold q.
    pose proof (Z.mul_div_le SizeInBytes m ltac:(lia)).
    pose proof (Z.mul_div_le (SizeInBytes / m) 4 ltac:(lia)).
    assert (0 ≤ SizeInBytes / m) by (apply Z.div_pos; lia).
    assert (0 ≤ SizeInBytes / m / 4) by (apply Z.div_pos; lia).
    nia. }
  assert (to_uint64 (q * m) = q * m) as ->
    by (unfold to_uint64; apply Z.mod_small; lia).
  set (RZ := Z.max m (Z.min (2 ^ 18) (q * m))).
  assert (m ≤ RZ ≤ Z.max m (2 ^ 18)) as HRZ by (unfold RZ; lia).
  assert (m | RZ) as HdivRZ.
  { unfold RZ.
    destruct (Z.max_spec m (Z.min (2 ^ 18) (q * m))) as [[Hmax ->]|[_ ->]];
      [|apply Z.divide_refl].
    destruct (Z.min_spec (2 ^ 18) (q * m)) as [[Hlt Hmin]|[_ Hmin]];
      rewrite Hmin in Hmax |- *.
    - destruct (decide (k ≤ 18)); [apply divide_power_le; lia|].
      assert (2 ^ 18 < m) by (apply Z.pow_lt_mono_r; lia).
      lia.
    - apply Z.divide_factor_r. }
  assert (RZ < 2 ^ 32) as HRZ32 by lia.
  pose proof (Z.mod_pos_bound SizeInBytes m ltac:(lia)) as Hr.
  assert (RZ mod m = 0) as HRZmod by (apply Z.mod_divide; [lia|done]).
  assert (∀ x, (m | x) → to_uint64 x mod m = 0) as Hwrap.
  { intros x Hx. unfold to_uint64.
    apply Z.mod_divide; [lia|].
    rewrite Z.mod_eq by lia.
    apply Z.divide_sub_r; [done|].
    apply Z.divide_mul_l. done. }
  destruct (Z.eqb_spec (SizeInBytes mod m) 0) as [H0|Hne]; cbn [negb].
  - split; [|split_and!; [lia|lia|done|lia|lia]].
    apply Hwrap. apply Z.divide_add_r; [done|].
    apply Z.mod_divide; [lia|done].
  - assert (to_uint64 (m - SizeInBytes mod m) = m - SizeInBytes mod m) as ->
      by (unfold to_uint64; apply Z.mod_small; lia).
    assert (to_uint64 (RZ + (m - SizeInBytes mod m))
            = RZ + (m - SizeInBytes mod m)) as ->
      by (unfold to_uint64; apply Z.mod_small; lia).
    split; [|split_and!; [lia|lia|done|lia|lia]].
    apply Hwrap.
    replace (RZ + (m - SizeInBytes mod m) + SizeInBytes)
      with (RZ + (m + m * (SizeInBytes / m)))
      by (rewrite (Z.div_mod SizeInBytes m) at 3 by lia; lia).
    apply Z.divide_add_r; [done|].
    apply Z.divide_add_r; [apply Z.divide_refl|apply Z.divide_factor_l].
Qed.

Lemma global_redzone_rounds_up_witness :
  let MinRZ := RedzoneSizeForScale 3 in
  let '(RZ, RightRedzoneSize) := globalRedzone MinRZ 1000 in
  to_uint64 (RightRedzoneSize + 1000) mod MinRZ = 0
  ∧ MinRZ ≤ RZ ≤ Z.max MinRZ kMaxGlobalRedzone
  ∧ RZ mod MinRZ = 0
  ∧ RZ ≤ RightRedzoneSize < RZ + MinRZ.
Proof.
  apply (global_redzone_rounds_up 3 1000).
  - lia.
  - vm_compute. split; [discriminate | reflexivity].
Defined.


(** ** Redzones around a dynamic alloca *)

(** X6 [handleDynamicAllocaCall]: when the sizes do not overflow the
    pointer width (the alignment is at most 2^29), the new alloca
    holds, in this order, a left redzone of [Align] bytes, which is at
    least 32, the memory of the old alloca, a padding of less than 32
    bytes that ends at a multiple of 32 bytes from the new address, and
    a right redzone of 32 bytes. *)
Theorem dynamic_alloca_redzones (LongSize Alignment ElementSize : Z)
    (ArraySize NewAlloca : Z) :
  LongSize = 32 ∨ LongSize = 64 →
  0 ≤ Alignment ≤ 2 ^ 29 →
  0 ≤ ElementSize < 2 ^ LongSize → 0 ≤ ArraySize < 2 ^ LongSize →
  0 ≤ NewAlloca →
  NewAlloca + ArraySize * ElementSize + Z.max 32 Alignment + 64
    < 2 ^ LongSize →
  let d := handleDynamicAllocaCall LongSize Alignment ElementSize ArraySize
             NewAlloca in
  32 ≤ Align d
  ∧ OldSize d = ArraySize * ElementSize
  ∧ NewAddress d = NewAlloca + Align d
  ∧ 0 ≤ PartialPadding d < 32
  ∧ (OldSize d + PartialPadding d) mod 32 = 0
  ∧ NewSize d = Align d + OldSize d + PartialPadding d + 32.
Proof.
  intros HL HA HE HS HN Hfit d. subst d.
  unfold handleDynamicAllocaCall, kAllocaRzSize, to_uint32.
  cbn [Align OldSize PartialPadding NewSize NewAddress].
  assert (2 ^ 32 ≤ 2 ^ LongSize) as HL32.
  { destruct HL as [-> | ->]; by vm_compute. }
  set (W := 2 ^ LongSize) in *.
  assert (0 ≤ ArraySize * ElementSize) as Hprod by nia.
  rewrite (Z.mod_small ArraySize), (Z.mod_small ElementSize) by lia.
  rewrite (Z.mod_small (ArraySize * ElementSize)) by lia.
  set (Old := ArraySize * ElementSize) in *.
  change (32 - 1) with (Z.ones 5).
  rewrite (Z.mod_small (Z.ones 5)) by (by vm_compute (Z.ones 5); lia).
  rewrite Z.land_ones by lia. change (2 ^ 5) with 32.
  pose proof (Z.mod_pos_bound Old 32 ltac:(lia)) as Hr.
  rewrite (Z.mod_small (32 - Old mod 32)) by lia.
  rewrite (Z.mod_small (Z.max 32 Alignment + 32) (2 ^ 32)) by lia.
  rewrite (Z.mod_small (Z.max 32 Alignment + 32) W) by lia.
  rewrite (Z.mod_small (Z.max 32 Alignment) W) by lia.
  rewrite (Z.mod_small (NewAlloca + _)) by lia.
  assert ((Old + (32 - Old mod 32)) mod 32 = 0) as Hpad.
  { replace (Old + (32 - Old mod 32))
      with (32 + 32 * (Old / 32))
      by (pose proof (Z.div_mod Old 32 ltac:(lia)); lia).
    apply Z.mod_divide; [lia|].
    apply Z.divide_add_r; [apply Z.divide_refl|apply Z.divide_factor_l]. }
  destruct (Z.eqb_spec (32 - Old mod 32) 32) as [Heq|Hne]; cbn [negb].
  - rewrite !Z.add_0_r.
    rewrite (Z.mod_small (Z.max 32 Alignment + 32)) by lia.
    rewrite (Z.mod_small (Old + _) W) by lia.
    split_and!; try lia.
  - rewrite (Z.mod_small (Z.max 32 Alignment + 32 + _) W) by lia.
    rewrite (Z.mod_small (Old + _) W) by lia.
    split_and!; try lia.
Qed.

Lemma dynamic_alloca_redzones_witness :
  let d := handleDynamicAllocaCall 64 16 4 25 0x7000 in
  32 ≤ Align d
  ∧ OldSize d = 25 * 4
  ∧ NewAddress d = 0x7000 + Align d
  ∧ 0 ≤ PartialPadding d < 32
  ∧ (OldSize d + PartialPadding d) mod 32 = 0
  ∧ NewSize d = Align d + OldSize d + PartialPadding d + 32.
Proof.
  apply (dynamic_alloca_redzones 64 16 4 25 0x7000).
  - by right.
  - vm_compute. split; discriminate.
  - vm_compute. split; [discriminate | reflexivity].
  - vm_compute. split; [discriminate | reflexivity].
  - lia.
  - vm_compute. reflexivity.
Defined.

(** ** Poisoning the shadow of a frame *)

Lemma byteAt_range (bytes : list Z) (i : nat) :
  allBytes bytes → 0 ≤ byteAt bytes i < 256.
Proof.
  intros Hall. unfold byteAt.
  destruct (bytes !! i) as [b|] eqn:Hb; cbn [default]; [|lia].
  by apply (Forall_lookup_1 _ _ _ _ Hall Hb).
Qed.

Lemma packLE_bound (l : list Z) :
  allBytes l → 0 ≤ packLE l < 2 ^ (8 * Z.of_nat (length l)).
Proof.
  induction 1 as [|b l Hb _ IH]; [by vm_compute|].
  cbn [packLE foldr length]. fold (packLE l).
  replace (8 * Z.of_nat (S (length l))) with (8 + 8 * Z.of_nat (length l))
    by lia.
  rewrite Z.pow_add_r by lia. change (2 ^ 8) with 256. lia.
Qed.

Lemma packLE_app (l1 l2 : list Z) :
  packLE (l1 ++ l2)
  = packLE l1 + 2 ^ (8 * Z.of_nat (length l1)) * packLE l2.
Proof.
  induction l1 as [|b l1 IH]; cbn [app length].
  - change (2 ^ (8 * Z.of_nat 0)) with 1. cbn [packLE foldr]. lia.
  - cbn [packLE foldr]. fold (packLE (l1 ++ l2)) (packLE l1). rewrite IH.
    replace (8 * Z.of_nat (S (length l1))) with (8 + 8 * Z.of_nat (length l1))
      by lia.
    rewrite Z.pow_add_r by lia. change (2 ^ 8) with 256. lia.
Qed.

Lemma packLE_byte (l : list Z) : allBytes l → ∀ (k : nat) (b : Z),
  l !! k = Some b → Z.shiftr (packLE l) (8 * Z.of_nat k) mod 256 = b.
Proof.
  induction 1 as [|b0 l Hb0 Hall IH]; intros k b Hk; [done|].
  pose proof (packLE_bound l Hall) as Hbound.
  cbn [packLE foldr]. fold (packLE l).
  destruct k as [|k]; cbn [lookup list_lookup] in Hk.
  - injection Hk as Heq. subst b. rewrite Z.shiftr_0_r.
    replace (b0 + 256 * packLE l) with (b0 + packLE l * 256) by lia.
    rewrite Z.mod_add by lia.
    apply Z.mod_small. lia.
  - rewrite <- (IH k b Hk).
    replace (8 * Z.of_nat (S k)) with (8 + 8 * Z.of_nat k) by lia.
    rewrite <- Z.shiftr_shiftr by lia.
    f_equal. f_equal.
    rewrite Z.shiftr_div_pow2 by lia. change (2 ^ 8) with 256.
    replace (b0 + 256 * packLE l) with (b0 + packLE l * 256) by lia.
    rewrite Z.div_add by lia.
    rewrite (Z.div_small b0) by lia. lia.
Qed.

Lemma lor_shiftl_add (a b n : Z) : 0 ≤ n → 0 ≤ a < 2 ^ n → 0 ≤ b →
  Z.lor a (Z.shiftl b n) = a + b * 2 ^ n.
Proof.
  intros Hn Ha Hb.
  assert (Z.land a (Z.shiftl b n) = 0) as Hland.
  { apply Z.bits_inj'. intros i Hi.
    rewrite Z.land_spec, Z.bits_0.
    destruct (decide (i < n)).
    - rewrite Z.shiftl_spec_low by done. apply andb_false_r.
    - destruct (decide (a = 0)) as [->|]; [by rewrite Z.bits_0|].
      rewrite (Z.bits_above_log2 a i); [done|lia|].
      assert (Z.log2 a < n) by (apply Z.log2_lt_pow2; lia). lia. }
  rewrite <- Z.lxor_lor by done.
  rewrite <- Z.add_nocarry_lxor by done.
  by rewrite Z.shiftl_mul_pow2.
Qed.

Section StoreValue.
Variable ShadowBytes : list Z.
Variable i : nat.
Hypothesis bytes : allBytes ShadowBytes.

Let byte (j : nat) : Z := byteAt ShadowBytes (i + j).

Lemma storeValue_little_endian (n : nat) : ∀ (j0 : nat) (Val : Z),
  (j0 + n ≤ 8)%nat → 0 ≤ Val < 2 ^ (8 * Z.of_nat j0) →
  foldl (λ Val j,
           Z.lor Val (to_uint64 (Z.shiftl (byteAt ShadowBytes (i + j))
                                   (8 * Z.of_nat j))))
        Val (seq j0 n)
  = Val + 2 ^ (8 * Z.of_nat j0) * packLE (byte <$> seq j0 n).
Proof.
  induction n as [|n IH]; intros j0 Val Hj HVal.
  - cbn. lia.
  - cbn [seq foldl fmap list_fmap packLE foldr].
    fold (packLE (byte <$> seq (S j0) n)).
    pose proof (byteAt_range ShadowBytes (i + j0) bytes) as Hb.
    fold (byte j0) in Hb |- *.
    assert (2 ^ (8 * Z.of_nat (S j0)) = 2 ^ (8 * Z.of_nat j0) * 256) as Hpow.
    { replace (8 * Z.of_nat (S j0)) with (8 * Z.of_nat j0 + 8) by lia.
      by rewrite Z.pow_add_r by lia. }
    assert (2 ^ (8 * Z.of_nat (S j0)) ≤ 2 ^ 64) as H64
      by (apply Z.pow_le_mono_r; lia).
    assert (0 < 2 ^ (8 * Z.of_nat j0)) by (apply Z.pow_pos_nonneg; lia).
    assert (to_uint64 (Z.shiftl (byte j0) (8 * Z.of_nat j0))
            = Z.shiftl (byte j0) (8 * Z.of_nat j0)) as ->.
    { unfold to_uint64. apply Z.mod_small.
      rewrite Z.shiftl_mul_pow2 by lia. nia. }
    rewrite lor_shiftl_add by lia.
    rewrite IH; [|lia|nia].
    rewrite Hpow. lia.
Qed.

Lemma storeValue_big_endian (n : nat) : ∀ (j0 : nat) (Val : Z),
  (j0 + n ≤ 8)%nat → 0 ≤ Val < 2 ^ (8 * Z.of_nat j0) →
  foldl (λ Val j,
           Z.lor (to_uint64 (Z.shiftl Val 8)) (byteAt ShadowBytes (i + j)))
        Val (seq j0 n)
  = Val * 2 ^ (8 * Z.of_nat n) + packLE (reverse (byte <$> seq j0 n)).
Proof.
  induction n as [|n IH]; intros j0 Val Hj HVal.
  - cbn. lia.
  - cbn [seq foldl fmap list_fmap].
    pose proof (byteAt_range ShadowBytes (i + j0) bytes) as Hb.
    fold (byte j0) in Hb |- *.
    assert (2 ^ (8 * Z.of_nat (S j0)) = 2 ^ (8 * Z.of_nat j0) * 256) as Hpow.
    { replace (8 * Z.of_nat (S j0)) with (8 * Z.of_nat j0 + 8) by lia.
      by rewrite Z.pow_add_r by lia. }
    assert (2 ^ (8 * Z.of_nat (S j0)) ≤ 2 ^ 64) as H64
      by (apply Z.pow_le_mono_r; lia).
    assert (to_uint64 (Z.shiftl Val 8) = Z.shiftl Val 8) as ->.
    { unfold to_uint64. apply Z.mod_small.
      rewrite Z.shiftl_mul_pow2 by lia. change (2 ^ 8) with 256. lia. }
    rewrite Z.lor_comm.
    rewrite lor_shiftl_add by lia. change (2 ^ 8) with 256.
    rewrite IH; [|lia|lia].
    rewrite reverse_cons, packLE_app, length_reverse, length_fmap, length_seq.
    cbn [packLE foldr].
    replace (8 * Z.of_nat (S n)) with (8 + 8 * Z.of_nat n) by lia.
    rewrite Z.pow_add_r by lia. change (2 ^ 8) with 256. lia.
Qed.

Lemma storeByte_storeValue (IsLittleEndian : bool) (size k : nat) :
  (size ≤ 8)%nat → (k < size)%nat →
  storeByte IsLittleEndian
    (mkShadowStore i size (storeValue IsLittleEndian ShadowBytes i size)) k
  = byteAt ShadowBytes (i + k).
Proof.
  intros Hsize Hk.
  assert (allBytes (byte <$> seq 0 size)) as Hall.
  { apply Forall_fmap, Forall_forall. intros j _.
    apply byteAt_range, bytes. }
  unfold storeByte, storeValue. cbn [StoreVal StoreSizeInBytes].
  destruct IsLittleEndian.
  - rewrite (storeValue_little_endian size 0 0) by (cbn; lia).
    change (2 ^ (8 * Z.of_nat 0)) with 1. rewrite Z.add_0_l, Z.mul_1_l.
    pose proof (packLE_bound _ Hall) as Hbound.
    rewrite length_fmap, length_seq in Hbound.
    rewrite (Z.mod_small (packLE _)) by done.
    apply packLE_byte; [done|].
    by rewrite list_lookup_fmap, lookup_seq_lt.
  - rewrite (storeValue_big_endian size 0 0) by (cbn; lia).
    rewrite Z.mul_0_l, Z.add_0_l.
    assert (allBytes (reverse (byte <$> seq 0 size))) as Hall'
      by by apply Forall_reverse.
    pose proof (packLE_bound _ Hall') as Hbound.
    rewrite length_reverse, length_fmap, length_seq in Hbound.
    rewrite (Z.mod_small (packLE _)) by done.
    apply packLE_byte; [done|].
    rewrite reverse_lookup by (rewrite length_fmap, length_seq; lia).
    rewrite length_fmap, length_seq, list_lookup_fmap.
    replace (size - S (size - 1 - k))%nat with k by lia.
    by rewrite lookup_seq_lt.
Qed.
End StoreValue.

(** The sizes a store can have. *)
Lemma halveWhile_fit (Largest room : nat) :
  Largest = 4%nat ∨ Largest = 8%nat → (1 ≤ room)%nat →
  ∃ size, halveWhile Largest (λ size, (room <? size)%nat) Largest = Some size
          ∧ (size = 1 ∨ size = 2 ∨ size = 4 ∨ size = 8)%nat
          ∧ (size ≤ room)%nat ∧ (size ≤ Largest)%nat.
Proof.
  intros [-> | ->] Hroom; cbn [halveWhile];
    repeat match goal with
           | |- context [(room <? ?n)%nat] =>
               destruct (Nat.ltb_spec room n);
               [change (n / 2)%nat with (Nat.div2 n); cbn [Nat.div2]
               |eexists; split; [reflexivity|lia]]
           end; lia.
Qed.

Lemma trimTrailingZeros_size (ShadowMask : list Z) (i size : nat) :
  (size = 1 ∨ size = 2 ∨ size = 4 ∨ size = 8)%nat →
  ∃ size', trimTrailingZeros ShadowMask i (size - 1) size = Some size'
           ∧ (size' = 1 ∨ size' = 2 ∨ size' = 4 ∨ size' = 8)%nat
           ∧ (size' ≤ size)%nat.
Proof.
  intros [-> | [-> | [-> | ->]]]; cbn [Nat.sub trimTrailingZeros];
    repeat match goal with
           | |- context [byteAt ShadowMask ?p =? 0] =>
               destruct (byteAt ShadowMask p =? 0);
               [vm_compute (halveWhile _ _ _); cbn [mbind option_bind]
               |eexists; split; [reflexivity|lia]]
           end;
    (eexists; split; [reflexivity|lia]).
Qed.

(** What [copyToShadowInlineLoop] returns from [i] on. *)
Lemma copyToShadowInlineLoop_stores (IsLittleEndian : bool) (Largest : nat)
    (ShadowMask ShadowBytes : list Z) (End : nat) :
  Largest = 4%nat ∨ Largest = 8%nat →
  ∀ (rounds i : nat), (End - i ≤ rounds)%nat →
  ∃ stores,
    copyToShadowInlineLoop rounds IsLittleEndian Largest ShadowMask
      ShadowBytes i End = Some stores
    ∧ storesAscending i stores
    ∧ Forall (λ s,
        (StoreOffset s + StoreSizeInBytes s ≤ End)%nat
        ∧ (StoreSizeInBytes s = 1 ∨ StoreSizeInBytes s = 2
           ∨ StoreSizeInBytes s = 4 ∨ StoreSizeInBytes s = 8)%nat
        ∧ (StoreSizeInBytes s ≤ Largest)%nat
        ∧ byteAt ShadowMask (StoreOffset s) ≠ 0
        ∧ StoreVal s
          = storeValue IsLittleEndian ShadowBytes (StoreOffset s)
              (StoreSizeInBytes s)) stores
    ∧ ∀ p, (i ≤ p < End)%nat → byteAt ShadowMask p ≠ 0 →
        ∃ s, s ∈ stores
             ∧ (StoreOffset s ≤ p < StoreOffset s + StoreSizeInBytes s)%nat.
Proof.
  intros HL rounds.
  induction rounds as [|rounds IH]; intros i Hrounds.
  - cbn [copyToShadowInlineLoop].
    destruct (Nat.leb_spec End i); [|lia].
    exists []. split_and!; [done|done|constructor|]. intros p Hp. lia.
  - cbn [copyToShadowInlineLoop].
    destruct (Nat.leb_spec End i) as [Hge|Hlt].
    { exists []. split_and!; [done|done|constructor|]. intros p Hp. lia. }
    destruct (Z.eqb_spec (byteAt ShadowMask i) 0) as [Hzero|Hmask].
    + destruct (IH (i + 1)%nat ltac:(lia)) as (stores & -> & Hasc & Hall & Hcov).
      exists stores. split_and!; [done| |done|].
      * destruct stores as [|s rest]; [done|].
        cbn [storesAscending] in *. split; [lia|tauto].
      * intros p Hp Hmp.
        destruct (decide (p = i)) as [->|]; [done|].
        apply Hcov; [lia|done].
    + destruct (halveWhile_fit Largest (End - i) HL ltac:(lia))
        as (size0 & -> & Hsize0 & Hroom & Hle0).
      cbn [mbind option_bind].
      destruct (trimTrailingZeros_size ShadowMask i size0 Hsize0)
        as (size & -> & Hsize & Hle).
      cbn [mbind option_bind].
      destruct (IH (i + size)%nat ltac:(lia))
        as (stores & -> & Hasc & Hall & Hcov).
      cbn [mbind option_bind].
      eexists. split; [reflexivity|]. split_and!.
      * cbn [storesAscending StoreOffset StoreSizeInBytes]. done.
      * constructor; [|done].
        cbn [StoreOffset StoreSizeInBytes StoreVal].
        split_and!; [lia|done|lia|done|done].
      * intros p Hp Hmp.
        destruct (decide (p < i + size)%nat).
        -- eexists. split; [apply list_elem_of_here|].
           cbn [StoreOffset StoreSizeInBytes]. lia.
        -- destruct (Hcov p ltac:(lia) Hmp) as (s & Hs & Hrange).
           exists s. split; [by apply list_elem_of_further|done].
Qed.

Lemma LargestStoreSizeInBytes_cases (LongSize : nat) :
  LongSize = 32%nat ∨ LongSize = 64%nat →
  Nat.min 8 (LongSize / 8) = 4%nat ∨ Nat.min 8 (LongSize / 8) = 8%nat.
Proof. intros [-> | ->]; [left|right]; reflexivity. Qed.

(** X7 [copyToShadowInline]: for a range inside the arrays the loops end
    and the stores come in ascending order without overlap, inside the
    range; each store starts at a byte whose mask is not zero, is 1, 2,
    4 or 8 bytes wide and no wider than a pointer. *)
Theorem copyToShadowInline_stores_in_range (LongSize : nat)
    (IsLittleEndian : bool) (ShadowMask ShadowBytes : list Z)
    (Begin End : nat) :
  LongSize = 32%nat ∨ LongSize = 64%nat →
  ∃ stores,
    copyToShadowInline LongSize IsLittleEndian ShadowMask ShadowBytes
      Begin End = Some stores
    ∧ storesAscending Begin stores
    ∧ Forall (λ s,
        (Begin ≤ StoreOffset s)%nat
        ∧ (StoreOffset s + StoreSizeInBytes s ≤ End)%nat
        ∧ (StoreSizeInBytes s = 1 ∨ StoreSizeInBytes s = 2
           ∨ StoreSizeInBytes s = 4 ∨ StoreSizeInBytes s = 8)%nat
        ∧ (8 * StoreSizeInBytes s ≤ LongSize)%nat
        ∧ byteAt ShadowMask (StoreOffset s) ≠ 0) stores.
Proof.
  intros HL. unfold copyToShadowInline.
  destruct (Nat.leb_spec End Begin) as [Hge|Hlt].
  { exists []. split_and!; [done|done|constructor]. }
  destruct (copyToShadowInlineLoop_stores IsLittleEndian _ ShadowMask
              ShadowBytes End (LargestStoreSizeInBytes_cases LongSize HL)
              (End - Begin) Begin ltac:(lia))
    as (stores & -> & Hasc & Hall & _).
  exists stores. split_and!; [done|done|].
  assert (∀ from l, storesAscending from l →
            Forall (λ s, (from ≤ StoreOffset s)%nat) l) as Hfrom.
  { intros from l. revert from.
    induction l as [|s l IHl]; intros from Hl; constructor.
    - apply Hl.
    - destruct Hl as [Hs Hl]. apply IHl in Hl.
      eapply Forall_impl; [exact Hl|]. cbn. intros. lia. }
  apply Hfrom in Hasc.
  rewrite Forall_forall in Hasc, Hall |- *.
  intros s Hs. specialize (Hasc s Hs).
  destruct (Hall s Hs) as (Hend & Hsize & Hle & Hmask & _).
  split_and!; [done|done|done| |done].
  destruct HL as [-> | ->]; cbn in Hle; lia.
Qed.

Lemma runStores_cons (IsLittleEndian : bool) (shadow : nat → Z)
    (s : ShadowStore) (rest : list ShadowStore) :
  runStores IsLittleEndian shadow (s :: rest)
  = runStores IsLittleEndian (runStore IsLittleEndian shadow s) rest.
Proof. reflexivity. Qed.

Lemma runStores_before (IsLittleEndian : bool) (stores : list ShadowStore) :
  ∀ (from p : nat) (shadow : nat → Z),
    storesAscending from stores → (p < from)%nat →
    runStores IsLittleEndian shadow stores p = shadow p.
Proof.
  induction stores as [|s rest IH]; intros from p shadow Hasc Hp; [done|].
  destruct Hasc as [Hs Hrest].
  rewrite runStores_cons.
  rewrite (IH _ p _ Hrest) by lia.
  unfold runStore.
  destruct (Nat.leb_spec (StoreOffset s) p); [lia|done].
Qed.

(** What the stores of a list do to the byte [p]. *)
Lemma runStores_ascending (IsLittleEndian : bool)
    (stores : list ShadowStore) :
  ∀ (from p : nat) (shadow : nat → Z),
    storesAscending from stores →
    (∃ s, s ∈ stores
          ∧ (StoreOffset s ≤ p < StoreOffset s + StoreSizeInBytes s)%nat
          ∧ runStores IsLittleEndian shadow stores p
            = storeByte IsLittleEndian s (p - StoreOffset s))
    ∨ ((∀ s, s ∈ stores →
          ¬ (StoreOffset s ≤ p < StoreOffset s + StoreSizeInBytes s)%nat)
       ∧ runStores IsLittleEndian shadow stores p = shadow p).
Proof.
  induction stores as [|s rest IH]; intros from p shadow Hasc.
  - right. split; [|done]. intros s Hs. by apply elem_of_nil in Hs.
  - destruct Hasc as [Hs Hrest].
    rewrite runStores_cons.
    destruct (decide (StoreOffset s ≤ p < StoreOffset s + StoreSizeInBytes s)%nat)
      as [Hin|Hout].
    + left. exists s. split; [apply list_elem_of_here|split; [done|]].
      rewrite (runStores_before _ _ _ p _ Hrest) by lia.
      unfold runStore.
      destruct (Nat.leb_spec (StoreOffset s) p); [|lia].
      destruct (Nat.ltb_spec p (StoreOffset s + StoreSizeInBytes s)); [|lia].
      done.
    + destruct (IH _ p (runStore IsLittleEndian shadow s) Hrest)
        as [(s' & Hs' & Hin & Hval)|[Hnone Hval]].
      * left. exists s'. split; [by apply list_elem_of_further|split; done].
      * right. split.
        -- intros s' Hs'. apply elem_of_cons in Hs' as [->|Hs']; [done|].
           by apply Hnone.
        -- rewrite Hval. unfold runStore.
           destruct (Nat.leb_spec (StoreOffset s) p); [|done].
           destruct (Nat.ltb_spec p (StoreOffset s + StoreSizeInBytes s));
             [lia|done].
Qed.

(** X8 [copyToShadowInline]: after the stores, every byte of the range
    whose mask is not zero holds its byte of [ShadowBytes], in either
    byte order; a byte outside the range keeps its value, and a byte of
    the range keeps its value or takes its byte of [ShadowBytes]. *)
Theorem copyToShadowInline_writes_masked_bytes (LongSize : nat)
    (IsLittleEndian : bool) (ShadowMask ShadowBytes : list Z)
    (Begin End : nat) (shadow : nat → Z) :
  LongSize = 32%nat ∨ LongSize = 64%nat → allBytes ShadowBytes →
  ∃ stores,
    copyToShadowInline LongSize IsLittleEndian ShadowMask ShadowBytes
      Begin End = Some stores
    ∧ ∀ p,
        let after := runStores IsLittleEndian shadow stores p in
        ((Begin ≤ p < End)%nat → byteAt ShadowMask p ≠ 0 →
         after = byteAt ShadowBytes p)
        ∧ (¬ (Begin ≤ p < End)%nat → after = shadow p)
        ∧ (after = shadow p ∨ after = byteAt ShadowBytes p).
Proof.
  intros HL Hbytes. unfold copyToShadowInline.
  destruct (Nat.leb_spec End Begin) as [Hge|Hlt].
  { exists []. split; [done|]. intros p. cbn.
    split_and!; [lia|done|by left]. }
  destruct (copyToShadowInlineLoop_stores IsLittleEndian _ ShadowMask
              ShadowBytes End (LargestStoreSizeInBytes_cases LongSize HL)
              (End - Begin) Begin ltac:(lia))
    as (stores & -> & Hasc & Hall & Hcov).
  exists stores. split; [done|]. intros p. cbv zeta.
  rewrite Forall_forall in Hall.
  assert (∀ s, s ∈ stores →
            (StoreOffset s ≤ p < StoreOffset s + StoreSizeInBytes s)%nat →
            (Begin ≤ p < End)%nat
            ∧ storeByte IsLittleEndian s (p - StoreOffset s)
              = byteAt ShadowBytes p) as Hbyte.
  { intros s Hs Hin.
    destruct (Hall s Hs) as (Hend & Hsize & _ & _ & Hval).
    split.
    - split; [|lia].
      assert (∀ from l, storesAscending from l → s ∈ l →
                (from ≤ StoreOffset s)%nat) as Hfrom.
      { intros from l. revert from.
        induction l as [|s0 l IHl]; intros from Hl Hel.
        - by apply elem_of_nil in Hel.
        - destruct Hl as [Hs0 Hl].
          apply elem_of_cons in Hel as [->|Hel]; [done|].
          specialize (IHl _ Hl Hel). lia. }
      specialize (Hfrom _ _ Hasc Hs). lia.
    - destruct s as [off size val].
      cbn [StoreOffset StoreSizeInBytes StoreVal] in *. subst val.
      rewrite storeByte_storeValue; [|done|lia|lia].
      f_equal. lia. }
  destruct (runStores_ascending IsLittleEndian stores Begin p shadow Hasc)
    as [(s & Hs & Hin & ->)|[Hnone ->]].
  - destruct (Hbyte s Hs Hin) as [Hrange ->].
    split_and!; [done|done|by right].
  - split_and!; [|done|by left].
    intros Hp Hmask. destruct (Hcov p Hp Hmask) as (s & Hs & Hin).
    by destruct (Hnone s Hs).
Qed.

Lemma copyToShadowInline_stores_in_range_witness :
  ∃ stores,
    copyToShadowInline 64 true frameShadow frameShadow 0 12 = Some stores
    ∧ storesAscending 0 stores
    ∧ Forall (λ s,
        (0 ≤ StoreOffset s)%nat
        ∧ (StoreOffset s + StoreSizeInBytes s ≤ 12)%nat
        ∧ (StoreSizeInBytes s = 1 ∨ StoreSizeInBytes s = 2
           ∨ StoreSizeInBytes s = 4 ∨ StoreSizeInBytes s = 8)%nat
        ∧ (8 * StoreSizeInBytes s ≤ 64)%nat
        ∧ byteAt frameShadow (StoreOffset s) ≠ 0) stores.
Proof.
  apply (copyToShadowInline_stores_in_range 64 true frameShadow frameShadow
           0 12).
  by right.
Defined.

Lemma copyToShadowInline_writes_masked_bytes_witness :
  ∃ stores,
    copyToShadowInline 64 false frameShadow frameShadow 0 12 = Some stores
    ∧ ∀ p,
        let after := runStores false (λ _, 0) stores p in
        ((0 ≤ p < 12)%nat → byteAt frameShadow p ≠ 0 →
         after = byteAt frameShadow p)
        ∧ (¬ (0 ≤ p < 12)%nat → after = 0)
        ∧ (after = 0 ∨ after = byteAt frameShadow p).
Proof.
  apply (copyToShadowInline_writes_masked_bytes 64 false frameShadow
           frameShadow 0 12 (λ _, 0)).
  - by right.
  - repeat (constructor; [vm_compute; split; [discriminate|reflexivity]|]).
    constructor.
Defined.

Lemma opsAscending_app (ops1 ops2 : list ShadowOp) : ∀ (from mid : nat),
  opsAscending from ops1 →
  Forall (λ op, (opOffset op + opSize op ≤ mid)%nat) ops1 →
  (from ≤ mid)%nat →
  opsAscending mid ops2 →
  opsAscending from (ops1 ++ ops2).
Proof.
  induction ops1 as [|op ops1 IH]; intros from mid Hasc Hend Hle Hasc2.
  - destruct ops2 as [|op rest]; [done|].
    cbn [app opsAscending] in *. split; [lia|tauto].
  - destruct Hasc as [Hop Hasc]. apply Forall_cons in Hend as [Hopend Hend].
    cbn [app opsAscending]. split; [done|].
    apply (IH _ mid); [done|done|lia|done].
Qed.

Lemma opsAscending_weaken (ops : list ShadowOp) (from from' : nat) :
  (from' ≤ from)%nat → opsAscending from ops → opsAscending from' ops.
Proof.
  destruct ops as [|op rest]; [done|].
  cbn [opsAscending]. intros Hle [Hop Hrest]. split; [lia|done].
Qed.

(** What [copyToShadowInline] inserts, as operations. *)
Lemma copyToShadowInline_covers (LongSize : nat) (IsLittleEndian : bool)
    (ShadowMask ShadowBytes : list Z) (Begin End : nat) :
  LongSize = 32%nat ∨ LongSize = 64%nat → allBytes ShadowBytes →
  ∃ stores,
    copyToShadowInline LongSize IsLittleEndian ShadowMask ShadowBytes
      Begin End = Some stores
    ∧ opsAscending Begin (InlineStore <$> stores)
    ∧ Forall (λ op, (opOffset op + opSize op ≤ End)%nat)
        (InlineStore <$> stores)
    ∧ ∀ p, (Begin ≤ p < End)%nat → byteAt ShadowMask p ≠ 0 →
        ∃ s, s ∈ stores
             ∧ opWrites IsLittleEndian (InlineStore s) p
                 (byteAt ShadowBytes p).
Proof.
  intros HL Hbytes. unfold copyToShadowInline.
  destruct (Nat.leb_spec End Begin) as [Hge|Hlt].
  { exists []. split_and!; [done|done|constructor|]. intros p Hp. lia. }
  destruct (copyToShadowInlineLoop_stores IsLittleEndian _ ShadowMask
              ShadowBytes End (LargestStoreSizeInBytes_cases LongSize HL)
              (End - Begin) Begin ltac:(lia))
    as (stores & -> & Hasc & Hall & Hcov).
  exists stores. split; [done|]. split_and!.
  - clear Hall Hcov. revert Hasc. generalize Begin.
    induction stores as [|s rest IH]; intros from Hasc; [done|].
    destruct Hasc as [Hs Hrest]. cbn [fmap list_fmap opsAscending].
    split; [done|]. by apply IH.
  - apply Forall_fmap. eapply Forall_impl; [exact Hall|].
    cbn. intros s (Hend & _). done.
  - intros p Hp Hmask.
    destruct (Hcov p Hp Hmask) as (s & Hs & Hin).
    exists s. split; [done|]. split; [done|].
    rewrite Forall_forall in Hall.
    destruct (Hall s Hs) as (_ & Hsize & _ & _ & Hval).
    destruct s as [off size val].
    cbn [StoreOffset StoreSizeInBytes StoreVal opOffset opSize] in *.
    subst val.
    rewrite storeByte_storeValue; [|done|lia|lia].
    f_equal. lia.
Qed.

Lemma skipSameValues_run (ShadowMask ShadowBytes : list Z) (Val : Z)
    (remaining : nat) : ∀ j,
  let j' := skipSameValues ShadowMask ShadowBytes Val remaining j in
  (j ≤ j' ≤ j + remaining)%nat
  ∧ ∀ p, (j ≤ p < j')%nat →
      byteAt ShadowMask p ≠ 0 ∧ byteAt ShadowBytes p = Val.
Proof.
  induction remaining as [|remaining IH]; intros j; cbn [skipSameValues].
  - split; [lia|]. intros p Hp. lia.
  - destruct (Z.eqb_spec (byteAt ShadowMask j) 0) as [Hzero|Hmask];
      cbn [negb andb].
    { split; [lia|]. intros p Hp. lia. }
    destruct (Z.eqb_spec Val (byteAt ShadowBytes j)) as [Hval|Hne].
    2: { split; [lia|]. intros p Hp. lia. }
    destruct (IH (j + 1)%nat) as [Hj Hrun]. split; [lia|].
    intros p Hp. destruct (decide (p = j)) as [->|]; [done|].
    apply Hrun. lia.
Qed.

(** What [copyToShadowLoop] returns from the state [(i, i + 1, Done)]. *)
Lemma copyToShadowLoop_ops (LongSize : nat) (IsLittleEndian : bool)
    (ClMaxInlinePoisoningSize : nat) (ShadowMask ShadowBytes : list Z)
    (End : nat) :
  LongSize = 32%nat ∨ LongSize = 64%nat → allBytes ShadowBytes →
  ∀ (rounds i Done : nat),
    (End - i ≤ rounds)%nat → (Done ≤ i)%nat → (Done ≤ End)%nat →
    ∃ ops,
      copyToShadowLoop rounds LongSize IsLittleEndian
        ClMaxInlinePoisoningSize ShadowMask ShadowBytes i (i + 1) Done End
        = Some ops
      ∧ opsAscending Done ops
      ∧ Forall (λ op, (opOffset op + opSize op ≤ End)%nat) ops
      ∧ Forall (λ op,
          match op with
          | SetShadowCall Val _ CallSize =>
              AsanSetShadowFunc Val = true
              ∧ (ClMaxInlinePoisoningSize ≤ CallSize)%nat
              ∧ (1 ≤ CallSize)%nat
          | InlineStore _ => True
          end) ops
      ∧ ∀ p, (Done ≤ p < End)%nat → byteAt ShadowMask p ≠ 0 →
          ∃ op, op ∈ ops
                ∧ opWrites IsLittleEndian op p (byteAt ShadowBytes p).
Proof.
  intros HL Hbytes rounds.
  assert (∀ i Done, (End ≤ i)%nat → (Done ≤ End)%nat →
    ∃ ops,
      match copyToShadowInline LongSize IsLittleEndian ShadowMask
              ShadowBytes Done End with
      | Some stores => Some (InlineStore <$> stores)
      | None => None
      end = Some ops
      ∧ opsAscending Done ops
      ∧ Forall (λ op, (opOffset op + opSize op ≤ End)%nat) ops
      ∧ Forall (λ op,
          match op with
          | SetShadowCall Val _ CallSize =>
              AsanSetShadowFunc Val = true
              ∧ (ClMaxInlinePoisoningSize ≤ CallSize)%nat
              ∧ (1 ≤ CallSize)%nat
          | InlineStore _ => True
          end) ops
      ∧ ∀ p, (Done ≤ p < End)%nat → byteAt ShadowMask p ≠ 0 →
          ∃ op, op ∈ ops
                ∧ opWrites IsLittleEndian op p (byteAt ShadowBytes p))
    as Hexit.
  { intros i Done Hi HDone.
    destruct (copyToShadowInline_covers LongSize IsLittleEndian ShadowMask
                ShadowBytes Done End HL Hbytes)
      as (stores & -> & Hasc & Hend & Hcov).
    eexists. split; [reflexivity|]. split_and!; [done|done| |].
    - apply Forall_fmap, Forall_forall. done.
    - intros p Hp Hmask. destruct (Hcov p Hp Hmask) as (s & Hs & Hw).
      exists (InlineStore s). split; [|done].
      apply list_elem_of_fmap. by exists s. }
  induction rounds as [|rounds IH]; intros i Done Hrounds HDone HDoneEnd.
  - cbn [copyToShadowLoop].
    destruct (Nat.leb_spec End i); [|lia]. by apply (Hexit i).
  - cbn [copyToShadowLoop].
    destruct (Nat.leb_spec End i) as [Hge|Hlt]; [by apply (Hexit i)|].
    destruct (Z.eqb_spec (byteAt ShadowMask i) 0) as [Hzero|Hmask].
    { apply IH; lia. }
    destruct (AsanSetShadowFunc (byteAt ShadowBytes i)) eqn:Hfunc;
      cbn [negb]; [|apply IH; lia].
    pose proof (skipSameValues_run ShadowMask ShadowBytes
                  (byteAt ShadowBytes i) (End - (i + 1)) (i + 1))
      as [Hj Hrun].
    set (j := skipSameValues ShadowMask ShadowBytes (byteAt ShadowBytes i)
                (End - (i + 1)) (i + 1)) in *.
    destruct (Nat.leb_spec ClMaxInlinePoisoningSize (j - i)) as [Hbig|Hsmall];
      [|apply IH; lia].
    destruct (copyToShadowInline_covers LongSize IsLittleEndian ShadowMask
                ShadowBytes Done i HL Hbytes)
      as (stores & -> & Hasc & Hend & Hcov).
    destruct (IH j j ltac:(lia) ltac:(lia) ltac:(lia))
      as (rest & -> & Hasc' & Hend' & Hcalls & Hcov').
    eexists. split; [reflexivity|]. split_and!.
    + apply (opsAscending_app _ _ Done i); [done|done|done|].
      cbn [opsAscending opOffset opSize]. split; [done|].
      by replace (i + (j - i))%nat with j by lia.
    + apply Forall_app. split.
      * eapply Forall_impl; [exact Hend|]. cbn. intros. lia.
      * constructor; [cbn [opOffset opSize]; lia|done].
    + apply Forall_app. split.
      * apply Forall_fmap, Forall_forall. done.
      * constructor; [|done]. split_and!; [done|done|lia].
    + intros p Hp Hmp.
      destruct (decide (p < i)%nat) as [Hpi|Hpi].
      { destruct (Hcov p ltac:(lia) Hmp) as (s & Hs & Hw).
        exists (InlineStore s). split; [|done].
        apply elem_of_app. left. apply list_elem_of_fmap. by exists s. }
      destruct (decide (p < j)%nat) as [Hpj|Hpj].
      { exists (SetShadowCall (byteAt ShadowBytes i) i (j - i)).
        split; [apply elem_of_app; right; apply list_elem_of_here|].
        split; [cbn [opOffset opSize]; lia|].
        destruct (decide (p = i)) as [->|]; [done|].
        symmetry. apply Hrun. lia. }
      destruct (Hcov' p ltac:(lia) Hmp) as (op & Hop & Hw).
      exists op. split; [|done].
      apply elem_of_app. right. by apply list_elem_of_further.
Qed.

(** X9 [copyToShadow]: for a range inside the arrays the loops end; the
    stores and calls come in ascending order without overlap, inside the
    range; a call is made only for a value that has a callback and for at
    least [ClMaxInlinePoisoningSize] bytes; and every byte of the range
    whose mask is not zero is written with its byte of [ShadowBytes], by
    a store or by the callback of that value. *)
Theorem copyToShadow_writes_masked_bytes (LongSize : nat)
    (IsLittleEndian : bool) (ClMaxInlinePoisoningSize : nat)
    (ShadowMask ShadowBytes : list Z) (Begin End : nat) :
  LongSize = 32%nat ∨ LongSize = 64%nat → allBytes ShadowBytes →
  (Begin ≤ End)%nat →
  ∃ ops,
    copyToShadow LongSize IsLittleEndian ClMaxInlinePoisoningSize
      ShadowMask ShadowBytes Begin End = Some ops
    ∧ opsAscending Begin ops
    ∧ Forall (λ op, (opOffset op + opSize op ≤ End)%nat) ops
    ∧ Forall (λ op,
        match op with
        | SetShadowCall Val _ CallSize =>
            AsanSetShadowFunc Val = true
            ∧ (ClMaxInlinePoisoningSize ≤ CallSize)%nat
            ∧ (1 ≤ CallSize)%nat
        | InlineStore _ => True
        end) ops
    ∧ ∀ p, (Begin ≤ p < End)%nat → byteAt ShadowMask p ≠ 0 →
        ∃ op, op ∈ ops
              ∧ opWrites IsLittleEndian op p (byteAt ShadowBytes p).
Proof.
  intros HL Hbytes Hle. unfold copyToShadow.
  by apply copyToShadowLoop_ops.
Qed.

Lemma copyToShadow_writes_masked_bytes_witness :
  ∃ ops,
    copyToShadow 64 true 3 frameShadow frameShadow 0 12 = Some ops
    ∧ opsAscending 0 ops
    ∧ Forall (λ op, (opOffset op + opSize op ≤ 12)%nat) ops
    ∧ Forall (λ op,
        match op with
        | SetShadowCall Val _ CallSize =>
            AsanSetShadowFunc Val = true
            ∧ (3 ≤ CallSize)%nat
            ∧ (1 ≤ CallSize)%nat
        | InlineStore _ => True
        end) ops
    ∧ ∀ p, (0 ≤ p < 12)%nat → byteAt frameShadow p ≠ 0 →
        ∃ op, op ∈ ops ∧ opWrites true op p (byteAt frameShadow p).
Proof.
  apply (copyToShadow_writes_masked_bytes 64 true 3 frameShadow frameShadow
           0 12).
  - by right.
  - repeat (constructor; [vm_compute; split; [discriminate|reflexivity]|]).
    constructor.
  - lia.
Defined.

(** ** Filling the set of memory operations *)

Section CollectFacts.
Variable F : Analyses.
Variable facts : InstructionFacts.
Variable cfg : Config.
Variable opts : CollectOptions.

(** The case analysis of one round of [collectBlock]. *)
Ltac collect_round IH :=
  cbn [collectBlock];
  repeat match goal with
         | |- context [if decide ?P then _ else _] => destruct (decide P)
         | |- context [match isInterestingMemoryAccess F ?i with _ => _ end] =>
             destruct (isInterestingMemoryAccess F i) as [?acc|] eqn:?Hacc
         | |- context [match MaybeMask ?a with _ => _ end] =>
             destruct (MaybeMask a) as [?mask|] eqn:?Hmask
         | |- context [if LooksLikeCodeInBug11395 facts ?i then _ else _] =>
             destruct (LooksLikeCodeInBug11395 facts i) eqn:?Hbug
         | |- context [if ClOpt cfg && ClOptSameTemp opts then _ else _] =>
             destruct (ClOpt cfg && ClOptSameTemp opts) eqn:?Hsame
         | |- context [if ?n >=? ClMaxInsnsToInstrumentPerBB opts
                       then _ else _] =>
             destruct (Z.geb_spec n (ClMaxInsnsToInstrumentPerBB opts))
         | |- context [if ClInvalidPointerPairs opts && ?b then _ else _] =>
             destruct (ClInvalidPointerPairs opts && b) eqn:?Hcmp
         | |- context [if isMemIntrinsic facts ?i then _ else _] =>
             destruct (isMemIntrinsic facts i) eqn:?Hmem
         end;
  try exact Logic.I;
  try exact Logic.I;
  first [match goal with
         | |- match collectBlock _ _ _ _ ?rest ?T ?n ?c with _ => _ end =>
             specialize (IH T n c);
             destruct (collectBlock F facts cfg opts rest T n c) as [?c'|];
             [|exact Logic.I]
         end
        |clear IH].

Lemma collectBlock_new (insts : list Z) : ∀ T n c,
  match collectBlock F facts cfg opts insts T n c with
  | Some c' =>
      ∃ new, ToInstrument c' = ToInstrument c ++ new
             ∧ new `sublist_of` insts
             ∧ Forall (λ Inst,
                 is_Some (isInterestingMemoryAccess F Inst)
                 ∨ isMemIntrinsic facts Inst = true) new
             ∧ AllBlocks c' = AllBlocks c
  | None => True
  end.
Proof.
  induction insts as [|Inst rest IH]; intros T n c.
  - exists []. by rewrite app_nil_r.
  - collect_round IH.
    all: cbn [ToInstrument AllBlocks] in *.
    all: try (destruct IH as (new & -> & Hsub & Hall & ->)).
    all: try (exists new; split_and!;
              [done|by apply sublist_cons|done|done]).
    all: try (exists (Inst :: new); split_and!;
              [by rewrite <- app_assoc|by apply sublist_skip
              |constructor; [rewrite ?Hacc; eauto|done]|done]).
    all: try (exists [Inst]; split_and!;
              [done|apply sublist_skip, sublist_nil_l
              |constructor; [rewrite ?Hacc; eauto|constructor]|done]).
Qed.

Lemma collectBlocks_new (blocks : list (Z * list Z)) : ∀ c,
  match collectBlocks F facts cfg opts blocks c with
  | Some c' =>
      ∃ new, ToInstrument c' = ToInstrument c ++ new
             ∧ new `sublist_of` concat (snd <$> blocks)
             ∧ Forall (λ Inst,
                 is_Some (isInterestingMemoryAccess F Inst)
                 ∨ isMemIntrinsic facts Inst = true) new
             ∧ AllBlocks c' = AllBlocks c ++ (fst <$> blocks)
  | None => True
  end.
Proof.
  induction blocks as [|BB rest IH]; intros c.
  - exists []. by rewrite !app_nil_r.
  - cbn [collectBlocks].
    pose proof (collectBlock_new BB.2 ∅ 0
                  (mkCollected (ToInstrument c) (NoReturnCalls c)
                     (AllBlocks c ++ [BB.1])
                     (PointerComparisonsOrSubtracts c) (NumAllocas c)))
      as Hblock.
    destruct (collectBlock _ _ _ _ _ _ _ _) as [c1|]; [|exact Logic.I].
    destruct Hblock as (new1 & Hnew1 & Hsub1 & Hall1 & Hblocks1).
    specialize (IH c1).
    destruct (collectBlocks _ _ _ _ _ _) as [c'|]; [|exact Logic.I].
    destruct IH as (new & -> & Hsub & Hall & ->).
    cbn [ToInstrument AllBlocks] in *.
    exists (new1 ++ new). rewrite Hnew1, Hblocks1.
    split_and!.
    + by rewrite app_assoc.
    + cbn [fmap list_fmap concat]. by apply sublist_app.
    + by apply Forall_app.
    + by rewrite <- app_assoc.
Qed.

(** The bound of one block. *)
Lemma collectBlock_bound (insts : list Z) : ∀ T n c,
  0 ≤ n → n + Z.of_nat (length insts) < 2 ^ 31 →
  match collectBlock F facts cfg opts insts T n c with
  | Some c' =>
      Z.of_nat (length (ToInstrument c'))
      ≤ Z.of_nat (length (ToInstrument c))
        + Z.max 1 (ClMaxInsnsToInstrumentPerBB opts - n)
  | None => True
  end.
Proof.
  induction insts as [|Inst rest IH]; intros T n c Hn Hlen.
  - cbn. lia.
  - cbn [length] in Hlen.
    assert (to_int (n + 1) = n + 1) as Hint.
    { unfold to_int. rewrite Z.mod_small; lia. }
    collect_round IH.
    all: rewrite ?Hint in *.
    all: cbn [ToInstrument] in *.
    all: rewrite ?length_app in *; cbn [length] in *.
    all: try (specialize (IH ltac:(lia) ltac:(lia))).
    all: lia.
Qed.

Lemma unmaskedAddresses_cons (Inst : Z) (new : list Z) :
  unmaskedAddresses F (Inst :: new)
  = match isInterestingMemoryAccess F Inst with
    | Some acc =>
        match MaybeMask acc with
        | None => Addr acc :: unmaskedAddresses F new
        | Some _ => unmaskedAddresses F new
        end
    | None => unmaskedAddresses F new
    end.
Proof.
  unfold unmaskedAddresses. cbn [omap list_omap].
  destruct (isInterestingMemoryAccess F Inst) as [acc|]; [|done].
  by destruct (MaybeMask acc).
Qed.

(** The addresses seen in a block without a call. *)
Lemma collectBlock_same_temp (insts : list Z) :
  ClOpt cfg && ClOptSameTemp opts = true →
  Forall (λ Inst, ¬ clearsTemps F facts opts Inst) insts →
  ∀ T n c,
  match collectBlock F facts cfg opts insts T n c with
  | Some c' =>
      ∃ new, ToInstrument c' = ToInstrument c ++ new
             ∧ NoDup (unmaskedAddresses F new)
             ∧ ∀ a, a ∈ unmaskedAddresses F new → a ∉ T
  | None => True
  end.
Proof.
  intros Hopt Hcalls.
  induction Hcalls as [|Inst rest Hcall Hcalls IH]; intros T n c.
  - exists []. rewrite app_nil_r. split_and!; [done|constructor|].
    intros a Ha. by apply elem_of_nil in Ha.
  - collect_round IH.
    all: try (rewrite Hopt in Hsame; discriminate Hsame).
    all: cbn [ToInstrument] in *.
    all: try (destruct IH as (new & -> & Hnd & Hnot)).
    all: try (assert (isCallSite facts Inst = false) as Hcs
                by (destruct (isCallSite facts Inst) eqn:Hcs; [|done];
                    destruct Hcall; by repeat split);
              rewrite Hcs in Hnot).
    (* the instruction is not taken *)
    all: try (exists new; split_and!; [done|done|exact Hnot]).
    (* the instruction is taken and the loop goes on *)
    all: try (exists (Inst :: new); rewrite unmaskedAddresses_cons, Hacc;
              rewrite ?Hmask; split_and!;
              [by rewrite <- app_assoc| |];
              [first [exact Hnd
                     |apply NoDup_cons; split; [|done];
                      intros Hin; apply (Hnot _ Hin);
                      apply elem_of_union; left; by apply elem_of_singleton]
              |first [exact Hnot
                     |intros a Ha; apply elem_of_cons in Ha as [->|Ha];
                      [done|];
                      intros HT; apply (Hnot _ Ha);
                      apply elem_of_union; by right]]).
    (* the instruction is taken and the loop ends *)
    all: try (exists [Inst]; rewrite unmaskedAddresses_cons, Hacc;
              rewrite ?Hmask; cbn [unmaskedAddresses omap list_omap];
              split_and!; [done| |];
              [first [apply NoDup_singleton
                     |constructor]
              |intros a Ha;
               first [by apply elem_of_nil in Ha
                     |apply list_elem_of_singleton in Ha as ->; done]]).
Qed.
End CollectFacts.

(** X10 [runOnFunction]: when the loop that fills the set of memory
    operations ends, the vector lists instructions of the function in
    program order, each at most as often as it occurs there; every one
    of them is an interesting memory access or a memory intrinsic, so
    the cast in the loop that instruments them is safe; and every block
    is recorded. *)
Theorem memory_operations_in_program_order (F : Analyses)
    (facts : InstructionFacts) (cfg : Config) (opts : CollectOptions)
    (blocks : list (Z * list Z)) (c : Collected) :
  fillMemoryOperations F facts cfg opts blocks = Some c →
  ToInstrument c `sublist_of` concat (snd <$> blocks)
  ∧ Forall (λ Inst,
      is_Some (isInterestingMemoryAccess F Inst)
      ∨ isMemIntrinsic facts Inst = true) (ToInstrument c)
  ∧ AllBlocks c = fst <$> blocks.
Proof.
  unfold fillMemoryOperations. intros Hc.
  pose proof (collectBlocks_new F facts cfg opts blocks
                (mkCollected [] [] [] [] 0)) as H.
  rewrite Hc in H. destruct H as (new & -> & Hsub & Hall & ->).
  done.
Qed.

(** X11 [runOnFunction]: from one basic block the loop takes at most
    [ClMaxInsnsToInstrumentPerBB] instructions, and at most one when
    that option is below one. *)
Theorem memory_operations_per_block_bound (F : Analyses)
    (facts : InstructionFacts) (cfg : Config) (opts : CollectOptions)
    (insts : list Z) (c c' : Collected) :
  Z.of_nat (length insts) < 2 ^ 31 →
  collectBlock F facts cfg opts insts ∅ 0 c = Some c' →
  Z.of_nat (length (ToInstrument c'))
  ≤ Z.of_nat (length (ToInstrument c))
    + Z.max 1 (ClMaxInsnsToInstrumentPerBB opts).
Proof.
  intros Hlen Hc.
  pose proof (collectBlock_bound F facts cfg opts insts ∅ 0 c
                ltac:(lia) ltac:(lia)) as H.
  rewrite Hc in H. by rewrite Z.sub_0_r in H.
Qed.

(** X12 [runOnFunction]: with [asan-opt] and [asan-opt-same-temp] on, in
    a basic block none of whose instructions makes the loop forget the
    addresses it has seen, no two of the accesses without a mask that
    the loop takes from the block have the same address. *)
Theorem same_temp_once_per_block (F : Analyses) (facts : InstructionFacts)
    (cfg : Config) (opts : CollectOptions) (insts : list Z)
    (c c' : Collected) :
  ClOpt cfg && ClOptSameTemp opts = true →
  Forall (λ Inst, ¬ clearsTemps F facts opts Inst) insts →
  collectBlock F facts cfg opts insts ∅ 0 c = Some c' →
  ∃ new, ToInstrument c' = ToInstrument c ++ new
         ∧ NoDup (unmaskedAddresses F new).
Proof.
  intros Hopt Hcalls Hc.
  pose proof (collectBlock_same_temp F facts cfg opts insts Hopt Hcalls
                ∅ 0 c) as H.
  rewrite Hc in H. destruct H as (new & Hnew & Hnd & _).
  by exists new.
Qed.

Lemma memory_operations_in_program_order_witness :
  [1; 4; 5] `sublist_of` concat (snd <$> [(10, [1; 2; 3; 4; 5])])
  ∧ Forall (λ Inst,
      is_Some (isInterestingMemoryAccess loadsAndCall Inst)
      ∨ isMemIntrinsic loadsAndCallFacts Inst = true) [1; 4; 5]
  ∧ [10] = fst <$> [(10, [1; 2; 3; 4; 5])].
Proof.
  apply (memory_operations_in_program_order loadsAndCall loadsAndCallFacts
           defaultConfig defaultCollectOptions [(10, [1; 2; 3; 4; 5])]
           (mkCollected [1; 4; 5] [] [10] [] 0)).
  vm_compute. reflexivity.
Defined.

Lemma memory_operations_per_block_bound_witness :
  Z.of_nat (length [1; 4; 5])
  ≤ Z.of_nat (length (@nil Z))
    + Z.max 1 (ClMaxInsnsToInstrumentPerBB defaultCollectOptions).
Proof.
  apply (memory_operations_per_block_bound loadsAndCall loadsAndCallFacts
           defaultConfig defaultCollectOptions [1; 2; 3; 4; 5]
           (mkCollected [] [] [] [] 0) (mkCollected [1; 4; 5] [] [] [] 0)).
  - vm_compute. reflexivity.
  - vm_compute. reflexivity.
Defined.

Lemma same_temp_once_per_block_witness :
  ∃ new, [1; 5] = [] ++ new ∧ NoDup (unmaskedAddresses loadsAndCall new).
Proof.
  apply (same_temp_once_per_block loadsAndCall loadsAndCallFacts
           defaultConfig defaultCollectOptions [1; 2; 5]
           (mkCollected [] [] [] [] 0) (mkCollected [1; 5] [] [] [] 0)).
  - reflexivity.
  - repeat (constructor;
            [intros (Hacc & _ & Hmem & Hcs); vm_compute in Hacc, Hmem, Hcs;
             congruence|]).
    constructor.
  - vm_compute. reflexivity.
Defined.

(** ** Maps of slots *)

Section Slots.
Context `{Countable K} `{Countable T}.
Implicit Types m : gmap K (gset T).

Lemma elem_of_slotInsert m (key k : K) (value v : T) :
  v ∈ default ∅ (slotInsert key value m !! k)
  ↔ v ∈ default ∅ (m !! k) ∨ (k = key ∧ v = value).
Proof.
  unfold slotInsert.
  destruct (decide (k = key)) as [->|Hne].
  - rewrite lookup_insert_eq. simpl.
    rewrite elem_of_union, elem_of_singleton.
    split; [intros [->|Hv]; [by right|by left]|].
    intros [Hv|[_ ->]]; [by right|by left].
  - rewrite lookup_insert_ne by done.
    split; [by left|]. intros [Hv|[Heq _]]; done.
Qed.

Lemma slotInsert_nonempty m (key : K) (value : T) :
  (∀ k s, m !! k = Some s → s ≠ ∅) →
  ∀ k s, slotInsert key value m !! k = Some s → s ≠ ∅.
Proof.
  intros Hm k s. unfold slotInsert.
  destruct (decide (k = key)) as [->|Hne].
  - rewrite lookup_insert_eq. intros [= <-] Hempty.
    assert (value ∈ ({[value]} ∪ default ∅ (m !! key) : gset T)) as Hin
      by (apply elem_of_union; left; by apply elem_of_singleton).
    rewrite Hempty in Hin. by apply elem_of_empty in Hin.
  - rewrite lookup_insert_ne by done. apply Hm.
Qed.

(** A loop whose rounds add to the slots what [R] says. *)
Lemma foldl_slots {A : Type} (f : gmap K (gset T) → A → gmap K (gset T))
    (R : A → K → T → Prop) (l : list A) :
  (∀ m x k v, x ∈ l →
     v ∈ default ∅ (f m x !! k) ↔ v ∈ default ∅ (m !! k) ∨ R x k v) →
  ∀ m k v,
    v ∈ default ∅ (foldl f m l !! k)
    ↔ v ∈ default ∅ (m !! k) ∨ ∃ x, x ∈ l ∧ R x k v.
Proof.
  induction l as [|x l IH]; intros Hf m k v; cbn [foldl].
  - split; [by left|]. intros [H1|(x & Hx & _)]; [done|].
    by apply elem_of_nil in Hx.
  - rewrite IH by (intros; apply Hf; by right).
    rewrite Hf by left. split.
    + intros [[Hm|HR]|(y & Hy & HR)]; [by left| |].
      * right. exists x. split; [left|done].
      * right. exists y. split; [by right|done].
    + intros [Hm|(y & Hy & HR)]; [by left; left|].
      apply elem_of_cons in Hy as [->|Hy].
      * left. by right.
      * right. by exists y.
Qed.

Lemma foldl_nonempty {A : Type} (f : gmap K (gset T) → A → gmap K (gset T))
    (l : list A) :
  (∀ m x, (∀ k s, m !! k = Some s → s ≠ ∅) →
          ∀ k s, f m x !! k = Some s → s ≠ ∅) →
  ∀ m, (∀ k s, m !! k = Some s → s ≠ ∅) →
       ∀ k s, foldl f m l !! k = Some s → s ≠ ∅.
Proof.
  intros Hf. induction l as [|x l IH]; intros m Hm; cbn [foldl]; [done|].
  apply IH. by apply Hf.
Qed.
End Slots.

(** ** Removing neighbor checks *)

Section NeighborFacts.
Variable F : Analyses.

(** The condition of [preprocessPotentialRemoveInsts], as the comment
    in the source states it. *)
Lemma removableTriple_spec (A B C : Z * Z) :
  removableTriple F A B C = true
  ↔ (DT_dominates F A.2 B.2 = true
     ∨ PDT_dominates F (getParent F A.2) (getParent F B.2) = true)
    ∧ A.1 < B.1 < C.1 ∧ C.1 - A.1 < RZ_SIZE.
Proof.
  unfold removableTriple.
  rewrite !andb_true_iff, orb_true_iff, !Z.gtb_ltb, !Z.ltb_lt. tauto.
Qed.

Lemma preprocessPotentialRemoveInsts_pairs (s : gset (Z * Z)) (B : Z)
    (pair : Z * Z) :
  pair ∈ default ∅ (preprocessPotentialRemoveInsts F s !! B)
  ↔ ∃ offsetInstA offsetInstB offsetInstC,
      offsetInstA ∈ s ∧ offsetInstB ∈ s ∧ offsetInstC ∈ s
      ∧ removableTriple F offsetInstA offsetInstB offsetInstC = true
      ∧ B = offsetInstB.2 ∧ pair = (offsetInstA.2, offsetInstC.2).
Proof.
  unfold preprocessPotentialRemoveInsts, PairMap. cbv zeta.
  set (nodes := pset_iter s).
  rewrite (foldl_slots _
    (λ A k v, ∃ B, B ∈ nodes ∧ ∃ C, C ∈ nodes
       ∧ removableTriple F A B C = true ∧ k = B.2 ∧ v = (A.2, C.2))).
  - rewrite lookup_empty. cbn [default]. split.
    + intros [Hempty|(A & HA & Bn & HB & C & HC & Htriple & -> & ->)].
      { by apply elem_of_empty in Hempty. }
      exists A, Bn, C. apply elem_of_pset_iter in HA, HB, HC. done.
    + intros (A & Bn & C & HA & HB & HC & Htriple & -> & ->). right.
      exists A. split; [by apply elem_of_pset_iter|].
      exists Bn. split; [by apply elem_of_pset_iter|].
      exists C. split; [by apply elem_of_pset_iter|done].
  - intros m A k v _.
    rewrite (foldl_slots _
      (λ Bn k v, ∃ C, C ∈ nodes
         ∧ removableTriple F A Bn C = true ∧ k = Bn.2 ∧ v = (A.2, C.2)));
      [done|].
    intros m' Bn k' v' _.
    destruct (decide (A = Bn)) as [<-|HAB].
    { split; [by left|]. intros [?|(C & _ & Htriple & _)]; [done|].
      apply removableTriple_spec in Htriple. lia. }
    rewrite (foldl_slots _
      (λ C k v, removableTriple F A Bn C = true ∧ k = Bn.2
                ∧ v = (A.2, C.2))); [done|].
    intros m'' C k'' v'' _.
    destruct (decide (A = C ∨ Bn = C)) as [Heq|Hne].
    { split; [by left|]. intros [?|(Htriple & _)]; [done|].
      apply removableTriple_spec in Htriple. destruct Heq as [<-|<-]; lia. }
    destruct (removableTriple F A Bn C) eqn:Htriple.
    + rewrite elem_of_slotInsert.
      split; (intros [Hv|Hv]; [by left|right]);
        [by destruct Hv as [-> ->]|by destruct Hv as (_ & -> & ->)].
    + split; [by left|]. intros [?|(? & _)]; done.
Qed.

Lemma preprocessPotentialRemoveInsts_nonempty (s : gset (Z * Z)) (B : Z)
    (pairs : gset (Z * Z)) :
  preprocessPotentialRemoveInsts F s !! B = Some pairs → pairs ≠ ∅.
Proof.
  unfold preprocessPotentialRemoveInsts, PairMap. cbv zeta. revert B pairs.
  apply foldl_nonempty; [|intros k s'; by rewrite lookup_empty].
  intros m A Hm. apply foldl_nonempty; [|done].
  intros m' Bn Hm'. destruct (decide (A = Bn)); [done|].
  apply foldl_nonempty; [|done].
  intros m'' C Hm''.
  destruct (decide _); [done|].
  destruct (removableTriple F A Bn C); [|done].
  by apply slotInsert_nonempty.
Qed.

(** X13 [preprocessPotentialRemoveInsts]: the pair (A, C) is recorded
    for the candidate B exactly when the set holds the three with
    offsets A < B < C, the offsets of A and C less than [RZ_SIZE]
    apart, and A dominating B or the block of A post-dominating that of
    B. *)
Theorem potential_remove_insts_are_sandwiched (s : gset (Z * Z))
    (A B C : Z) :
  (A, C) ∈ default ∅ (preprocessPotentialRemoveInsts F s !! B)
  ↔ ∃ offA offB offC,
      (offA, A) ∈ s ∧ (offB, B) ∈ s ∧ (offC, C) ∈ s
      ∧ offA < offB < offC ∧ offC - offA < RZ_SIZE
      ∧ (DT_dominates F A B = true
         ∨ PDT_dominates F (getParent F A) (getParent F B) = true).
Proof.
  rewrite preprocessPotentialRemoveInsts_pairs. split.
  - intros ([offA A'] & [offB B'] & [offC C'] & HA & HB & HC & Htriple
            & HeqB & [= -> ->]).
    cbn [snd] in HeqB. subst B'.
    apply removableTriple_spec in Htriple. cbn [fst snd] in Htriple.
    exists offA, offB, offC. tauto.
  - intros (offA & offB & offC & HA & HB & HC & Hlt & Hrz & Hdom).
    exists (offA, A), (offB, B), (offC, C).
    split_and!; [done|done|done| |done|done].
    apply removableTriple_spec. cbn [fst snd]. tauto.
Qed.

Lemma elem_of_basemap_iter {V : Type} (m : gmap BaseKey V) (k : BaseKey)
    (v : V) :
  (k, v) ∈ basemap_iter m ↔ m !! k = Some v.
Proof.
  unfold basemap_iter. rewrite merge_sort_Permutation.
  apply elem_of_map_to_list.
Qed.

Lemma erasePairs_lookup (key : Z) (m : PairMap) (k : Z)
    (pairs : gset (Z * Z)) (p : Z * Z) :
  erasePairs key m !! k = Some pairs → p ∈ pairs →
  p ∈ default ∅ (m !! k) ∧ p.1 ≠ key ∧ p.2 ≠ key.
Proof.
  unfold erasePairs, PairMap in *. rewrite lookup_fmap.
  destruct (m !! k) as [old|]; [|done]. cbn. intros [= <-] Hp.
  apply elem_of_filter in Hp as [Hp Hold].
  split; [done|]. split; intros Heq; apply Hp; [by left|by right].
Qed.

(** What the loop of [removeInstructionFunc] keeps: the deleted set
    grows by candidates of the list only, and no pair of the map names
    an instruction that the loop has deleted. *)
Lemma removeCandidates_inv (m0 : PairMap) (d0 : gset Z)
    (l : list (Z * Z)) : ∀ (st : PairMap * gset Z),
  (∀ k pairs p, st.1 !! k = Some pairs → p ∈ pairs →
     p ∈ default ∅ (m0 !! k)
     ∧ (p.1 ∈ st.2 → p.1 ∈ d0) ∧ (p.2 ∈ st.2 → p.2 ∈ d0)) →
  let st' := foldl removeCandidate st l in
  st.2 ⊆ st'.2
  ∧ (∀ I, I ∈ st'.2 → I ∈ st.2 ∨ ∃ x, x ∈ l ∧ x.2 = I)
  ∧ (∀ k pairs p, st'.1 !! k = Some pairs → p ∈ pairs →
       p ∈ default ∅ (m0 !! k)
       ∧ (p.1 ∈ st'.2 → p.1 ∈ d0) ∧ (p.2 ∈ st'.2 → p.2 ∈ d0)).
Proof.
  induction l as [|x l IH]; intros st Hst; cbn [foldl].
  - split_and!; [done|by left|done].
  - assert (∀ k pairs p,
              (removeCandidate st x).1 !! k = Some pairs → p ∈ pairs →
              p ∈ default ∅ (m0 !! k)
              ∧ (p.1 ∈ (removeCandidate st x).2 → p.1 ∈ d0)
              ∧ (p.2 ∈ (removeCandidate st x).2 → p.2 ∈ d0)) as Hstep.
    { intros k pairs p. unfold removeCandidate. destruct st as [m d].
      destruct (removeInst _ _); [|apply Hst].
      cbn [fst snd]. intros Hk Hp.
      destruct (erasePairs_lookup _ _ _ _ _ Hk Hp) as (Hold & Hne1 & Hne2).
      destruct (m !! k) as [old|] eqn:Hmk; [|by apply elem_of_empty in Hold].
      destruct (Hst k old p Hmk Hold) as (H0 & H1 & H2). cbn [fst snd] in *.
      split; [done|].
      split; intros Hin; apply elem_of_union in Hin as [Hin|Hin];
        [by apply elem_of_singleton in Hin|by apply H1
        |by apply elem_of_singleton in Hin|by apply H2]. }
    destruct (IH _ Hstep) as (Hsub & Hnew & Hpairs).
    assert (st.2 ⊆ (removeCandidate st x).2
            ∧ ∀ I, I ∈ (removeCandidate st x).2 → I ∈ st.2 ∨ x.2 = I)
      as [Hsub1 Hnew1].
    { unfold removeCandidate. destruct st as [m d].
      destruct (removeInst _ _); cbn [fst snd].
      - split; [apply union_subseteq_r|].
        intros I HI. apply elem_of_union in HI as [HI|HI]; [|by left].
        apply elem_of_singleton in HI. by right.
      - split; [done|]. intros I HI. by left. }
    split_and!; [by etrans| |done].
    intros I HI. destruct (Hnew I HI) as [HI'|(y & Hy & <-)].
    + destruct (Hnew1 I HI') as [?|<-]; [by left|].
      right. exists x. split; [left|done].
    + right. exists y. split; [by right|done].
Qed.

Lemma removeInstructionFunc_inv (potentialRemoveInsts : PairMap)
    (deleted : gset Z) :
  let '(remaining, deleted') :=
    removeInstructionFunc potentialRemoveInsts deleted in
  deleted ⊆ deleted'
  ∧ (∀ I, I ∈ deleted' → I ∉ deleted → is_Some (potentialRemoveInsts !! I))
  ∧ (∀ k pairs p, remaining !! k = Some pairs → p ∈ pairs →
       p ∈ default ∅ (potentialRemoveInsts !! k)
       ∧ (p.1 ∈ deleted' → p.1 ∈ deleted)
       ∧ (p.2 ∈ deleted' → p.2 ∈ deleted)).
Proof.
  unfold removeInstructionFunc. cbv zeta.
  pose proof (removeCandidates_inv potentialRemoveInsts deleted
    (merge_sort pair_le (rankRemovableInsts potentialRemoveInsts))
    (potentialRemoveInsts, deleted)) as Hinv.
  cbv zeta in Hinv.
  destruct (foldl removeCandidate _ _) as [remaining deleted'].
  cbn [fst snd] in Hinv.
  destruct Hinv as (Hsub & Hnew & Hpairs).
  { intros k pairs p Hk Hp. rewrite Hk. done. }
  split_and!; [done| |done].
  intros I HI Hnot. destruct (Hnew I HI) as [?|(x & Hx & <-)]; [done|].
  rewrite merge_sort_Permutation in Hx. unfold rankRemovableInsts in Hx.
  apply list_elem_of_fmap in Hx as ([k pairs] & -> & Hx).
  apply elem_of_map_iter in Hx. cbn [fst snd]. by exists pairs.
Qed.

(** X14 [removeInstructionFunc]: the call only adds to the deleted set,
    what it adds are candidates of the map, and in the map it leaves
    every pair is a pair of the map it was given and names no
    instruction that the call has deleted. *)
Theorem removeInstructionFunc_removes_candidates
    (potentialRemoveInsts : PairMap) (deleted : gset Z) :
  let '(remaining, deleted') :=
    removeInstructionFunc potentialRemoveInsts deleted in
  deleted ⊆ deleted'
  ∧ (∀ I, I ∈ deleted' → I ∉ deleted → is_Some (potentialRemoveInsts !! I))
  ∧ (∀ k pairs p, remaining !! k = Some pairs → p ∈ pairs →
       p ∈ default ∅ (potentialRemoveInsts !! k)
       ∧ (p.1 ∈ deleted' → p.1 ∈ deleted)
       ∧ (p.2 ∈ deleted' → p.2 ∈ deleted)).
Proof. apply removeInstructionFunc_inv. Qed.

(** The instructions that [rmNeighborChks] adds to the deleted set are
    candidates of a slot of three or more. *)
Lemma rmNeighborChks_inv (baseAddrOffsetMap_multi : OffsetMap)
    (deleted : gset Z) :
  deleted ⊆ rmNeighborChks F baseAddrOffsetMap_multi deleted
  ∧ ∀ I, I ∈ rmNeighborChks F baseAddrOffsetMap_multi deleted →
         I ∉ deleted →
         ∃ key s, baseAddrOffsetMap_multi !! key = Some s
                  ∧ (3 ≤ size s)%nat
                  ∧ is_Some (preprocessPotentialRemoveInsts F s !! I).
Proof.
  unfold rmNeighborChks.
  assert (∀ item, item ∈ basemap_iter baseAddrOffsetMap_multi →
            baseAddrOffsetMap_multi !! item.1 = Some item.2) as Hitems.
  { intros [k s]. apply elem_of_basemap_iter. }
  revert Hitems deleted.
  generalize (basemap_iter baseAddrOffsetMap_multi) as items.
  induction items as [|item items IH]; intros Hitems deleted; cbn [foldl].
  { split; [done|]. intros I HI Hnot. done. }
  set (deleted1 :=
         if decide (3 ≤ size item.2)%nat
         then (removeInstructionFunc
                 (preprocessPotentialRemoveInsts F item.2) deleted).2
         else deleted).
  assert (deleted ⊆ deleted1
          ∧ ∀ I, I ∈ deleted1 → I ∉ deleted →
                 (3 ≤ size item.2)%nat
                 ∧ is_Some (preprocessPotentialRemoveInsts F item.2 !! I))
    as [Hsub1 Hnew1].
  { unfold deleted1. destruct (decide (3 ≤ size item.2)%nat) as [Hsize|_].
    - pose proof (removeInstructionFunc_inv
                    (preprocessPotentialRemoveInsts F item.2) deleted) as H.
      destruct (removeInstructionFunc _ _) as [remaining deleted'].
      destruct H as (Hsub & Hnew & _). cbn [snd].
      split; [done|]. intros I HI Hnot. split; [done|by apply Hnew].
    - split; [done|]. intros I HI Hnot. done. }
  destruct (IH ltac:(intros; apply Hitems; by right) deleted1)
    as [Hsub Hnew].
  split; [by etrans|].
  intros I HI Hnot.
  destruct (decide (I ∈ deleted1)) as [Hin|Hout].
  - destruct (Hnew1 I Hin Hnot) as [Hsize Hcand].
    exists item.1, item.2. split; [apply Hitems; left|done].
  - by apply Hnew.
Qed.

(** X15 [rmNeighborChks]: the pass only adds to the deleted set, and
    every instruction B it adds sits in a slot of at least three
    accesses that holds accesses A and C with offsets A < B < C, less
    than [RZ_SIZE] apart, where A dominates B or the block of A
    post-dominates the block of B. *)
Theorem rmNeighborChks_removes_sandwiched
    (baseAddrOffsetMap_multi : OffsetMap) (deleted : gset Z) :
  deleted ⊆ rmNeighborChks F baseAddrOffsetMap_multi deleted
  ∧ ∀ B, B ∈ rmNeighborChks F baseAddrOffsetMap_multi deleted →
         B ∉ deleted →
         ∃ key s A C offA offB offC,
           baseAddrOffsetMap_multi !! key = Some s
           ∧ (3 ≤ size s)%nat
           ∧ (offA, A) ∈ s ∧ (offB, B) ∈ s ∧ (offC, C) ∈ s
           ∧ offA < offB < offC ∧ offC - offA < RZ_SIZE
           ∧ (DT_dominates F A B = true
              ∨ PDT_dominates F (getParent F A) (getParent F B) = true).
Proof.
  destruct (rmNeighborChks_inv baseAddrOffsetMap_multi deleted)
    as [Hsub Hnew].
  split; [done|]. intros B HB Hnot.
  destruct (Hnew B HB Hnot) as (key & s & Hkey & Hsize & [pairs Hpairs]).
  pose proof (preprocessPotentialRemoveInsts_nonempty s B pairs Hpairs)
    as Hne.
  apply set_choose_L in Hne as [pair Hpair].
  assert (pair ∈ default ∅ (preprocessPotentialRemoveInsts F s !! B))
    as Hin by by rewrite Hpairs.
  apply preprocessPotentialRemoveInsts_pairs in Hin
    as ([offA A] & [offB B'] & [offC C] & HA & HB' & HC & Htriple
        & HeqB & _).
  cbn [snd] in HeqB. subst B'.
  apply removableTriple_spec in Htriple. cbn [fst snd] in Htriple.
  exists key, s, A, C, offA, offB, offC. tauto.
Qed.
End NeighborFacts.

(** ** The map of base addresses and offsets *)

Section OffsetMapFacts.
Variable F : Analyses.

Lemma singleIndexCaseHandler_adds (m : OffsetMap) (Gep_Inst : GEP)
    (Inst : Z) (k : BaseKey) (v : Z * Z) :
  length (Indices Gep_Inst) = 1%nat →
  v ∈ default ∅ (singleIndexCaseHandler m Gep_Inst Inst !! k)
  ↔ v ∈ default ∅ (m !! k)
    ∨ ∃ idx, PointerOperand Gep_Inst = k.1
             ∧ leadingOffsets
                 (take (length (Indices Gep_Inst) - 1) (Indices Gep_Inst))
               = Some k.2
             ∧ last (Indices Gep_Inst) = Some idx
             ∧ IndexConstant idx = Some v.1
             ∧ v.2 = Inst.
Proof.
  intros Hlen. unfold singleIndexCaseHandler, OffsetMap in *.
  destruct (Indices Gep_Inst) as [|idx [|idx' rest]]; [done| |done].
  cbn [length Nat.sub take leadingOffsets last].
  destruct (IndexConstant idx) as [intLastOffset|] eqn:Hconst.
  - rewrite elem_of_slotInsert.
    destruct k as [base lead], v as [off I]. cbn [fst snd]. split.
    + intros [Hv|[[= -> ->] [= -> ->]]]; [by left|right].
      by exists idx.
    + intros [Hv|(idx0 & -> & [= <-] & [= <-] & Hoff & ->)]; [by left|right].
      rewrite Hconst in Hoff. by injection Hoff as ->.
  - split; [by left|].
    intros [Hv|(idx0 & _ & _ & [= <-] & Hoff & _)]; [done|].
    by rewrite Hconst in Hoff.
Qed.

Lemma multiIndexCaseHandler_adds (m : OffsetMap) (Gep_Inst : GEP)
    (Inst : Z) (k : BaseKey) (v : Z * Z) :
  v ∈ default ∅ (multiIndexCaseHandler m Gep_Inst Inst !! k)
  ↔ v ∈ default ∅ (m !! k)
    ∨ ∃ idx, PointerOperand Gep_Inst = k.1
             ∧ leadingOffsets
                 (take (length (Indices Gep_Inst) - 1) (Indices Gep_Inst))
               = Some k.2
             ∧ last (Indices Gep_Inst) = Some idx
             ∧ IndexConstant idx = Some v.1
             ∧ v.2 = Inst.
Proof.
  unfold multiIndexCaseHandler, OffsetMap in *. cbv zeta.
  destruct (leadingOffsets _) as [offsets|] eqn:Hlead.
  2: { split; [by left|]. intros [Hv|(idx & _ & Hl & _)]; done. }
  destruct (last (Indices Gep_Inst)) as [idx|] eqn:Hlast.
  2: { split; [by left|]. intros [Hv|(idx & _ & _ & Hl & _)]; done. }
  destruct (IndexConstant idx) as [intLastOffset|] eqn:Hconst.
  - rewrite elem_of_slotInsert.
    destruct k as [base lead], v as [off I]. cbn [fst snd]. split.
    + intros [Hv|[[= -> ->] [= -> ->]]]; [by left|right].
      by exists idx.
    + intros [Hv|(idx0 & -> & [= <-] & [= <-] & Hoff & ->)]; [by left|right].
      rewrite Hconst in Hoff. by injection Hoff as ->.
  - split; [by left|].
    intros [Hv|(idx0 & _ & _ & [= <-] & Hoff & _)]; [done|].
    by rewrite Hconst in Hoff.
Qed.

Lemma baseAddrOffsetMapPreprocessing_entries (ToInstrument : list Z)
    (k : BaseKey) (v : Z * Z) :
  v ∈ default ∅ (baseAddrOffsetMapPreprocessing F ToInstrument !! k)
  ↔ ∃ Inst, Inst ∈ ToInstrument ∧ addsEntry F Inst k v.
Proof.
  unfold baseAddrOffsetMapPreprocessing, OffsetMap.
  rewrite (foldl_slots _ (addsEntry F)).
  - rewrite lookup_empty. split; [|by right].
    intros [Hv|Hv]; [by apply elem_of_empty in Hv|done].
  - intros m Inst k' v' _. unfold addsEntry.
    destruct (isInterestingMemoryAccess F Inst) as [acc|].
    2: { split; [by left|]. intros [Hv|(acc & g & idx & Hacc & _)]; done. }
    destruct (stripCasts (addrExpr F (Addr acc))) as [op|Gep_Inst|] eqn:Hgep.
    1, 3: (split; [by left|];
           intros [Hv|(acc' & g & idx & [= <-] & Hg & _)]; [done|];
           by rewrite Hgep in Hg).
    destruct (decide (length (Indices Gep_Inst) = 1%nat)) as [Hone|Hmany].
    + rewrite singleIndexCaseHandler_adds by done.
      split; (intros [Hv|Hv]; [by left|right]).
      * destruct Hv as (idx & Hv). by exists acc, Gep_Inst, idx.
      * destruct Hv as (acc' & g & idx & [= <-] & Hg & Hv).
        rewrite Hgep in Hg. injection Hg as <-. by exists idx.
    + rewrite multiIndexCaseHandler_adds.
      split; (intros [Hv|Hv]; [by left|right]).
      * destruct Hv as (idx & Hv). by exists acc, Gep_Inst, idx.
      * destruct Hv as (acc' & g & idx & [= <-] & Hg & Hv).
        rewrite Hgep in Hg. injection Hg as <-. by exists idx.
Qed.

(** X16 [baseAddrOffsetMapPreprocessing]: the entry (offset, I) is in
    the slot (base, leading) exactly when I is an instruction of the
    list whose address, under its casts, is a GEP of that base whose
    indices are all constants, the last one being the offset and the
    others, each cut to a character, making up the string of the slot;
    a GEP of one index goes to the slot of the empty string. *)
Theorem offset_map_entries (ToInstrument : list Z) (base : Z)
    (leading : list Z) (offset I : Z) :
  (offset, I)
    ∈ default ∅
        (baseAddrOffsetMapPreprocessing F ToInstrument !! (base, leading))
  ↔ I ∈ ToInstrument
    ∧ ∃ acc Gep_Inst idx,
        isInterestingMemoryAccess F I = Some acc
        ∧ stripCasts (addrExpr F (Addr acc)) = GetElementPtrInst Gep_Inst
        ∧ PointerOperand Gep_Inst = base
        ∧ leadingOffsets
            (take (length (Indices Gep_Inst) - 1) (Indices Gep_Inst))
          = Some leading
        ∧ last (Indices Gep_Inst) = Some idx
        ∧ IndexConstant idx = Some offset.
Proof.
  rewrite baseAddrOffsetMapPreprocessing_entries. unfold addsEntry.
  cbn [fst snd]. split.
  - intros (Inst & HInst & acc & g & idx & Hacc & Hg & Hb & Hl & Hlast
            & Hoff & <-).
    split; [done|]. by exists acc, g, idx.
  - intros (HI & acc & g & idx & Hacc & Hg & Hb & Hl & Hlast & Hoff).
    exists I. split; [done|]. by exists acc, g, idx.
Qed.
End OffsetMapFacts.

(** ** Merging neighbor checks *)

Section MergingFacts.
Variable F : Analyses.

Lemma mergeCandidates_spec (offsetInstA : Z * Z) (nodes : list (Z * Z)) :
  Forall (λ offsetInstB,
            offsetInstB ∈ nodes ∧ offsetInstB ≠ offsetInstA
            ∧ mergeable F offsetInstA offsetInstB = true)
         (mergeCandidates F offsetInstA nodes).
Proof.
  induction nodes as [|offsetInstB rest IH]; cbn [mergeCandidates].
  - constructor.
  - assert (Forall (λ B, B ∈ offsetInstB :: rest ∧ B ≠ offsetInstA
                         ∧ mergeable F offsetInstA B = true)
              (mergeCandidates F offsetInstA rest)) as IH'.
    { eapply Forall_impl; [exact IH|]. cbn. intros B (HB & Hne & Hm).
      split; [by right|done]. }
    destruct (decide (offsetInstA = offsetInstB)) as [Heq|Hne]; [done|].
    destruct (mergeable F offsetInstA offsetInstB) eqn:Hm; [|constructor].
    constructor; [|done]. split; [left|by split].
Qed.

Lemma preprocessInstructionsMap_lookup (baseAddrOffsetSet : gset (Z * Z))
    (offsetInstA : Z * Z) (vec : list (Z * Z)) :
  preprocessInstructionsMap F baseAddrOffsetSet !! offsetInstA = Some vec →
  offsetInstA ∈ baseAddrOffsetSet
  ∧ vec = mergeCandidates F offsetInstA (pset_iter baseAddrOffsetSet)
  ∧ vec ≠ [].
Proof.
  unfold preprocessInstructionsMap, InstructionsMap. cbv zeta.
  rewrite <- (elem_of_pset_iter baseAddrOffsetSet offsetInstA).
  set (all := pset_iter baseAddrOffsetSet).
  assert (∀ (nodes : list (Z * Z)) (m : gmap (Z * Z) (list (Z * Z))),
    foldl (λ m A, match mergeCandidates F A all with
                  | [] => m
                  | candidates => <[A := candidates]> m
                  end) m nodes !! offsetInstA = Some vec →
    m !! offsetInstA = Some vec
    ∨ (offsetInstA ∈ nodes
       ∧ vec = mergeCandidates F offsetInstA all ∧ vec ≠ [])) as Hgen.
  { intros nodes.
    induction nodes as [|A nodes IH]; intros m; cbn [foldl]; [by left|].
    intros Hl. destruct (IH _ Hl) as [Hm|(Hin & Hvec & Hne)].
    - destruct (mergeCandidates F A all) as [|B cands] eqn:Hc; [by left|].
      destruct (decide (A = offsetInstA)) as [->|HA].
      + rewrite lookup_insert_eq in Hm. injection Hm as <-.
        right. split; [left|]. by rewrite Hc.
      + rewrite lookup_insert_ne in Hm by done. by left.
    - right. split; [by right|done]. }
  intros Hl. destruct (Hgen all ∅ Hl) as [Hm|H]; [|done].
  by rewrite lookup_empty in Hm.
Qed.

(** X17 [preprocessInstructionsMap]: the vector recorded for a node A is
    never empty, so that its first element exists; A is a node of the
    set; and every node B of the vector is another node of the set whose
    offset is less than [CHECK_RANGE] away from that of A, with A and B
    related by [checkConditionPairwisedNodes] one way or the other. *)
Theorem merge_candidates_are_neighbors (baseAddrOffsetSet : gset (Z * Z))
    (offsetInstA : Z * Z) (vec : list (Z * Z)) :
  preprocessInstructionsMap F baseAddrOffsetSet !! offsetInstA = Some vec →
  vec ≠ []
  ∧ offsetInstA ∈ baseAddrOffsetSet
  ∧ Forall (λ offsetInstB,
      offsetInstB ∈ baseAddrOffsetSet
      ∧ offsetInstB ≠ offsetInstA
      ∧ - CHECK_RANGE < offsetInstA.1 - offsetInstB.1 < CHECK_RANGE
      ∧ (checkConditionPairwisedNodes F offsetInstA.2 offsetInstB.2 = true
         ∨ checkConditionPairwisedNodes F offsetInstB.2 offsetInstA.2
           = true)) vec.
Proof.
  intros Hl.
  destruct (preprocessInstructionsMap_lookup _ _ _ Hl) as (HA & -> & Hne).
  split; [done|]. split; [done|].
  eapply Forall_impl; [apply mergeCandidates_spec|].
  cbn. intros B (HB & HBA & Hm).
  apply elem_of_pset_iter in HB.
  unfold mergeable in Hm.
  rewrite !andb_true_iff, orb_true_iff, !Z.ltb_lt in Hm.
  split_and!; [done|done|lia|lia|tauto].
Qed.
End MergingFacts.

Lemma merge_candidates_are_neighbors_witness :
  [(0, 4); (5, 1)] ≠ []
  ∧ (20, 5) ∈ sideBranchOffsets
  ∧ Forall (λ offsetInstB : Z * Z,
      offsetInstB ∈ sideBranchOffsets
      ∧ offsetInstB ≠ (20, 5)
      ∧ - CHECK_RANGE < (20, 5).1 - offsetInstB.1 < CHECK_RANGE
      ∧ (checkConditionPairwisedNodes sideBranch (20, 5).2 offsetInstB.2
         = true
         ∨ checkConditionPairwisedNodes sideBranch offsetInstB.2 (20, 5).2
           = true)) [(0, 4); (5, 1)].
Proof.
  apply (merge_candidates_are_neighbors sideBranch sideBranchOffsets (20, 5)
           [(0, 4); (5, 1)]).
  vm_compute. reflexivity.
Defined.

(** ** The order in which clusters are merged *)

Lemma pair_le_total : Total pair_le.
Proof. intros [a1 a2] [b1 b2]. unfold pair_le. cbn. lia. Qed.

Lemma pair_le_trans : Transitive pair_le.
Proof. intros [a1 a2] [b1 b2] [c1 c2]. unfold pair_le. cbn. lia. Qed.

Lemma ranked_le_total : Total ranked_le.
Proof.
  intros [a1 [a2 a3]] [b1 [b2 b3]]. unfold ranked_le. cbn [fst snd].
  destruct (Z.lt_trichotomy a1 b1) as [Hlt|[->|Hgt]];
    [by left; left| |by right; left].
  destruct (pair_le_total a2 b2); [left|right]; by right.
Qed.

Lemma ranked_le_trans : Transitive ranked_le.
Proof.
  intros [a1 [a2 a3]] [b1 [b2 b3]] [c1 [c2 c3]]. unfold ranked_le.
  cbn [fst snd]. intros [Hab|[Hab Hab']] [Hbc|[Hbc Hbc']];
    [left; lia|left; lia|left; lia|].
  right. split; [lia|]. by apply (pair_le_trans a2 b2 c2).
Qed.

Lemma StronglySorted_lookup {A : Type} (R : relation A) (l : list A) :
  StronglySorted R l →
  ∀ (i j : nat) (x y : A),
    (i < j)%nat → l !! i = Some x → l !! j = Some y → R x y.
Proof.
  induction 1 as [|a l Hl IH Hall]; intros i j x y Hij Hi Hj; [done|].
  destruct j as [|j]; [lia|]. cbn in Hj.
  destruct i as [|i]; cbn in Hi.
  - injection Hi as <-. rewrite Forall_forall in Hall.
    apply Hall. by eapply list_elem_of_lookup_2.
  - apply (IH i j); [lia|done|done].
Qed.

(** X18 [prioritiseRemovableInst]: the list holds one entry for every
    node that has a vector, with the length of the vector as its
    number, and the entries come with the longest vectors first. *)
Theorem clusters_are_ranked_by_size (instructionsMap : InstructionsMap) :
  let ranked := prioritiseRemovableInst instructionsMap in
  (∀ entry, entry ∈ ranked
            ↔ instructionsMap !! entry.2.1 = Some entry.2.2
              ∧ entry.1 = Z.of_nat (length entry.2.2))
  ∧ length ranked = size instructionsMap
  ∧ ∀ (i j : nat) first second,
      (i < j)%nat → ranked !! i = Some first → ranked !! j = Some second →
      second.1 ≤ first.1.
Proof.
  intros ranked. subst ranked.
  unfold prioritiseRemovableInst, InstructionsMap in *. cbv zeta.
  set (entries :=
         map (λ instVector : (Z * Z) * list (Z * Z),
                (Z.of_nat (length instVector.2), instVector))
             (merge_sort (λ a b : (Z * Z) * list (Z * Z), pair_le a.1 b.1)
                (map_to_list instructionsMap))).
  split_and!.
  - intros [n [A vec]]. cbn [fst snd].
    rewrite elem_of_reverse, merge_sort_Permutation. unfold entries.
    rewrite list_elem_of_fmap. split.
    + intros ([A' vec'] & [= -> -> ->] & Hin).
      rewrite merge_sort_Permutation in Hin.
      by apply elem_of_map_to_list in Hin.
    + intros [Hl ->]. exists (A, vec). split; [done|].
      rewrite merge_sort_Permutation. by apply elem_of_map_to_list.
  - rewrite length_reverse, merge_sort_Permutation. unfold entries.
    rewrite length_map, merge_sort_Permutation.
    by rewrite length_map_to_list.
  - assert (StronglySorted (flip ranked_le)
              (reverse (merge_sort ranked_le entries))) as Hsorted.
    { apply (@Sorted_StronglySorted _ (flip ranked_le)).
      - intros x y z Hxy Hyz. by apply (ranked_le_trans z y x).
      - apply Sorted_reverse.
        apply (@Sorted_merge_sort _ ranked_le _ ranked_le_total). }
    intros i j e1 e2 Hij Hi Hj.
    pose proof (StronglySorted_lookup _ _ Hsorted i j e1 e2 Hij Hi Hj) as Hle.
    unfold flip, ranked_le in Hle. lia.
Qed.

(** ** The groups of the sequential passes *)

Section GroupFacts.
Variable F : Analyses.

(** What the pre-processing loop keeps: a slot holds interesting
    accesses of the list whose address is the key of the slot or
    must-aliases it, and every interesting access seen so far is in a
    slot. *)
Lemma groups_members (l : list Z) : ∀ (M : gmap Z (gset Z)) (pre : list Z),
  (∀ k s x, M !! k = Some s → x ∈ s →
     x ∈ pre
     ∧ ∃ acc, isInterestingMemoryAccess F x = Some acc
              ∧ (Addr acc = k ∨ isMustAlias F k (Addr acc) = true)) →
  (∀ x, x ∈ pre → is_Some (isInterestingMemoryAccess F x) →
     ∃ k s, M !! k = Some s ∧ x ∈ s) →
  let M' := foldl (groupStep F) M l in
  (∀ k s x, M' !! k = Some s → x ∈ s →
     x ∈ pre ++ l
     ∧ ∃ acc, isInterestingMemoryAccess F x = Some acc
              ∧ (Addr acc = k ∨ isMustAlias F k (Addr acc) = true))
  ∧ (∀ x, x ∈ pre ++ l → is_Some (isInterestingMemoryAccess F x) →
       ∃ k s, M' !! k = Some s ∧ x ∈ s).
Proof.
  induction l as [|Inst l IH]; intros M pre Hmem Hcov; cbn [foldl].
  { rewrite app_nil_r. done. }
  replace (pre ++ Inst :: l) with ((pre ++ [Inst]) ++ l)
    by by rewrite <- app_assoc.
  assert (∀ k0 s0,
    (M !! k0 = Some s0 ∨ (M !! k0 = None ∧ s0 = ∅)) →
    ∀ acc, isInterestingMemoryAccess F Inst = Some acc →
    (Addr acc = k0 ∨ isMustAlias F k0 (Addr acc) = true) →
    (∀ k s x, <[k0 := {[Inst]} ∪ s0]> M !! k = Some s → x ∈ s →
       x ∈ pre ++ [Inst]
       ∧ ∃ acc, isInterestingMemoryAccess F x = Some acc
                ∧ (Addr acc = k ∨ isMustAlias F k (Addr acc) = true))
    ∧ (∀ x, x ∈ pre ++ [Inst] → is_Some (isInterestingMemoryAccess F x) →
         ∃ k s, <[k0 := {[Inst]} ∪ s0]> M !! k = Some s ∧ x ∈ s))
    as Hinsert.
  { intros k0 s0 Hk0 acc Hacc Halias. split.
    - intros k s x Hk Hx.
      destruct (decide (k = k0)) as [->|Hne].
      + rewrite lookup_insert_eq in Hk. injection Hk as <-.
        apply elem_of_union in Hx as [Hx|Hx].
        * apply elem_of_singleton in Hx as ->.
          split; [apply elem_of_app; right; left|by exists acc].
        * destruct Hk0 as [Hk0|[_ ->]]; [|by apply elem_of_empty in Hx].
          destruct (Hmem _ _ _ Hk0 Hx) as [Hpre Hacc'].
          split; [apply elem_of_app; by left|done].
      + rewrite lookup_insert_ne in Hk by done.
        destruct (Hmem _ _ _ Hk Hx) as [Hpre Hacc'].
        split; [apply elem_of_app; by left|done].
    - intros x Hx Hint. apply elem_of_app in Hx as [Hx|Hx].
      + destruct (Hcov x Hx Hint) as (k & s & Hk & Hxs).
        destruct (decide (k = k0)) as [->|Hne].
        * exists k0, ({[Inst]} ∪ s0). rewrite lookup_insert_eq.
          split; [done|]. apply elem_of_union. right.
          destruct Hk0 as [Hk0|[Hk0 _]]; [|by rewrite Hk0 in Hk].
          rewrite Hk0 in Hk. by injection Hk as ->.
        * exists k, s. by rewrite lookup_insert_ne.
      + apply list_elem_of_singleton in Hx as ->.
        exists k0, ({[Inst]} ∪ s0). rewrite lookup_insert_eq.
        split; [done|]. apply elem_of_union. left.
        by apply elem_of_singleton. }
  apply IH; unfold groupStep.
  - destruct (isInterestingMemoryAccess F Inst) as [acc|] eqn:Hacc.
    + destruct (M !! Addr acc) as [s0|] eqn:Hlook.
      * apply (Hinsert _ s0 ltac:(by left) acc eq_refl). by left.
      * destruct (List.find _ _) as [[k0 s0]|] eqn:Hfind.
        -- apply List.find_some in Hfind as [Hin Halias].
           apply list_elem_of_In, elem_of_map_iter in Hin.
           apply (Hinsert _ s0 ltac:(by left) acc eq_refl). by right.
        -- replace ({[Inst]} : gset Z) with ({[Inst]} ∪ ∅ : gset Z)
             by apply union_empty_r_L.
           apply (Hinsert _ ∅ ltac:(by right) acc eq_refl). by left.
    + intros k s x Hk Hx. destruct (Hmem _ _ _ Hk Hx) as [Hpre Hacc'].
      split; [apply elem_of_app; by left|done].
  - destruct (isInterestingMemoryAccess F Inst) as [acc|] eqn:Hacc.
    + destruct (M !! Addr acc) as [s0|] eqn:Hlook.
      * apply (Hinsert _ s0 ltac:(by left) acc eq_refl). by left.
      * destruct (List.find _ _) as [[k0 s0]|] eqn:Hfind.
        -- apply List.find_some in Hfind as [Hin Halias].
           apply list_elem_of_In, elem_of_map_iter in Hin.
           apply (Hinsert _ s0 ltac:(by left) acc eq_refl). by right.
        -- replace ({[Inst]} : gset Z) with ({[Inst]} ∪ ∅ : gset Z)
             by apply union_empty_r_L.
           apply (Hinsert _ ∅ ltac:(by right) acc eq_refl). by left.
    + intros x Hx Hint. apply elem_of_app in Hx as [Hx|Hx].
      * by apply Hcov.
      * apply list_elem_of_singleton in Hx as ->.
        rewrite Hacc in Hint. by destruct Hint.
Qed.

Lemma AddrToInstructions_members (ToInstrument : list Z) :
  (∀ k s x, AddrToInstructions F ToInstrument !! k = Some s → x ∈ s →
     x ∈ ToInstrument
     ∧ ∃ acc, isInterestingMemoryAccess F x = Some acc
              ∧ (Addr acc = k ∨ isMustAlias F k (Addr acc) = true))
  ∧ (∀ x, x ∈ ToInstrument → is_Some (isInterestingMemoryAccess F x) →
       ∃ k s, AddrToInstructions F ToInstrument !! k = Some s ∧ x ∈ s).
Proof.
  unfold AddrToInstructions.
  apply (groups_members ToInstrument ∅ []).
  - intros k s x Hk. by rewrite lookup_empty in Hk.
  - intros x Hx. by apply elem_of_nil in Hx.
Qed.

(** X19 [sequentialExecuteOptimization]: the pre-processing loop puts
    every interesting access of the list into a slot and nothing else;
    the address of a member is the key of its slot or must-aliases it;
    and when no instruction occurs twice in the list, no instruction is
    in two slots. *)
Theorem accesses_are_grouped_by_address (ToInstrument : list Z) :
  let M := AddrToInstructions F ToInstrument in
  (∀ x, (∃ k s, M !! k = Some s ∧ x ∈ s)
        ↔ x ∈ ToInstrument ∧ is_Some (isInterestingMemoryAccess F x))
  ∧ (∀ k s x, M !! k = Some s → x ∈ s →
       ∃ acc, isInterestingMemoryAccess F x = Some acc
              ∧ (Addr acc = k ∨ isMustAlias F k (Addr acc) = true))
  ∧ (NoDup ToInstrument →
     ∀ k1 k2 s1 s2 x,
       M !! k1 = Some s1 → M !! k2 = Some s2 → x ∈ s1 → x ∈ s2 → k1 = k2).
Proof.
  intros M. subst M.
  destruct (AddrToInstructions_members ToInstrument) as [Hmem Hcov].
  split_and!.
  - intros x. split.
    + intros (k & s & Hk & Hx).
      destruct (Hmem k s x Hk Hx) as (Hin & acc & Hacc & _).
      split; [done|by exists acc].
    + intros [Hx Hint]. by apply Hcov.
  - intros k s x Hk Hx. by destruct (Hmem k s x Hk Hx).
  - intros Hnd. by destruct (AddrToInstructions_inv F ToInstrument Hnd).
Qed.

(** The deleted set of the sequential passes holds members of the
    slots. *)
Lemma deleteCovered_within (covers : Z → Z → bool) (inst1 : Z)
    (group : list Z) : ∀ (del : gset Z) (x : Z),
  x ∈ deleteCovered covers inst1 group del → x ∈ del ∨ x ∈ group.
Proof.
  unfold deleteCovered.
  induction group as [|inst2 group IH]; intros del x Hx; cbn [foldl] in Hx;
    [by left|].
  apply IH in Hx as [Hx|Hx]; [|right; by right].
  destruct (decide (inst1 = inst2 ∨ inst2 ∈ del)); [by left|].
  destruct (covers inst1 inst2); [|by left].
  apply elem_of_union in Hx as [Hx|Hx]; [|by left].
  apply elem_of_singleton in Hx as ->. right. left.
Qed.

Lemma deleteInGroup_within (covers : Z → Z → bool) (group : list Z)
    (del : gset Z) (x : Z) :
  x ∈ deleteInGroup covers group del → x ∈ del ∨ x ∈ group.
Proof.
  unfold deleteInGroup.
  assert (∀ (all grp : list Z) (del : gset Z),
    x ∈ foldl (λ del inst1,
                 if decide (inst1 ∈ del) then del
                 else deleteCovered covers inst1 all del) del grp →
    x ∈ del ∨ x ∈ all) as Hgen.
  { intros all grp. induction grp as [|inst1 grp IH]; intros del' Hx;
      cbn [foldl] in Hx; [by left|].
    apply IH in Hx as [Hx|Hx]; [|by right].
    destruct (decide (inst1 ∈ del')); [by left|].
    by apply deleteCovered_within in Hx. }
  apply Hgen.
Qed.

Lemma deleteRecurring_within (covers : Z → Z → bool) (M : gmap Z (gset Z))
    (x : Z) :
  x ∈ deleteRecurring covers M → ∃ k s, M !! k = Some s ∧ x ∈ s.
Proof.
  unfold deleteRecurring.
  assert (∀ (items : list (Z * gset Z)) (del : gset Z),
    x ∈ foldl (λ del (item : Z * gset Z),
                 deleteInGroup covers (set_iter item.2) del) del items →
    x ∈ del ∨ ∃ item, item ∈ items ∧ x ∈ item.2) as Hgen.
  { intros items. induction items as [|item items IH]; intros del Hx;
      cbn [foldl] in Hx; [by left|].
    apply IH in Hx as [Hx|(item' & Hitem & Hx)].
    - apply deleteInGroup_within in Hx as [Hx|Hx]; [by left|].
      right. exists item. split; [left|by apply elem_of_set_iter].
    - right. exists item'. split; [by right|done]. }
  intros Hx. apply Hgen in Hx as [Hx|([k s] & Hitem & Hx)].
  - by apply elem_of_empty in Hx.
  - exists k, s. split; [by apply elem_of_map_iter|done].
Qed.

(** The sequential passes keep what is no interesting access. *)
Lemma sequential_keeps_uninteresting (covers : Z → Z → bool)
    (ToInstrument : list Z) (I : Z) :
  I ∈ ToInstrument → isInterestingMemoryAccess F I = None →
  I ∈ keepNonDeleted
        (deleteRecurring covers (AddrToInstructions F ToInstrument))
        ToInstrument.
Proof.
  intros HI Hnone. unfold keepNonDeleted.
  apply list_elem_of_filter. split; [|done].
  intros Hdel. apply deleteRecurring_within in Hdel as (k & s & Hk & Hx).
  destruct (AddrToInstructions_members ToInstrument) as [Hmem _].
  destruct (Hmem k s I Hk Hx) as (_ & acc & Hacc & _).
  by rewrite Hnone in Hacc.
Qed.
End GroupFacts.

(** ** What the neighbor pass removes *)

Lemma elem_of_prioritiseRemovableInst (instructionsMap : InstructionsMap)
    (entry : RankedEntry) :
  entry ∈ prioritiseRemovableInst instructionsMap →
  instructionsMap !! entry.2.1 = Some entry.2.2.
Proof.
  unfold prioritiseRemovableInst, InstructionsMap in *. cbv zeta.
  rewrite elem_of_reverse, merge_sort_Permutation, list_elem_of_fmap.
  intros ([A vec] & -> & Hin). cbn [fst snd].
  rewrite merge_sort_Permutation in Hin.
  by apply elem_of_map_to_list in Hin.
Qed.

Section BoostFacts.
Variable analyse : list IREdit → Analyses.
Variable Scale : Z.

Lemma optimizeInstrumentation_deleted
    (rankPotentialRemoveInsts : list RankedEntry) (deleted : gset Z)
    (log : list IREdit) :
  let deleted' :=
    (optimizeInstrumentation analyse Scale rankPotentialRemoveInsts deleted
       log).1 in
  deleted ⊆ deleted'
  ∧ ∀ I, I ∈ deleted' →
         I ∈ deleted
         ∨ ∃ optInst, optInst ∈ rankPotentialRemoveInsts
                      ∧ I ∈ mergedAway optInst.
Proof.
  unfold optimizeInstrumentation.
  assert (∀ (rank : list RankedEntry)
            (st : list (Z * Z) * gset Z * list IREdit),
    let st' :=
      foldl (λ st (optInst : RankedEntry),
               let '(erased, deleted, log) := st in
               if decide (optInst.2.1 ∈ (erased : list (Z * Z))) then st
               else (optInst.2.2 ++ erased, mergedAway optInst ∪ deleted,
                     log ++ [mergedGuard (analyse log) Scale optInst]))
            st rank in
    st.1.2 ⊆ st'.1.2
    ∧ ∀ I, I ∈ st'.1.2 →
           I ∈ st.1.2 ∨ ∃ optInst, optInst ∈ rank ∧ I ∈ mergedAway optInst)
    as Hgen.
  { induction rank as [|optInst rank IH]; intros st; cbn [foldl].
    - split; [done|]. intros I HI. by left.
    - destruct st as [[erased del] lg]. cbv zeta.
      destruct (decide (optInst.2.1 ∈ erased)).
      + destruct (IH (erased, del, lg)) as [Hsub Hnew].
        split; [done|]. intros I HI.
        destruct (Hnew I HI) as [?|(o & Ho & Hm)]; [by left|].
        right. exists o. split; [by right|done].
      + destruct (IH (optInst.2.2 ++ erased, mergedAway optInst ∪ del,
                      lg ++ [mergedGuard (analyse lg) Scale optInst]))
          as [Hsub Hnew].
        cbn [fst snd] in *.
        split; [etrans; [apply union_subseteq_r|exact Hsub]|].
        intros I HI.
        destruct (Hnew I HI) as [Hin|(o & Ho & Hm)].
        * apply elem_of_union in Hin as [Hin|Hin]; [|by left].
          right. exists optInst. split; [left|done].
        * right. exists o. split; [by right|done]. }
  specialize (Hgen rankPotentialRemoveInsts ([], deleted, log)).
  cbv zeta in Hgen.
  destruct (foldl _ _ rankPotentialRemoveInsts) as [[erased' deleted'] log'].
  done.
Qed.

Lemma mrgNeighborChks_deleted (baseAddrOffsetMap_multi : OffsetMap)
    (deleted : gset Z) (log : list IREdit) :
  let deleted' :=
    (mrgNeighborChks analyse Scale baseAddrOffsetMap_multi deleted log).1 in
  deleted ⊆ deleted'
  ∧ ∀ I, I ∈ deleted' →
         I ∈ deleted
         ∨ ∃ key s offset, baseAddrOffsetMap_multi !! key = Some s
                           ∧ (2 ≤ size s)%nat ∧ (offset, I) ∈ s.
Proof.
  unfold mrgNeighborChks.
  assert (∀ item, item ∈ basemap_iter baseAddrOffsetMap_multi →
            baseAddrOffsetMap_multi !! item.1 = Some item.2) as Hitems.
  { intros [k s]. apply elem_of_basemap_iter. }
  revert Hitems deleted log.
  generalize (basemap_iter baseAddrOffsetMap_multi) as items.
  induction items as [|item items IH]; intros Hitems deleted log;
    cbn [foldl].
  { split; [done|]. intros I HI. by left. }
  destruct (decide (2 ≤ size (item.2 : gset (Z * Z)))%nat) as [Hsize|Hsize].
  - pose proof (optimizeInstrumentation_deleted
                  (prioritiseRemovableInst
                     (preprocessInstructionsMap (analyse log) item.2))
                  deleted log) as Hopt.
    cbv zeta in Hopt.
    destruct (optimizeInstrumentation _ _ _ _ _) as [deleted1 log1].
    cbn [fst] in Hopt. destruct Hopt as [Hsub1 Hnew1].
    destruct (IH ltac:(intros; apply Hitems; by right) deleted1 log1)
      as [Hsub Hnew].
    split; [by etrans|].
    intros I HI. destruct (Hnew I HI) as [Hin|Hlater]; [|by right].
    destruct (Hnew1 I Hin) as [?|(optInst & Hrank & Hmerged)]; [by left|].
    right.
    apply elem_of_prioritiseRemovableInst in Hrank.
    destruct (preprocessInstructionsMap_lookup _ _ _ _ Hrank)
      as (HA & Hvec & _).
    pose proof (mergeCandidates_spec (analyse log) optInst.2.1
                  (pset_iter item.2)) as Hcands.
    rewrite <- Hvec in Hcands. rewrite Forall_forall in Hcands.
    unfold mergedAway in Hmerged.
    apply elem_of_union in Hmerged as [Hkey|Hvecs].
    + apply elem_of_singleton in Hkey as ->.
      exists item.1, item.2, optInst.2.1.1.
      split_and!; [apply Hitems; left|done|].
      by destruct (optInst.2.1).
    + apply elem_of_list_to_set, list_elem_of_fmap in Hvecs
        as ([off I'] & -> & HB).
      destruct (Hcands _ HB) as (HBs & _).
      apply elem_of_pset_iter in HBs.
      exists item.1, item.2, off.
      split_and!; [apply Hitems; left|done|done].
  - apply IH. intros item' Hin. apply Hitems. by right.
Qed.

Lemma updateBaseAddrOffsetMap_lookup (baseAddrOffsetMap_multi : OffsetMap)
    (deleted : gset Z) (key : BaseKey) (s : gset (Z * Z)) (p : Z * Z) :
  updateBaseAddrOffsetMap baseAddrOffsetMap_multi deleted !! key = Some s →
  p ∈ s →
  p ∈ default ∅ (baseAddrOffsetMap_multi !! key) ∧ p.2 ∉ deleted.
Proof.
  unfold updateBaseAddrOffsetMap, OffsetMap in *. rewrite lookup_fmap.
  destruct (baseAddrOffsetMap_multi !! key) as [old|]; [|done].
  cbn. intros [= <-] Hp. by apply elem_of_filter in Hp as [Hp Hold].
Qed.

(** What the neighbor pass takes from the list has an entry in the map
    of offsets. *)
Lemma sequentialExecuteOptimizationBoost_keeps (ToInstrument : list Z)
    (log : list IREdit) (I : Z) :
  I ∈ ToInstrument →
  (∀ key offset,
     (offset, I)
       ∉ default ∅
           (baseAddrOffsetMapPreprocessing (analyse log) ToInstrument
              !! key)) →
  I ∈ (sequentialExecuteOptimizationBoost analyse Scale ToInstrument log).1.
Proof.
  intros HI Hno. unfold sequentialExecuteOptimizationBoost. cbv zeta.
  set (M := baseAddrOffsetMapPreprocessing (analyse log) ToInstrument) in *.
  set (deleted := rmNeighborChks (analyse log) M ∅).
  pose proof (mrgNeighborChks_deleted (updateBaseAddrOffsetMap M deleted)
                deleted log) as Hmrg.
  cbv zeta in Hmrg.
  destruct (mrgNeighborChks _ _ _ _ _) as [deleted' log'].
  cbn [fst] in *. destruct Hmrg as [_ Hnew].
  unfold keepNonDeleted. apply list_elem_of_filter. split; [|done].
  intros Hdel. destruct (Hnew I Hdel) as [Hrm|(key & s & off & Hk & _ & Hin)].
  - destruct (rmNeighborChks_inv (analyse log) M ∅) as [_ Hrmnew].
    destruct (Hrmnew I Hrm ltac:(apply not_elem_of_empty))
      as (key & s & Hk & _ & [pairs Hpairs]).
    pose proof (preprocessPotentialRemoveInsts_nonempty _ s I pairs Hpairs)
      as Hne.
    apply set_choose_L in Hne as [pair Hpair].
    assert (pair ∈ default ∅
                     (preprocessPotentialRemoveInsts (analyse log) s !! I))
      as Hp by by rewrite Hpairs.
    apply preprocessPotentialRemoveInsts_pairs in Hp
      as (A & [offB B'] & C & _ & HB & _ & _ & HeqB & _).
    cbn [snd] in HeqB. subst B'.
    apply (Hno key offB). by rewrite Hk.
  - destruct (updateBaseAddrOffsetMap_lookup _ _ _ _ _ Hk Hin) as [Hold _].
    by apply (Hno key off).
Qed.
End BoostFacts.

(** ** What the loop pass takes from the list *)

Section LoopPassFacts.
Variable analyse : list IREdit → Analyses.
Variable cfg : Config.
Variable uninitialized : Z → SCEVOut.

(** The answer of the handler that the loop pass calls for [Inst]. *)
Lemma loopOptimization_optimized (ToInstrument : list Z) (log : list IREdit)
    (I : Z) :
  I ∈ ToInstrument →
  I ∉ (loopOptimization analyse cfg uninitialized ToInstrument log).1 →
  ∃ log' L,
    getLoopFor (analyse log') (getParent (analyse log') I) = Some L
    ∧ ((InvariantOptimizeHandler (analyse log') cfg L I
          (useCalls cfg ToInstrument)).2 = true
       ∨ (MonotonicOptimizeHandler (analyse log') cfg (uninitialized I) L I
            (useCalls cfg ToInstrument)).2 = true).
Proof.
  intros HI. unfold loopOptimization. cbv zeta.
  set (UseCalls := useCalls cfg ToInstrument).
  set (step := λ (st : gset Z * list IREdit) (Inst : Z),
         let '(optimized, log) := st in
         match getLoopFor (analyse log) (getParent (analyse log) Inst) with
         | None => st
         | Some L =>
             let '(edits, inserted) :=
               if decide (loopOptimizationCategorise (analyse log) L Inst
                          = IBIO)
               then InvariantOptimizeHandler (analyse log) cfg L Inst UseCalls
               else MonotonicOptimizeHandler (analyse log) cfg
                      (uninitialized Inst) L Inst UseCalls in
             (if inserted then {[Inst]} ∪ optimized else optimized,
              log ++ edits)
         end).
  assert (∀ (l : list Z) (st : gset Z * list IREdit),
            I ∈ (foldl step st l).1 →
            I ∈ st.1
            ∨ ∃ log' L,
                getLoopFor (analyse log') (getParent (analyse log') I)
                = Some L
                ∧ ((InvariantOptimizeHandler (analyse log') cfg L I
                      UseCalls).2 = true
                   ∨ (MonotonicOptimizeHandler (analyse log') cfg
                        (uninitialized I) L I UseCalls).2 = true)) as Hgen.
  { induction l as [|Inst l IH]; intros st; cbn [foldl]; [by left|].
    intros Hin. destruct (IH _ Hin) as [Hst|Hlater]; [|by right].
    destruct st as [optimized lg]. unfold step in Hst. cbn [fst].
    destruct (getLoopFor (analyse lg) (getParent (analyse lg) Inst))
      as [L|] eqn:HL; [|by left].
    destruct (decide (loopOptimizationCategorise (analyse lg) L Inst = IBIO)).
    - destruct (InvariantOptimizeHandler (analyse lg) cfg L Inst UseCalls)
        as [edits [|]] eqn:Hh; cbn [fst] in Hst; [|by left].
      apply elem_of_union in Hst as [Hst|Hst]; [|by left].
      apply elem_of_singleton in Hst as ->.
      right. exists lg, L. split; [done|]. left. by rewrite Hh.
    - destruct (MonotonicOptimizeHandler (analyse lg) cfg (uninitialized Inst)
                  L Inst UseCalls) as [edits [|]] eqn:Hh;
        cbn [fst] in Hst; [|by left].
      apply elem_of_union in Hst as [Hst|Hst]; [|by left].
      apply elem_of_singleton in Hst as ->.
      right. exists lg, L. split; [done|]. right. by rewrite Hh. }
  specialize (Hgen ToInstrument (∅, log)).
  fold step. destruct (foldl step (∅, log) ToInstrument) as [optimized log'].
  cbn [fst] in *. intros Hnot.
  destruct (decide (I ∈ optimized)) as [Hopt|Hopt].
  - destruct (Hgen Hopt) as [Hempty|Hex]; [|done].
    by apply elem_of_empty in Hempty.
  - exfalso. apply Hnot. unfold keepNonDeleted.
    by apply list_elem_of_filter.
Qed.

Lemma handlers_skip_uninteresting (F : Analyses) unset (L I : Z)
    (UseCalls : bool) :
  isInterestingMemoryAccess F I = None →
  (InvariantOptimizeHandler F cfg L I UseCalls).2 = false
  ∧ (MonotonicOptimizeHandler F cfg unset L I UseCalls).2 = false.
Proof.
  intros Hnone. unfold InvariantOptimizeHandler, MonotonicOptimizeHandler.
  rewrite Hnone. split; [done|]. by destruct (getExitBlock F L).
Qed.

Lemma handlers_need_exit_block (F : Analyses) unset (L I : Z)
    (UseCalls : bool) :
  getExitBlock F L = None →
  (InvariantOptimizeHandler F cfg L I UseCalls).2 = false
  ∧ (MonotonicOptimizeHandler F cfg unset L I UseCalls).2 = false.
Proof.
  intros Hnone. unfold InvariantOptimizeHandler, MonotonicOptimizeHandler.
  rewrite Hnone. split; [|done].
  by destruct (isInterestingMemoryAccess F I).
Qed.

Lemma instrumentAll_visits (ToInstrument : list Z) (log : list IREdit)
    (I : Z) :
  I ∈ ToInstrument →
  (ClDebugMin cfg < 0 ∨ ClDebugMax cfg < 0) →
  ∃ log',
    match isInterestingMemoryAccess (analyse log') I with
    | Some _ =>
        editsOf (instrumentMop (analyse log') cfg I
                   (useCalls cfg ToInstrument))
    | None => [InstrumentMemIntrinsic I]
    end ⊆ instrumentAll analyse cfg ToInstrument log.
Proof.
  intros HI Hdebug. unfold instrumentAll. cbv zeta.
  set (UseCalls := useCalls cfg ToInstrument).
  assert ((ClDebugMin cfg <? 0) || (ClDebugMax cfg <? 0) = true) as Hopen.
  { apply orb_true_iff. destruct Hdebug; [left|right]; by apply Z.ltb_lt. }
  set (step := λ (st : Z * list IREdit) (Inst : Z),
         let '(NumInstrumented, log) := st in
         let edits :=
           if (ClDebugMin cfg <? 0) || (ClDebugMax cfg <? 0)
              || ((NumInstrumented >=? ClDebugMin cfg)
                  && (NumInstrumented <=? ClDebugMax cfg))
           then
             match isInterestingMemoryAccess (analyse log) Inst with
             | Some _ => editsOf (instrumentMop (analyse log) cfg Inst UseCalls)
             | None => [InstrumentMemIntrinsic Inst]
             end
           else [] in
         (NumInstrumented + 1, log ++ edits)).
  assert (∀ l st, st.2 `prefix_of` (foldl step st l).2) as Hprefix.
  { intros l st.
    apply (foldl_prefix (λ st : Z * list IREdit, st.2) step).
    intros [n lg] Inst. simpl. by apply prefix_app_r. }
  revert HI. generalize (0, log) as st. generalize ToInstrument as l.
  induction l as [|Inst l IH]; intros st HI; [by apply elem_of_nil in HI|].
  cbn [foldl]. apply elem_of_cons in HI as [->|HI]; [|by apply IH].
  destruct st as [n lg]. exists lg.
  intros e He. destruct (Hprefix l (step (n, lg) Inst)) as [k ->].
  unfold step. cbn [snd]. rewrite Hopen. cbn [orb].
  apply elem_of_app. left. apply elem_of_app. by right.
Qed.

(** The four sub-passes keep what is no interesting access. *)
Lemma ASAN_Optimizations_keeps_uninteresting (ToInstrument : list Z)
    (log : list IREdit) (I : Z) :
  I ∈ ToInstrument →
  (∀ log', isInterestingMemoryAccess (analyse log') I = None) →
  I ∈ (ASAN_Optimizations analyse cfg uninitialized ToInstrument log).1.
Proof.
  intros HI Hnone. unfold ASAN_Optimizations. cbv zeta.
  assert (I ∈ sequentialExecuteOptimizationPostDom (analyse log) ToInstrument)
    as H1 by by apply sequential_keeps_uninteresting.
  assert (I ∈ sequentialExecuteOptimization (analyse log)
                (sequentialExecuteOptimizationPostDom (analyse log)
                   ToInstrument))
    as H2 by by apply sequential_keeps_uninteresting.
  pose proof (sequentialExecuteOptimizationBoost_keeps analyse
                (MappingScale cfg) _ log I H2) as H3.
  destruct (sequentialExecuteOptimizationBoost _ _ _ _) as [l3 log3].
  cbn [fst] in H3.
  assert (I ∈ l3) as Hl3.
  { apply H3. intros key offset Hin.
    apply baseAddrOffsetMapPreprocessing_entries in Hin
      as (Inst & _ & acc & g & idx & Hacc & _ & _ & _ & _ & _ & Heq).
    cbn [snd] in Heq. subst Inst. by rewrite Hnone in Hacc. }
  destruct (decide (I ∈ (loopOptimization analyse cfg uninitialized l3
                           log3).1)) as [|Hnot]; [done|].
  destruct (loopOptimization_optimized l3 log3 I Hl3 Hnot)
    as (log' & L & _ & Hins).
  destruct (handlers_skip_uninteresting (analyse log') (uninitialized I) L I
              (useCalls cfg l3) (Hnone log')) as [Hinv Hmono].
  destruct Hins as [Hins|Hins]; congruence.
Qed.
End LoopPassFacts.

(** X20 [runOnFunction], [ASAN_Optimizations]: an instruction of the
    list of the memory operations that is no interesting memory access,
    such as a memory intrinsic, is taken from the list by none of the
    four sub-passes: when the function is instrumented and the
    debugging range is open, [runOnFunction] hands it to
    [instrumentMemIntrinsic]. *)
Theorem memory_intrinsics_are_always_instrumented
    (analyse : list IREdit → Analyses) (cfg : Config)
    (uninitialized : Z → SCEVOut) (fn : FunctionInfo)
    (ToInstrument : list Z) (I : Z) :
  isExcluded fn = false →
  hasSanitizeAddress fn = true →
  memoryOperations fn = Some ToInstrument →
  I ∈ ToInstrument →
  (∀ log, isInterestingMemoryAccess (analyse log) I = None) →
  (ClDebugMin cfg < 0 ∨ ClDebugMax cfg < 0) →
  I ∈ (ASAN_Optimizations analyse cfg uninitialized ToInstrument
         (MyCloneAllBBs fn ++ maybeInsertAsanInitAtFunctionEntry fn)).1
  ∧ InstrumentMemIntrinsic I ∈ runOnFunction analyse cfg uninitialized fn.
Proof.
  intros Hex Hsan Hmem HI Hnone Hdebug.
  pose proof (ASAN_Optimizations_keeps_uninteresting analyse cfg
                uninitialized ToInstrument
                (MyCloneAllBBs fn ++ maybeInsertAsanInitAtFunctionEntry fn)
                I HI Hnone) as Hkept.
  split; [done|].
  unfold runOnFunction. rewrite Hex, Hsan, Hmem. cbn [negb]. cbv zeta.
  destruct (ASAN_Optimizations _ _ _ _ _) as [l4 log4]. cbn [fst] in Hkept.
  destruct (instrumentAll_visits analyse cfg l4 log4 I Hkept Hdebug)
    as [log' Hsub].
  rewrite Hnone in Hsub. apply Hsub. left.
Qed.

Lemma memory_intrinsics_are_always_instrumented_witness :
  let fn := mkFunctionInfo false [10] false true (Some [1; 2; 5; 4]) in
  InstrumentMemIntrinsic 5
    ∈ runOnFunction (λ _, loadsAndCall) defaultConfig noLocals fn.
Proof.
  apply (memory_intrinsics_are_always_instrumented (λ _, loadsAndCall)
           defaultConfig noLocals
           (mkFunctionInfo false [10] false true (Some [1; 2; 5; 4]))
           [1; 2; 5; 4] 5).
  - reflexivity.
  - reflexivity.
  - reflexivity.
  - by apply (bool_decide_unpack _).
  - intros log. reflexivity.
  - left. by vm_compute.
Defined.

(** X21 [loopOptimization]: the loop pass leaves on the list every
    instruction that stands in no loop, and every instruction whose
    loop has no single exit block. *)
Theorem loop_pass_needs_a_single_exit
    (analyse : list IREdit → Analyses) (cfg : Config)
    (uninitialized : Z → SCEVOut) (ToInstrument : list Z)
    (log : list IREdit) (I : Z) :
  I ∈ ToInstrument →
  (∀ log',
     match getLoopFor (analyse log') (getParent (analyse log') I) with
     | None => True
     | Some L => getExitBlock (analyse log') L = None
     end) →
  I ∈ (loopOptimization analyse cfg uninitialized ToInstrument log).1.
Proof.
  intros HI Hloops.
  destruct (decide (I ∈ (loopOptimization analyse cfg uninitialized
                           ToInstrument log).1)) as [|Hnot]; [done|].
  destruct (loopOptimization_optimized analyse cfg uninitialized
              ToInstrument log I HI Hnot) as (log' & L & HL & Hins).
  specialize (Hloops log'). rewrite HL in Hloops.
  destruct (handlers_need_exit_block cfg (analyse log') (uninitialized I) L I
              (useCalls cfg ToInstrument) Hloops) as [Hinv Hmono].
  destruct Hins as [Hins|Hins]; congruence.
Qed.

Lemma loop_pass_needs_a_single_exit_witness :
  4 ∈ (loopOptimization (λ _, loadsAndCall) defaultConfig noLocals
         [1; 2; 5; 4] []).1.
Proof.
  apply (loop_pass_needs_a_single_exit (λ _, loadsAndCall) defaultConfig
           noLocals [1; 2; 5; 4] [] 4).
  - by apply (bool_decide_unpack _).
  - intros log'. by vm_compute.
Defined.

(** ** The guard of a cluster and the checks *)

(** X22 [optimizeInstrumentation]: the body of the guard inserted for
    an entry with a vector that is not empty holds the full checks of
    the sites of the vector and no other check, so the guard reports an
    error only in a state in which the check of one of these sites
    reports one; the node of the entry is marked as deleted without a
    check of its own. *)
Theorem merged_guard_checks_vector_sites (F : Analyses) (cfg : Config)
    (rt : Runtime) (Scale : Z) (optInst : RankedEntry) :
  optInst.2.2 ≠ [] →
  let siteCheck (B : Z * Z) :=
    fullCheck Scale (OfValue (Addr (accessOf F B.2))) (accessOf F B.2)
      false in
  ∃ InsertBefore Cmp body,
    mergedGuard F Scale optInst = InsertIfThen InsertBefore Cmp body
    ∧ (∀ c, c ∈ body ↔ ∃ B, B ∈ optInst.2.2 ∧ c = siteCheck B)
    ∧ (editFires cfg rt (mergedGuard F Scale optInst) = true →
       ∃ B, B ∈ optInst.2.2 ∧ checkFires cfg rt (siteCheck B) = true)
    ∧ optInst.2.1.2 ∈ mergedAway optInst.
Proof.
  intros Hvec siteCheck. destruct optInst as [n [key vec]].
  cbn [fst snd] in Hvec |- *.
  assert (getMinDistance (n, (key, vec)) ∈ vec) as Hmin.
  { destruct vec as [|firstInst rest]; [done|].
    destruct (getMinDistance_fold (firstInst :: rest) [firstInst] firstInst)
      as [Hin _].
    - left.
    - intros x Hx. by apply list_elem_of_singleton in Hx as ->.
    - unfold getMinDistance. cbn [fst snd head]. simpl default.
      cbv zeta in Hin.
      apply elem_of_app in Hin as [Hin|Hin]; [|done].
      apply list_elem_of_singleton in Hin. rewrite Hin. left. }
  unfold mergedGuard. cbv zeta. cbn [fst snd].
  eexists _, _, _. split; [reflexivity|].
  assert (∀ c,
    c ∈ siteCheck (getMinDistance (n, (key, vec))) :: map siteCheck vec
    ↔ ∃ B, B ∈ vec ∧ c = siteCheck B) as Hbody.
  { intros c. rewrite elem_of_cons. split.
    - intros [->|Hc]; [by eexists|].
      apply list_elem_of_fmap in Hc as (B & -> & HB). by exists B.
    - intros (B & HB & ->). right. apply list_elem_of_fmap. by exists B. }
  split_and!.
  - exact Hbody.
  - cbn [editFires]. intros Hfires.
    apply andb_true_iff in Hfires as [_ Hfires].
    apply existsb_exists in Hfires as (c & Hc & Hfires).
    apply list_elem_of_In, Hbody in Hc as (B & HB & ->). by exists B.
  - unfold mergedAway. cbn [fst snd]. apply elem_of_union. left.
    by apply elem_of_singleton.
Qed.

Lemma merged_guard_checks_vector_sites_witness :
  ∃ InsertBefore Cmp body,
    mergedGuard negativeOffset 3 (1, ((0, 2), [(-8, 1)]))
    = InsertIfThen InsertBefore Cmp body
    ∧ (∀ c, c ∈ body
            ↔ ∃ B, B ∈ [(-8, 1)]
                   ∧ c = fullCheck 3
                           (OfValue (Addr (accessOf negativeOffset B.2)))
                           (accessOf negativeOffset B.2) false)
    ∧ (editFires defaultConfig (mkRuntime (λ _, 0) (λ _, 0) (λ _, 0)
                                  (λ _, false))
         (mergedGuard negativeOffset 3 (1, ((0, 2), [(-8, 1)]))) = true →
       ∃ B, B ∈ [(-8, 1)]
            ∧ checkFires defaultConfig
                (mkRuntime (λ _, 0) (λ _, 0) (λ _, 0) (λ _, false))
                (fullCheck 3 (OfValue (Addr (accessOf negativeOffset B.2)))
                   (accessOf negativeOffset B.2) false) = true)
    ∧ 2 ∈ mergedAway (1, ((0, 2), [(-8, 1)])).
Proof.
  apply (merged_guard_checks_vector_sites negativeOffset defaultConfig
           (mkRuntime (λ _, 0) (λ _, 0) (λ _, 0) (λ _, false)) 3
           (1, ((0, 2), [(-8, 1)]))).
  discriminate.
Defined.

(** ** The encoding of the shadow memory *)

Lemma loadShadow_8 (rt : Runtime) (ShadowPtr : Z) :
  loadShadow rt ShadowPtr 8 = shadowAt rt ShadowPtr mod 256.
Proof.
  unfold loadShadow. change (Z.to_nat (8 / 8)) with 1%nat.
  cbn [seq foldr]. change (Z.of_nat 0) with 0.
  replace (ShadowPtr + 0) with ShadowPtr by lia. lia.
Qed.

Lemma loadShadow_16 (rt : Runtime) (ShadowPtr : Z) :
  loadShadow rt ShadowPtr 16
  = shadowAt rt ShadowPtr mod 256
    + 256 * (shadowAt rt (ShadowPtr + 1) mod 256).
Proof.
  unfold loadShadow. change (Z.to_nat (16 / 8)) with 2%nat.
  cbn [seq foldr]. change (Z.of_nat 0) with 0. change (Z.of_nat 1) with 1.
  replace (ShadowPtr + 0) with ShadowPtr by lia. lia.
Qed.

(** X23 [instrumentAddress], [createSlowPathCmp]: with the scale 3 and
    without the forced slow path, the inline check of an access of 1, 2
    or 4 bytes reads one shadow byte k and reports an error exactly
    when k is not 0 and either k is 128 or more or the last byte
    accessed, counted within its granule of 8 bytes, is at position k
    or beyond; the check of 8 bytes reports exactly when k is not 0,
    and the check of 16 bytes exactly when one of the two shadow bytes
    it reads is not 0. *)
Theorem inline_check_reads_shadow_encoding (cfg : Config) (rt : Runtime)
    (AddrLong : Z) :
  MappingScale cfg = 3 →
  ClAlwaysSlowPath cfg = false →
  let k := shadowAt rt (memToShadow cfg AddrLong) mod 256 in
  let k' := shadowAt rt (memToShadow cfg AddrLong + 1) mod 256 in
  (∀ TypeSize, TypeSize = 8 ∨ TypeSize = 16 ∨ TypeSize = 32 →
     (instrumentAddressFires cfg rt AddrLong TypeSize = true
      ↔ k ≠ 0 ∧ (128 ≤ k ∨ k ≤ AddrLong mod 8 + (TypeSize / 8 - 1))))
  ∧ (instrumentAddressFires cfg rt AddrLong 64 = true ↔ k ≠ 0)
  ∧ (instrumentAddressFires cfg rt AddrLong 128 = true ↔ k ≠ 0 ∨ k' ≠ 0).
Proof.
  intros Hscale Hslow k k'.
  assert (0 ≤ k < 256) as Hk by (apply Z.mod_pos_bound; lia).
  assert (0 ≤ k' < 256) as Hk' by (apply Z.mod_pos_bound; lia).
  assert (Z.land AddrLong (2 ^ 3 - 1) = AddrLong mod 8) as Hland.
  { change (2 ^ 3 - 1) with (Z.ones 3). by rewrite Z.land_ones by lia. }
  assert (0 ≤ AddrLong mod 8 < 8) as Hmod by (apply Z.mod_pos_bound; lia).
  split_and!.
  - intros TypeSize Hsize.
    unfold instrumentAddressFires, createSlowPathCmp, signed.
    rewrite Hscale, Hslow, Hland. cbv zeta.
    assert (Z.max 8 (Z.shiftr TypeSize 3) = 8) as ->
      by (destruct Hsize as [-> | [-> | ->]]; reflexivity).
    rewrite loadShadow_8. fold k.
    assert ((TypeSize <? 8 * 2 ^ 3) = true) as ->
      by (apply Z.ltb_lt; lia).
    cbn [orb]. change (2 ^ (8 - 1)) with 128. change (2 ^ 8) with 256.
    set (last := if TypeSize / 8 >? 1
                 then AddrLong mod 8 + (TypeSize / 8 - 1)
                 else AddrLong mod 8).
    assert (last = AddrLong mod 8 + (TypeSize / 8 - 1)) as Hlast.
    { unfold last.
      destruct Hsize as [-> | [-> | ->]];
        [change (8 / 8) with 1|change (16 / 8) with 2|change (32 / 8) with 4];
        cbn [Z.gtb Z.compare Pos.compare Pos.compare_cont]; lia. }
    assert (0 ≤ last < 11) as Hrange.
    { rewrite Hlast.
      destruct Hsize as [-> | [-> | ->]];
        [change (8 / 8) with 1|change (16 / 8) with 2|change (32 / 8) with 4];
        lia. }
    rewrite <- Hlast. rewrite (Z.mod_small last 256) by lia.
    assert ((last <? 128) = true) as -> by (apply Z.ltb_lt; lia).
    rewrite andb_true_iff, negb_true_iff, Z.eqb_neq, Z.geb_le.
    destruct (k <? 128) eqn:Hlt.
    + apply Z.ltb_lt in Hlt. split; intros [? ?]; (split; [done|lia]).
    + apply Z.ltb_ge in Hlt. split; intros [? ?]; (split; [done|lia]).
  - unfold instrumentAddressFires. rewrite Hscale, Hslow. cbv zeta.
    change (Z.max 8 (Z.shiftr 64 3)) with 8. rewrite loadShadow_8. fold k.
    change (64 <? 8 * 2 ^ 3) with false. cbn [orb].
    by rewrite negb_true_iff, Z.eqb_neq.
  - unfold instrumentAddressFires. rewrite Hscale, Hslow. cbv zeta.
    change (Z.max 8 (Z.shiftr 128 3)) with 16. rewrite loadShadow_16.
    fold k k'. change (128 <? 8 * 2 ^ 3) with false. cbn [orb].
    rewrite negb_true_iff, Z.eqb_neq. lia.
Qed.

Lemma inline_check_reads_shadow_encoding_witness :
  let rt := mkRuntime (λ _, 0) (λ _, 0) (λ _, 4) (λ _, false) in
  instrumentAddressFires defaultConfig rt 1003 16 = true
  ∧ instrumentAddressFires defaultConfig rt 1000 32 = false.
Proof.
  intros rt.
  destruct (inline_check_reads_shadow_encoding defaultConfig rt 1003)
    as [Hsmall _]; [reflexivity|reflexivity|].
  destruct (inline_check_reads_shadow_encoding defaultConfig rt 1000)
    as [Hsmall' _]; [reflexivity|reflexivity|].
  split.
  - apply Hsmall; [right; by left|]. vm_compute. split; [done|].
    right. discriminate.
  - destruct (instrumentAddressFires defaultConfig rt 1000 32) eqn:Hf;
      [|done].
    apply Hsmall' in Hf; [|right; by right].
    vm_compute in Hf. destruct Hf as [_ [Hf|Hf]]; by destruct Hf.
Defined.

(** ** The classification of a scalar evolution *)

Lemma SCEVTypeCalculation_cases (types : list SCEVType) :
  SCEVTypeCalculation types = SEUnknown
  ∨ ((SEUnknown ∉ types)
     ∧ (SCEVTypeCalculation types = SEIncrease
        ∨ SCEVTypeCalculation types = SEDecrease)
     ∧ SCEVTypeCalculation types ∈ types).
Proof.
  unfold SCEVTypeCalculation.
  destruct (decide (SEUnknown ∈ types)) as [|Hnot]; [by left|].
  destruct (List.find _ types) as [type|] eqn:Hfind; [|by left].
  apply find_some in Hfind as [Hin Htype]. cbn [default from_option id].
  right. split; [done|]. apply list_elem_of_In in Hin. split; [|done].
  apply orb_true_iff in Htype as [Htype|Htype];
    apply bool_decide_eq_true in Htype; auto.
Qed.

Lemma SCEV_induction (P : SCEV → Prop) :
  (∀ value SExtValue, P (SCEVConstant value SExtValue)) →
  (∀ Start Step, P Start → P Step → P (SCEVAddRecExpr Start Step)) →
  (∀ value, P (SCEVUnknown value)) →
  (∀ operands, Forall P operands → P (SCEVAddExpr operands)) →
  (∀ operands, Forall P operands → P (SCEVMulExpr operands)) →
  (∀ LHS RHS, P LHS → P RHS → P (SCEVUDivExpr LHS RHS)) →
  (∀ a b, P a → P b → P (SCEVSMaxExpr a b)) →
  (∀ a b, P a → P b → P (SCEVUMaxExpr a b)) →
  (∀ operand, P operand → P (SCEVTruncateExpr operand)) →
  (∀ operand, P operand → P (SCEVZeroExtendExpr operand)) →
  (∀ operand, P operand → P (SCEVSignExtendExpr operand)) →
  P SCEVCouldNotCompute →
  ∀ Expr, P Expr.
Proof.
  intros Hconst Hrec Hunknown Hadd Hmul Hdiv Hsmax Humax Htrunc Hzext Hsext
    Hnone.
  fix IH 1. intros [value s|Start Step|value|operands|operands|a b|a b|a b
                    |operand|operand|operand|].
  - apply Hconst.
  - apply Hrec; apply IH.
  - apply Hunknown.
  - apply Hadd. induction operands as [|operand rest IHrest];
      constructor; [apply IH|exact IHrest].
  - apply Hmul. induction operands as [|operand rest IHrest];
      constructor; [apply IH|exact IHrest].
  - apply Hdiv; apply IH.
  - apply Hsmax; apply IH.
  - apply Humax; apply IH.
  - apply Htrunc; apply IH.
  - apply Hzext; apply IH.
  - apply Hsext; apply IH.
  - apply Hnone.
Qed.

Section SCEVFacts.
Variable F : Analyses.
Variable L : Z.

Ltac combine_types operands out IH :=
  cbn [getInitValueFromSCEV];
  match goal with
  | |- context [?combine operands out] =>
      assert (∀ out,
                (SEUnknown ∈ (combine operands out).1)
                ∨ (stepSize (combine operands out).2 = stepSize out
                   ∧ Forall (λ t, t = SEConstant ∨ t = SELoopInvariant)
                       (combine operands out).1)
                ∨ stepSize (combine operands out).2 ≠ 0) as Hcombine;
      [ clear out;
        induction IH as [|operand rest Hoperand _ IHrest]; intros out;
        [ right; left; by split
        | cbn [getInitValueFromSCEV]; specialize (Hoperand out);
          destruct (getInitValueFromSCEV F L operand out) as [type out1];
          specialize (IHrest out1);
          destruct (combine rest out1) as [types out2];
          cbn [fst snd] in *;
          destruct IHrest as [Hun|[[Hsame Hall]|Hstep]];
          [ left; by right
          | destruct type;
            [ right; left; split; [congruence|constructor; auto]
            | right; right; congruence
            | right; right; congruence
            | right; left; split; [congruence|constructor; auto]
            | left; left ]
          | destruct type;
            [ right; right; done
            | right; right; done
            | right; right; done
            | right; right; done
            | left; left ] ] ]
      | specialize (Hcombine out);
        destruct (combine operands out) as [types out'];
        cbn [fst snd] in *;
        destruct (SCEVTypeCalculation_cases types)
          as [->|(Hnot & Hdir & Hin)]; [done|];
        destruct Hcombine as [Hun|[[_ Hall]|Hstep]]; [done| |];
        [ rewrite Forall_forall in Hall;
          destruct (Hall _ Hin) as [Hc|Hc];
          destruct Hdir as [Hd|Hd]; congruence
        | by destruct Hdir as [-> | ->] ] ]
  end.

Ltac binary_types a b out IHa IHb :=
  cbn [getInitValueFromSCEV]; specialize (IHa out);
  destruct (getInitValueFromSCEV F L a out) as [ta out1];
  specialize (IHb out1);
  destruct (getInitValueFromSCEV F L b out1) as [tb out2];
  cbn [fst snd] in *;
  destruct ta, tb; vm_compute SCEVTypeCalculation; cbn [fst snd];
  first [done | congruence].

Lemma getInitValueFromSCEV_stepSize (Expr : SCEV) :
  ∀ out : SCEVOut,
    match (getInitValueFromSCEV F L Expr out).1 with
    | SEIncrease | SEDecrease =>
        stepSize (getInitValueFromSCEV F L Expr out).2 ≠ 0
    | SEConstant | SELoopInvariant =>
        stepSize (getInitValueFromSCEV F L Expr out).2 = stepSize out
    | SEUnknown => True
    end.
Proof.
  induction Expr as [value s|Start Step IHStart _|value|operands IH
                    |operands IH|a b IHa IHb|a b IHa IHb|a b IHa IHb
                    |operand IH|operand IH|operand IH|] using SCEV_induction;
    intros out.
  - done.
  - cbn [getInitValueFromSCEV].
    destruct (getInitValueFromSCEV F L Start _) as [initType out0].
    destruct (decide (initType = SEUnknown)); [done|].
    destruct Step as [value StepRecurrenceInt| | | | | | | | | | |]; try done.
    destruct (StepRecurrenceInt <? 0) eqn:Hneg.
    { apply Z.ltb_lt in Hneg. cbn. lia. }
    destruct (StepRecurrenceInt >? 0) eqn:Hpos; [|done].
    cbn. lia.
  - cbn [getInitValueFromSCEV].
    by destruct (decide (checkAddrType F value [] L = IBIO)).
  - combine_types operands out IH.
  - combine_types operands out IH.
  - binary_types a b out IHa IHb.
  - binary_types a b out IHa IHb.
  - binary_types a b out IHa IHb.
  - apply IH.
  - apply IH.
  - apply IH.
  - done.
Qed.
End SCEVFacts.

(** X24 [getInitValueFromSCEV], [SCEVTypeCalculation]: when the
    expression is classified as increasing or decreasing, the step
    handed to the handler is not 0; when it is classified as constant
    or as loop invariant, the step is left as it was found. *)
Theorem classified_step_is_not_zero (F : Analyses) (L : Z) (Expr : SCEV)
    (out : SCEVOut) :
  let '(type, out') := getInitValueFromSCEV F L Expr out in
  (type = SEIncrease ∨ type = SEDecrease → stepSize out' ≠ 0)
  ∧ (type = SEConstant ∨ type = SELoopInvariant →
     stepSize out' = stepSize out).
Proof.
  pose proof (getInitValueFromSCEV_stepSize F L Expr out) as Hstep.
  destruct (getInitValueFromSCEV F L Expr out) as [type out'].
  cbn [fst snd] in Hstep.
  split; intros [-> | ->]; exact Hstep.
Qed.

Lemma loadShadow_zero (rt : Runtime) (ShadowPtr bits : Z) :
  loadShadow rt ShadowPtr bits = 0
  ↔ ∀ i, 0 ≤ i < bits / 8 → shadowAt rt (ShadowPtr + i) mod 256 = 0.
Proof.
  unfold loadShadow.
  assert (∀ (n start : nat),
    0 ≤ foldr (λ (i : nat) acc,
                 shadowAt rt (ShadowPtr + Z.of_nat i) mod 256 + 256 * acc)
              0 (seq start n)
    ∧ (foldr (λ (i : nat) acc,
                shadowAt rt (ShadowPtr + Z.of_nat i) mod 256 + 256 * acc)
             0 (seq start n) = 0
       ↔ ∀ i : nat, (start ≤ i < start + n)%nat →
                    shadowAt rt (ShadowPtr + Z.of_nat i) mod 256 = 0))
    as Hgen.
  { induction n as [|n IH]; intros start; cbn [seq foldr].
    - split; [done|]. split; [intros _ i Hi; lia|done].
    - destruct (IH (S start)) as [Hpos Hzero].
      pose proof (Z.mod_pos_bound
                    (shadowAt rt (ShadowPtr + Z.of_nat start)) 256
                    ltac:(lia)) as Hbyte.
      split; [lia|]. split.
      + intros Hsum i Hi.
        destruct (decide (i = start)) as [->|Hne]; [lia|].
        apply Hzero; lia.
      + intros Hall.
        assert (foldr (λ (i : nat) acc,
                  shadowAt rt (ShadowPtr + Z.of_nat i) mod 256 + 256 * acc)
                  0 (seq (S start) n) = 0) as ->.
        { apply Hzero. intros i Hi. apply Hall. lia. }
        rewrite (Hall start) by lia. done. }
  destruct (Hgen (Z.to_nat (bits / 8)) 0%nat) as [_ ->]. split.
  - intros Hall i Hi. specialize (Hall (Z.to_nat i) ltac:(lia)).
    by rewrite Z2Nat.id in Hall by lia.
  - intros Hall i Hi. apply Hall. lia.
Qed.

(** X25 [optimizeInstrumentation]: the test of the guard of a cluster,
    a load of [bits] bits from the shadow of the address compared with
    0, lets the checks of the body be skipped exactly when each of the
    [bits / 8] shadow bytes from the shadow address of the site on is
    0. *)
Theorem guard_skips_when_shadow_bytes_are_zero (cfg : Config) (rt : Runtime)
    (InsertBefore Addr bits : Z) (body : list Check) :
  (condHolds cfg rt (ShadowNonZero Addr bits) = false
   ↔ ∀ i, 0 ≤ i < bits / 8 →
          shadowAt rt (memToShadow cfg (valueAt rt Addr) + i) mod 256 = 0)
  ∧ ((∀ i, 0 ≤ i < bits / 8 →
           shadowAt rt (memToShadow cfg (valueAt rt Addr) + i) mod 256 = 0) →
     editFires cfg rt (InsertIfThen InsertBefore (ShadowNonZero Addr bits)
                         body) = false).
Proof.
  assert (condHolds cfg rt (ShadowNonZero Addr bits) = false
          ↔ ∀ i, 0 ≤ i < bits / 8 →
                 shadowAt rt (memToShadow cfg (valueAt rt Addr) + i) mod 256
                 = 0) as Hcond.
  { cbn [condHolds]. rewrite negb_false_iff, Z.eqb_eq.
    apply loadShadow_zero. }
  split; [exact Hcond|].
  intros Hall. apply Hcond in Hall. cbn [editFires]. by rewrite Hall.
Qed.
